(** * Fuzzy, frequency-ranked sentence autocomplete: a shallow embedding

    The development follows the JavaScript sources

    - [src/fuzzy-matcher.js]  (class [FuzzyMatcher]),
    - [src/enhanced-trie.js]  (classes [TrieNode] and [EnhancedTrie]),
    - [src/script.js]         (class [FuzzyTrieAutocomplete], in its two
                               variants: lines 8-45 and lines 409-471),

    and proves the properties the specification states about them.

    Conventions of the embedding.

    - A JavaScript string is a list of code units.  The model covers the
      code units below 256 (Latin-1), on which [toLowerCase] keeps the
      length and [trim] removes the seven blanks TAB, LF, VT, FF, CR, SP
      and NBSP.
    - A JavaScript number that holds a count, a length or a timestamp is an
      integer ([nat] where it is a length or an edit cost, [Z] where the code
      subtracts it).  Doubles are exact on integers below 2^53.  A score
      [distance / maxLen] is the exact rational: two such quotients of
      lengths below 2^25 differ by more than the spacing of the doubles
      unless they are equal, so the comparisons of the program agree with
      the comparisons of the rationals.
    - [Date.now()] is an input of the operation that reads it.
    - An object used as a dictionary ([node.children]) is an association
      list kept in the order [for ... in] enumerates it, since that order
      decides the order of the suggestions.  A [Set] and a [Map] are lists in
      insertion order for the same reason.
    - [Array.prototype.sort] is the stable sort ECMAScript specifies; both
      comparators of the program are total preorders, and for such a
      comparator the stable sorted permutation is unique.
    - A method is first a function of the value of its object.  For the
      question which objects a method assigns to, the search is given a
      second time as a program on a heap of objects, and related to the
      functions. *)

From Stdlib Require Import Ascii String.
From Stdlib Require Import List Arith ZArith QArith Lia Bool Permutation Sorted.
Import ListNotations.

Local Close Scope Q_scope.
Local Open Scope nat_scope.
Local Open Scope list_scope.

(** ** JavaScript strings *)

Definition jsstring := list ascii.

(** A string literal, for the examples. *)
Definition js (s : string) : jsstring := list_ascii_of_string s.

(** [!s] on a string: true exactly on the empty string. *)
Definition is_empty (s : jsstring) : bool :=
  match s with [] => true | _ :: _ => false end.

(** [s1 === s2] on strings. *)
Fixpoint jsstring_eqb (s1 s2 : jsstring) : bool :=
  match s1, s2 with
  | [], [] => true
  | c1 :: r1, c2 :: r2 => Ascii.eqb c1 c2 && jsstring_eqb r1 r2
  | _, _ => false
  end.

(** [String.prototype.toLowerCase] on the code units below 256: the letters
    A-Z and the Latin-1 capitals U+00C0..U+00DE (U+00D7, the multiplication
    sign, apart) move up by 32. *)
Definition lower_char (c : ascii) : ascii :=
  let n := nat_of_ascii c in
  if ((65 <=? n) && (n <=? 90))
     || ((192 <=? n) && (n <=? 222) && negb (n =? 215))
  then ascii_of_nat (n + 32)
  else c.

Definition toLowerCase (s : jsstring) : jsstring := map lower_char s.

(** The blanks [String.prototype.trim] removes, below 256. *)
Definition is_ws (c : ascii) : bool :=
  let n := nat_of_ascii c in
  ((9 <=? n) && (n <=? 13)) || (n =? 32) || (n =? 160).

Fixpoint trimStart (s : jsstring) : jsstring :=
  match s with
  | [] => []
  | c :: r => if is_ws c then trimStart r else s
  end.

Definition trimEnd (s : jsstring) : jsstring := rev (trimStart (rev s)).

Definition trim (s : jsstring) : jsstring := trimEnd (trimStart s).

(** [s.slice(0, i)], [s.slice(i)] and [s[i]] (as the string of that one
    code unit; the program indexes inside the string only). *)
Definition slice_to (i : nat) (s : jsstring) : jsstring := firstn i s.
Definition slice_from (i : nat) (s : jsstring) : jsstring := skipn i s.
Definition char_at (i : nat) (s : jsstring) : jsstring := firstn 1 (skipn i s).

(** ** Sorting

    [l.sort(cmp)]: a stable insertion sort.  [cmp a b <= 0] keeps [a]
    before [b]. *)
Section Sort.
Context {A : Type} (cmp : A -> A -> Z).

Fixpoint sort_insert (x : A) (l : list A) : list A :=
  match l with
  | [] => [x]
  | y :: r => if (cmp x y <=? 0)%Z then x :: l else y :: sort_insert x r
  end.

Fixpoint js_sort (l : list A) : list A :=
  match l with
  | [] => []
  | x :: r => sort_insert x (js_sort r)
  end.
End Sort.

(** ** Errors and state

    A method runs on the object's state and either returns a value or
    throws; the state it leaves is returned in both cases.  The errors are
    those the engine itself throws: a TypeError (a call of what is no
    function, a property of [undefined]), a ReferenceError (an identifier
    that nothing binds) and a RangeError (the call stack is used up). *)
Inductive JsError : Type := TypeError | ReferenceError | RangeError.

Inductive JsResult (A : Type) : Type :=
| Ok (a : A)
| Throw (e : JsError).
Arguments Ok {A} a.
Arguments Throw {A} e.

Definition M (S A : Type) : Type := S -> JsResult A * S.

Definition ret {S A} (a : A) : M S A := fun s => (Ok a, s).

Definition bind {S A B} (m : M S A) (k : A -> M S B) : M S B :=
  fun s =>
    match m s with
    | (Ok a, s') => k a s'
    | (Throw e, s') => (Throw e, s')
    end.

Definition throw {S A} (e : JsError) : M S A := fun s => (Throw e, s).
Definition gets {S A} (f : S -> A) : M S A := fun s => (Ok (f s), s).
Definition modify {S} (f : S -> S) : M S unit := fun s => (Ok tt, f s).

Declare Scope js_scope.
Delimit Scope js_scope with js.
Notation "x <- m ;; k" := (bind m (fun x => k))
  (at level 61, m at next level, right associativity) : js_scope.
Notation "m ;;; k" := (bind m (fun _ => k))
  (at level 61, right associativity) : js_scope.

(** [for (const x of l) body(x)], collecting what each round returns. *)
Fixpoint forEach {S A B} (l : list A) (body : A -> M S B) : M S (list B) :=
  match l with
  | [] => ret []
  | x :: r =>
      bind (body x) (fun b => bind (forEach r body) (fun bs => ret (b :: bs)))
  end.

(** ** FuzzyMatcher ([src/fuzzy-matcher.js]) *)
Module FuzzyMatcher.

Record t : Type := { maxDistance : nat }.

(** [constructor(maxDistance = 2)] *)
Definition new (maxDistance : option nat) : t :=
  {| maxDistance := match maxDistance with Some d => d | None => 2 end |}.

(** ['abcdefghijklmnopqrstuvwxyz0123456789 '] (line 43). *)
Definition chars : jsstring := js "abcdefghijklmnopqrstuvwxyz0123456789 ".

(** [variations.add(x)] on a [Set] kept in insertion order. *)
Definition set_add (x : jsstring) (variations : list jsstring) : list jsstring :=
  if existsb (jsstring_eqb x) variations then variations else variations ++ [x].

(** The four loops of [addEdits] (lines 45-80), each as the list of the
    strings it adds, in the order it adds them. *)
Definition deletions (word : jsstring) : list jsstring :=
  map (fun i => slice_to i word ++ slice_from (i + 1) word)
      (seq 0 (length word)).

Definition transpositions (word : jsstring) : list jsstring :=
  map (fun i => slice_to i word ++ char_at (i + 1) word ++ char_at i word
                  ++ slice_from (i + 2) word)
      (seq 0 (length word - 1)).

Definition replacements (word : jsstring) : list jsstring :=
  flat_map (fun i => map (fun char => slice_to i word ++ [char]
                                        ++ slice_from (i + 1) word) chars)
           (seq 0 (length word)).

Definition insertions (word : jsstring) : list jsstring :=
  flat_map (fun i => map (fun char => slice_to i word ++ [char]
                                        ++ slice_from i word) chars)
           (seq 0 (length word + 1)).

Definition edits (word : jsstring) : list jsstring :=
  deletions word ++ transpositions word ++ replacements word ++ insertions word.

Definition addEdits (word : jsstring) (variations : list jsstring) : list jsstring :=
  fold_left (fun vs x => set_add x vs) (edits word) variations.

(** [getVariations(word)] (lines 16-35).  Each round iterates over a
    snapshot [currentWords] of the set and adds to the set itself. *)
Definition round (variations : list jsstring) : list jsstring :=
  let currentWords := variations in
  fold_left (fun vs currentWord => addEdits currentWord vs) currentWords variations.

Definition getVariations (self : t) (word : jsstring) : list jsstring :=
  let variations := [word] in
  if is_empty word || (maxDistance self <=? 0) then variations
  else fold_left (fun vs _ => round vs) (seq 1 (maxDistance self)) variations.

(** [levenshteinDistance(s1, s2)] (lines 89-117).  The matrix [dp] is the
    list of its rows; row [i] is filled from left to right out of row
    [i - 1], as the two nested loops do. *)
Fixpoint fillRow (c : ascii) (s2 : jsstring) (above : list nat)
         (diag left : nat) : list nat :=
  match s2, above with
  | d :: s2', up :: above' =>
      let cost := if Ascii.eqb c d then 0 else 1 in
      let v := Nat.min (up + 1) (Nat.min (left + 1) (diag + cost)) in
      v :: fillRow c s2' above' up v
  | _, _ => []
  end.

Definition nextRow (s2 : jsstring) (prev : list nat) (i : nat) (c : ascii)
  : list nat :=
  match prev with
  | [] => []
  | d0 :: above => i :: fillRow c s2 above d0 i
  end.

Fixpoint fillMatrix (s1 s2 : jsstring) (i : nat) (prev : list nat)
  : list (list nat) :=
  match s1 with
  | [] => []
  | c :: s1' =>
      let row := nextRow s2 prev i c in
      row :: fillMatrix s1' s2 (S i) row
  end.

Definition dpMatrix (s1 s2 : jsstring) : list (list nat) :=
  let row0 := seq 0 (length s2 + 1) in
  row0 :: fillMatrix s1 s2 1 row0.

Definition levenshteinDistance (s1 s2 : jsstring) : nat :=
  if jsstring_eqb s1 s2 then 0
  else if is_empty s1 then length s2
  else if is_empty s2 then length s1
  else
    let m := length s1 in
    let n := length s2 in
    nth n (nth m (dpMatrix s1 s2) []) 0.

(** [calculateSimilarity(original, match)] (lines 125-138). *)
Definition calculateSimilarity (original match_ : jsstring) : Q :=
  let s1 := toLowerCase original in
  let s2 := toLowerCase match_ in
  let distance := levenshteinDistance s1 s2 in
  let maxLen := Nat.max (length s1) (length s2) in
  if maxLen =? 0 then 0%Q
  else (Z.of_nat distance # Pos.of_nat maxLen)%Q.

(** [matches(s1, s2)] (lines 146-152). *)
Definition matches (self : t) (s1 s2 : jsstring) : bool :=
  if is_empty s1 || is_empty s2 then false
  else if jsstring_eqb s1 s2 then true
  else levenshteinDistance (toLowerCase s1) (toLowerCase s2) <=? maxDistance self.

(** The object [{ variation, distance }] of [findBestMatchingVariation]. *)
Record BestMatch : Type := { variation : jsstring; distance : nat }.

(** [findBestMatchingVariation(query, text)] (lines 161-181), called
    without [variations]. *)
Definition findBestMatchingVariation (self : t) (query text : jsstring) : BestMatch :=
  let variations := getVariations self query in
  let bestMatch :=
    {| variation := query;
       distance := levenshteinDistance (toLowerCase query) (toLowerCase text) |} in
  fold_left
    (fun bestMatch variation =>
       if jsstring_eqb variation query then bestMatch
       else
         let distance :=
           levenshteinDistance (toLowerCase variation) (toLowerCase text) in
         if distance <? FuzzyMatcher.distance bestMatch
         then {| variation := variation; distance := distance |}
         else bestMatch)
    variations bestMatch.

(** The object [{ distance, matchedVariation }]. *)
Record MatchInfo : Type := { md_distance : nat; matchedVariation : jsstring }.

(** [{ ...candidate, score, matchInfo }]: the candidate's own properties
    (for a candidate that is a string, its characters under their indices)
    and the two that [rankMatchesWithInfo] adds. *)
Record WithInfo (C : Type) : Type :=
  { candidate : C; score : Q; matchInfo : MatchInfo }.
Arguments candidate {C} w.
Arguments score {C} w.
Arguments matchInfo {C} w.

(** The sign of [a - b] for two scores. *)
Definition score_diff (a b : Q) : Z :=
  match Qcompare a b with Lt => (-1)%Z | Eq => 0%Z | Gt => 1%Z end.

(** What [candidate.text || candidate] (line 196) can meet: a candidate
    that is a string itself, which has no [text] property, or an object
    with a [text] property that holds a string. *)
Inductive CandidateShape : Type :=
| IsString (s : jsstring)
| HasText (text : jsstring).

(** [rankMatchesWithInfo(query, candidates)] (lines 189-216).  [shape] says
    what each candidate is.  For a string, [candidate.text] is [undefined]
    and [text] is the string itself, the empty string too.  For an object,
    [text] is its [text] property unless that is the empty string: then
    [text] is the object, and [text.toLowerCase()] in
    [findBestMatchingVariation] (line 168) throws a TypeError. *)
Section RankMatchesWithInfo.
Context {C : Type} (shape : C -> CandidateShape).

Definition textOf (candidate : C) : JsResult jsstring :=
  match shape candidate with
  | IsString s => Ok s
  | HasText text => if is_empty text then Throw TypeError else Ok text
  end.

Definition withScore (self : t) (query : jsstring) (candidate : C)
  : JsResult (WithInfo C) :=
  match textOf candidate with
  | Throw e => Throw e
  | Ok text =>
      let matchInfo := findBestMatchingVariation self query text in
      let distance := distance matchInfo in
      let score :=
        (Z.of_nat distance
           # Pos.of_nat (Nat.max (length query) (length text)))%Q in
      Ok {| candidate := candidate;
            score := score;
            matchInfo := {| md_distance := distance;
                            matchedVariation := variation matchInfo |} |}
  end.

(** [candidates.map(f)] for an [f] that may throw. *)
Fixpoint mapResult {A B} (f : A -> JsResult B) (l : list A) : JsResult (list B) :=
  match l with
  | [] => Ok []
  | x :: r =>
      match f x with
      | Throw e => Throw e
      | Ok y =>
          match mapResult f r with
          | Throw e => Throw e
          | Ok ys => Ok (y :: ys)
          end
      end
  end.

Definition rankMatchesWithInfo (self : t) (query : jsstring) (candidates : list C)
  : JsResult (list (WithInfo C)) :=
  if is_empty query || (length candidates =? 0) then Ok []
  else
    match mapResult (withScore self query) candidates with
    | Throw e => Throw e
    | Ok withScores =>
        Ok (js_sort (fun a b => score_diff (score a) (score b)) withScores)
    end.
End RankMatchesWithInfo.

(** [rankMatches(query, candidates)] (lines 224-239) on candidate strings. *)
Definition rankMatches (query : jsstring) (candidates : list jsstring)
  : list jsstring :=
  if is_empty query || (length candidates =? 0) then []
  else
    let withScores :=
      map (fun candidate => (candidate, calculateSimilarity query candidate))
          candidates in
    map fst (js_sort (fun a b => score_diff (snd a) (snd b)) withScores).

End FuzzyMatcher.

(** ** TrieNode and EnhancedTrie ([src/enhanced-trie.js]) *)

(** The object [node.children], keyed by one character.  [for (k in o)]
    lists the keys that are array indices (here the digits ['0'] to ['9'])
    first, in increasing order, and then the other keys in the order of
    their creation; the list is kept in that order. *)
Section Children.
Context {N : Type}.

Definition is_index_key (c : ascii) : bool :=
  let n := nat_of_ascii c in (48 <=? n) && (n <=? 57).

(** [children[char]] *)
Fixpoint get_child (char : ascii) (children : list (ascii * N)) : option N :=
  match children with
  | [] => None
  | (k, n) :: r => if Ascii.eqb k char then Some n else get_child char r
  end.

(** [children[char] = n] for a key that is present. *)
Fixpoint set_child (char : ascii) (n : N) (children : list (ascii * N))
  : list (ascii * N) :=
  match children with
  | [] => []
  | (k, m) :: r =>
      if Ascii.eqb k char then (k, n) :: r else (k, m) :: set_child char n r
  end.

(** [children[char] = n] for a key that is absent. *)
Fixpoint add_child (char : ascii) (n : N) (children : list (ascii * N))
  : list (ascii * N) :=
  match children with
  | [] => [(char, n)]
  | (k, m) :: r =>
      if is_index_key char
         && (negb (is_index_key k) || (nat_of_ascii char <? nat_of_ascii k))
      then (char, n) :: children
      else (k, m) :: add_child char n r
  end.
End Children.

Module TrieNode.

#[warnings="-register-all"]
Inductive t : Type :=
  Node { children : list (ascii * t);
         isEndOfWord : bool;
         fullSentence : jsstring;
         frequency : Z;
         lastUsed : Z }.

(** [new TrieNode()] (lines 5-11). *)
Definition new : t :=
  {| children := [];
     isEndOfWord := false;
     fullSentence := [];
     frequency := 0;
     lastUsed := 0 |}.

Definition with_children (node : t) (children : list (ascii * t)) : t :=
  {| children := children;
     isEndOfWord := isEndOfWord node;
     fullSentence := fullSentence node;
     frequency := frequency node;
     lastUsed := lastUsed node |}.

End TrieNode.

Module Suggestion.
(** The object [{ text, frequency, lastUsed }] that [findAllWords] pushes. *)
Record t : Type := { text : jsstring; frequency : Z; lastUsed : Z }.
End Suggestion.

Module EnhancedTrie.
Import TrieNode.

Record t : Type := { root : TrieNode.t; totalInsertions : Z }.

(** [new EnhancedTrie()] (lines 15-18). *)
Definition new : t := {| root := TrieNode.new; totalInsertions := 0 |}.

(** [processSentence(text)] (lines 79-83). *)
Definition processSentence (text : jsstring) : jsstring := toLowerCase text.

(** The walk [for (const char of key) { ...; node = node.children[char]; }]
    of [autocomplete] and [recordSelection], which stops at a missing
    child: the node the variable [node] ends on, if any. *)
Fixpoint walk (key : jsstring) (node : TrieNode.t) : option TrieNode.t :=
  match key with
  | [] => Some node
  | char :: rest =>
      match get_child char (children node) with
      | None => None
      | Some child => walk rest child
      end
  end.

(** An assignment to the fields of the node that [walk key] ends on, as a
    change of the tree that owns it. *)
Fixpoint update_at (key : jsstring) (f : TrieNode.t -> TrieNode.t)
         (node : TrieNode.t) : TrieNode.t :=
  match key with
  | [] => f node
  | char :: rest =>
      match get_child char (children node) with
      | None => node
      | Some child =>
          with_children node
            (set_child char (update_at rest f child) (children node))
      end
  end.

(** The walk of [insert] (lines 30-37), which creates the missing children,
    followed by the assignments [f] to the node it ends on. *)
Fixpoint insertPath (key : jsstring) (f : TrieNode.t -> TrieNode.t)
         (node : TrieNode.t) : TrieNode.t :=
  match key with
  | [] => f node
  | char :: rest =>
      match get_child char (children node) with
      | None =>
          with_children node
            (add_child char (insertPath rest f TrieNode.new) (children node))
      | Some child =>
          with_children node
            (set_child char (insertPath rest f child) (children node))
      end
  end.

(** Lines 39-42 of [insert]. *)
Definition markEnd (sentence : jsstring) (now : Z) (node : TrieNode.t) : TrieNode.t :=
  {| children := children node;
     isEndOfWord := true;
     fullSentence := trim sentence;
     frequency := (frequency node + 1)%Z;
     lastUsed := now |}.

(** [insert(sentence)] (lines 24-44); [now] is what [Date.now()] returns. *)
Definition insert (sentence : jsstring) (now : Z) (self : t) : t :=
  if is_empty sentence then self
  else
    let processedSentence := processSentence sentence in
    {| root := insertPath processedSentence (markEnd sentence now) (root self);
       totalInsertions := (totalInsertions self + 1)%Z |}.

(** [findAllWords(node, results = [])] (lines 90-104): the node first, then
    its children in the order of [for ... in]. *)
Fixpoint findAllWords (node : TrieNode.t) : list Suggestion.t :=
  (if isEndOfWord node
   then [ {| Suggestion.text := fullSentence node;
             Suggestion.frequency := frequency node;
             Suggestion.lastUsed := lastUsed node |} ]
   else [])
  ++ (fix children_words (l : list (ascii * TrieNode.t)) : list Suggestion.t :=
        match l with
        | [] => []
        | (_, child) :: r => findAllWords child ++ children_words r
        end) (children node).

(** The comparator of [rankSuggestions] (lines 115-122). *)
Definition compareSuggestions (a b : Suggestion.t) : Z :=
  let freqDiff := (Suggestion.frequency b - Suggestion.frequency a)%Z in
  if negb (freqDiff =? 0)%Z then freqDiff
  else (Suggestion.lastUsed b - Suggestion.lastUsed a)%Z.

(** [rankSuggestions(suggestions, limit)] (lines 112-125). *)
Definition rankSuggestions (suggestions : list Suggestion.t) (limit : nat)
  : list jsstring :=
  map Suggestion.text (firstn limit (js_sort compareSuggestions suggestions)).

(** [autocomplete(prefix, limit = 10)] (lines 52-72). *)
Definition autocomplete (prefix : jsstring) (limit : option nat) (self : t)
  : list jsstring :=
  let limit := match limit with Some l => l | None => 10 end in
  if is_empty prefix then []
  else
    let processedPrefix := processSentence prefix in
    match walk processedPrefix (root self) with
    | None => []
    | Some node =>
        let suggestions := findAllWords node in
        rankSuggestions suggestions limit
    end.

(** Lines 143-144 of [recordSelection]. *)
Definition bump (now : Z) (node : TrieNode.t) : TrieNode.t :=
  {| children := children node;
     isEndOfWord := isEndOfWord node;
     fullSentence := fullSentence node;
     frequency := (frequency node + 1)%Z;
     lastUsed := now |}.

(** [recordSelection(sentence)] (lines 131-146). *)
Definition recordSelection (sentence : jsstring) (now : Z) (self : t) : t :=
  if is_empty sentence then self
  else
    let processedSentence := processSentence sentence in
    match walk processedSentence (root self) with
    | None => self
    | Some node =>
        if isEndOfWord node && jsstring_eqb (fullSentence node) sentence
        then {| root := update_at processedSentence (bump now) (root self);
                totalInsertions := totalInsertions self |}
        else self
    end.

(** [countNodes] and [countUniqueEntries] (lines 164-181). *)
Fixpoint countNodes (node : TrieNode.t) : nat :=
  (if isEndOfWord node then 1 else 0)
  + (fix children_count (l : list (ascii * TrieNode.t)) : nat :=
       match l with
       | [] => 0
       | (_, child) :: r => countNodes child + children_count r
       end) (children node).

Definition countUniqueEntries (self : t) : nat := countNodes (root self).

(** [countTotalNodesHelper] and [countTotalNodes] (lines 197-211). *)
Fixpoint countTotalNodesHelper (node : TrieNode.t) : nat :=
  1 + (fix children_count (l : list (ascii * TrieNode.t)) : nat :=
         match l with
         | [] => 0
         | (_, child) :: r => countTotalNodesHelper child + children_count r
         end) (children node).

Definition countTotalNodes (self : t) : nat := countTotalNodesHelper (root self).

End EnhancedTrie.

(** ** FuzzyTrieAutocomplete ([src/script.js])

    The file holds the class twice.  The constructor, [insert] and
    [recordSelection] are the same in both; [autocomplete] differs:

    - lines 423-466 ([autocomplete] below) are written to attach a
      frequency to each suggestion, merge by text and sort by frequency,
      then distance; the method they ask the frequency from does not
      exist;
    - lines 22-40 ([autocompleteBySimilarity] below) merge the bare strings
      and rank them by similarity alone. *)
Module FuzzyTrieAutocomplete.

Record t : Type :=
  { fuzzyMatcher : FuzzyMatcher.t;
    trie : EnhancedTrie.t }.

(** [constructor(maxDistance = 2)] *)
Definition new (maxDistance : option nat) : t :=
  {| fuzzyMatcher := FuzzyMatcher.new maxDistance;
     trie := EnhancedTrie.new |}.

(** [this.trie.m(...)] for a method [m] that changes the trie. *)
Definition on_trie (f : EnhancedTrie.t -> EnhancedTrie.t) : M t unit :=
  modify (fun self => {| fuzzyMatcher := fuzzyMatcher self; trie := f (trie self) |}).

(** [insert(sentence)] (lines 14-20 and 415-421). *)
Definition insert (sentence : jsstring) (now : Z) : M t bool :=
  if negb (is_empty sentence) && negb (is_empty (trim sentence))
  then bind (on_trie (EnhancedTrie.insert sentence now)) (fun _ => ret true)
  else ret false.

(** [recordSelection(sentence)] (lines 42-44 and 469-471). *)
Definition recordSelection (sentence : jsstring) (now : Z) : M t unit :=
  on_trie (EnhancedTrie.recordSelection sentence now).

(** [[...new Set(allSuggestions)]] (line 36). *)
Definition unique (l : list jsstring) : list jsstring :=
  fold_left (fun seen x => FuzzyMatcher.set_add x seen) l [].

(** [autocomplete(query, limit = 10)] of lines 22-40. *)
Definition autocompleteBySimilarity (query : jsstring) (limit : option nat)
  : M t (list jsstring) :=
  let limit := match limit with Some l => l | None => 10 end in
  if is_empty query then ret []
  else
    bind (gets (fun self => FuzzyMatcher.getVariations (fuzzyMatcher self) query))
      (fun variations =>
    bind (forEach variations (fun variation =>
            gets (fun self =>
                    EnhancedTrie.autocomplete variation (Some limit) (trie self))))
      (fun perVariation =>
    let allSuggestions := concat perVariation in
    let uniqueSuggestions := unique allSuggestions in
    ret (firstn limit (FuzzyMatcher.rankMatches query uniqueSuggestions)))).

(** The object [{ text: suggestion, frequency, variation }] (line 438). *)
Record Candidate : Type :=
  { text : jsstring; frequency : Z; variation : jsstring }.

(** The [Map] [uniqueMap] (lines 445-450), in insertion order; [set] on a
    key that is present keeps the key's place. *)
Fixpoint map_get (key : jsstring) (m : list (jsstring * Candidate))
  : option Candidate :=
  match m with
  | [] => None
  | (k, v) :: r => if jsstring_eqb k key then Some v else map_get key r
  end.

Fixpoint map_set (key : jsstring) (v : Candidate) (m : list (jsstring * Candidate))
  : list (jsstring * Candidate) :=
  match m with
  | [] => [(key, v)]
  | (k, w) :: r =>
      if jsstring_eqb k key then (k, v) :: r else (k, w) :: map_set key v r
  end.

Definition mergeByText (allSuggestions : list Candidate) : list Candidate :=
  let uniqueMap :=
    fold_left
      (fun uniqueMap item =>
         match map_get (text item) uniqueMap with
         | None => map_set (text item) item uniqueMap
         | Some old =>
             if (frequency old <? frequency item)%Z
             then map_set (text item) item uniqueMap
             else uniqueMap
         end)
      allSuggestions [] in
  map snd uniqueMap.

Definition Ranked : Type := FuzzyMatcher.WithInfo Candidate.

(** The comparator of lines 457-462. *)
Definition compareRanked (a b : Ranked) : Z :=
  let fa := frequency (FuzzyMatcher.candidate a) in
  let fb := frequency (FuzzyMatcher.candidate b) in
  if negb (fb =? fa)%Z then (fb - fa)%Z
  else (Z.of_nat (FuzzyMatcher.md_distance (FuzzyMatcher.matchInfo a))
        - Z.of_nat (FuzzyMatcher.md_distance (FuzzyMatcher.matchInfo b)))%Z.

(** [this.trie.getFrequency(suggestion)] (line 436).  [EnhancedTrie]
    ([src/enhanced-trie.js], which lines 404 and 412 import and construct)
    defines no [getFrequency]: the property is [undefined], and the call
    throws a TypeError before it reads or writes anything. *)
Definition call_getFrequency (suggestion : jsstring) : M t Z := throw TypeError.

(** The body of the loop over the variations (lines 431-441), up to the
    [push]: [suggestions.map] calls its function once for each suggestion,
    so that nothing is thrown when there is none. *)
Definition suggestionsFor (limit : nat) (variation : jsstring)
  : M t (list Candidate) :=
  bind (gets (fun self =>
                EnhancedTrie.autocomplete variation (Some limit) (trie self)))
    (fun suggestions =>
  forEach suggestions (fun suggestion =>
    bind (call_getFrequency suggestion)
      (fun frequency =>
    ret {| text := suggestion; frequency := frequency; variation := variation |}))).

(** [autocomplete(query, limit = 10)] of lines 423-466. *)
Definition autocomplete (query : jsstring) (limit : option nat)
  : M t (list Ranked) :=
  let limit := match limit with Some l => l | None => 10 end in
  if is_empty query then ret []
  else
    bind (gets (fun self => FuzzyMatcher.getVariations (fuzzyMatcher self) query))
      (fun variations =>
    bind (forEach variations (suggestionsFor limit))
      (fun perVariation =>
    let allSuggestions := concat perVariation in
    let uniqueSuggestions := mergeByText allSuggestions in
    bind (fun self =>
            (FuzzyMatcher.rankMatchesWithInfo
               (fun c => FuzzyMatcher.HasText (text c))
               (fuzzyMatcher self) query uniqueSuggestions, self))
      (fun rankedSuggestions =>
    ret (firstn limit (js_sort compareRanked rankedSuggestions))))).

End FuzzyTrieAutocomplete.

(** ** The statistics of [EnhancedTrie] ([src/enhanced-trie.js], lines 152-191) *)
Module Stats.
(** The object [{ totalInsertions, uniqueEntries, memoryEstimate }]. *)
Record t : Type :=
  { totalInsertions : Z; uniqueEntries : nat; memoryEstimate : nat }.
End Stats.

(** [estimateMemoryUsage()] (lines 187-191). *)
Definition estimateMemoryUsage (self : EnhancedTrie.t) : nat :=
  let nodeSize := 200 in
  EnhancedTrie.countTotalNodes self * nodeSize.

(** [getStats()] (lines 152-158). *)
Definition getStats (self : EnhancedTrie.t) : Stats.t :=
  {| Stats.totalInsertions := EnhancedTrie.totalInsertions self;
     Stats.uniqueEntries := EnhancedTrie.countUniqueEntries self;
     Stats.memoryEstimate := estimateMemoryUsage self |}.

(** ** The first trie of [src/script.js] (lines 234-283)

    Class [Trie]: the keys drop the spaces and keep the case; a node stores
    the sentence as it was given. *)
Module Trie.

#[warnings="-register-all"]
Inductive node : Type :=
  Node { children : list (ascii * node);
         isEndOfWord : bool;
         fullSentence : jsstring }.

(** [new TrieNode()] (lines 235-239). *)
Definition newNode : node :=
  {| children := []; isEndOfWord := false; fullSentence := [] |}.

Record t : Type := { root : node }.

(** [new Trie()] (lines 243-245). *)
Definition new : t := {| root := newNode |}.

(** [char === ' '] *)
Definition is_space (char : ascii) : bool := Ascii.eqb char " "%char.

(** The loop of [insert] (lines 249-255) and lines 256-257 at its end. *)
Fixpoint insertFrom (chars sentence : jsstring) (n : node) : node :=
  match chars with
  | [] =>
      {| children := children n; isEndOfWord := true; fullSentence := sentence |}
  | char :: rest =>
      if is_space char then insertFrom rest sentence n
      else
        match get_child char (children n) with
        | None =>
            {| children :=
                 add_child char (insertFrom rest sentence newNode) (children n);
               isEndOfWord := isEndOfWord n;
               fullSentence := fullSentence n |}
        | Some child =>
            {| children :=
                 set_child char (insertFrom rest sentence child) (children n);
               isEndOfWord := isEndOfWord n;
               fullSentence := fullSentence n |}
        end
  end.

(** [insert(sentence)] (lines 247-258). *)
Definition insert (sentence : jsstring) (self : t) : t :=
  {| root := insertFrom sentence sentence (root self) |}.

(** [findWords(node)] (lines 272-281). *)
Fixpoint findWords (n : node) : list jsstring :=
  (if isEndOfWord n then [fullSentence n] else [])
  ++ (fix children_words (l : list (ascii * node)) : list jsstring :=
        match l with
        | [] => []
        | (_, child) :: r => findWords child ++ children_words r
        end) (children n).

(** The loop of [autocomplete] (lines 262-268): the node it ends on, if no
    child is missing. *)
Fixpoint walk (chars : jsstring) (n : node) : option node :=
  match chars with
  | [] => Some n
  | char :: rest =>
      if is_space char then walk rest n
      else
        match get_child char (children n) with
        | None => None
        | Some child => walk rest child
        end
  end.

(** [autocomplete(prefix)] (lines 260-270). *)
Definition autocomplete (prefix : jsstring) (self : t) : list jsstring :=
  match walk prefix (root self) with
  | None => []
  | Some n => findWords n
  end.

End Trie.

(** ** Splitting a text into sentences ([src/script.js], lines 323-325 and
    1091-1094)

    [text.match(/[^.!?]*[.!?]/g) || []]: from the end of the last match,
    the longest run of characters other than [.], [!] and [?], and the one
    of the three that follows it.  What follows the last of them matches
    nothing and is dropped; without any match the result is the empty
    list. *)
Definition is_terminator (c : ascii) : bool :=
  Ascii.eqb c "."%char || Ascii.eqb c "!"%char || Ascii.eqb c "?"%char.

(** [current] holds, last character first, what the match under way has
    consumed. *)
Fixpoint splitFrom (current text : jsstring) : list jsstring :=
  match text with
  | [] => []
  | c :: rest =>
      if is_terminator c then rev (c :: current) :: splitFrom [] rest
      else splitFrom (c :: current) rest
  end.

Definition splitText (text : jsstring) : list jsstring := splitFrom [] text.

(** ** AppManager ([src/script.js], lines 747-1611): the search *)
Module AppManager.

(** The fields of the object that the search reads. *)
Record t : Type :=
  { trie : EnhancedTrie.t;
    fuzzyMatcher : FuzzyMatcher.t }.

(** [getFuzzySuggestions(prefix)] (lines 1122-1140). *)
Definition getFuzzySuggestions (prefix : jsstring) (self : t) : list jsstring :=
  if is_empty prefix then []
  else
    let variations := FuzzyMatcher.getVariations (fuzzyMatcher self) prefix in
    let allResults :=
      flat_map (fun variation => EnhancedTrie.autocomplete variation None (trie self))
               variations in
    let uniqueResults := FuzzyTrieAutocomplete.unique allResults in
    FuzzyMatcher.rankMatches prefix uniqueResults.

(** The loop of [processFiles] over the sentences of one file (lines
    1063-1071): [insert] of every sentence that is not blank, trimmed.
    [nows] are the readings of [Date.now()], one for each call of
    [insert]. *)
Fixpoint insertSentences (sentences : list jsstring) (nows : list Z)
         (trie : EnhancedTrie.t) : EnhancedTrie.t :=
  match sentences with
  | [] => trie
  | sentence :: rest =>
      if negb (is_empty (trim sentence))
      then insertSentences rest (tl nows)
             (EnhancedTrie.insert (trim sentence) (hd 0%Z nows) trie)
      else insertSentences rest nows trie
  end.

Definition processFile (text : jsstring) (nows : list Z) (self : t) : t :=
  {| trie := insertSentences (splitText text) nows (trie self);
     fuzzyMatcher := fuzzyMatcher self |}.

End AppManager.

(** ** DataManager ([src/data-manager.js]): the serialized trie *)

(** [children[char] = n], whether the key is present or not. *)
Definition assign_child {N : Type} (char : ascii) (n : N)
           (children : list (ascii * N)) : list (ascii * N) :=
  match get_child char children with
  | Some _ => set_child char n children
  | None => add_child char n children
  end.

(** [for (const char in o) target[char] = f(o[char])], with the target object
    as it is at the start. *)
Definition assignEach {S A B : Type} (f : A -> M S B)
  : list (ascii * A) -> list (ascii * B) -> M S (list (ascii * B)) :=
  fix each (l : list (ascii * A)) (children : list (ascii * B)) :=
    match l with
    | [] => ret children
    | (char, child) :: r =>
        bind (f child) (fun n => each r (assign_child char n children))
    end.

Module Serialized.
(** The object that [serializeNode] builds: [fullSentence], [frequency] and
    [lastUsed] are present on a terminal node only. *)
#[warnings="-register-all"]
Inductive node : Type :=
  Node { children : list (ascii * node);
         isEndOfWord : bool;
         fullSentence : option jsstring;
         frequency : option Z;
         lastUsed : option Z }.

(** The object [{ root, totalInsertions }]. *)
Record t : Type := { root : node; totalInsertions : Z }.
End Serialized.

Module DataManager.

(** [src/data-manager.js] uses the identifiers [EnhancedTrie] and
    [TrieNode] (lines 312, 315 and 328) and neither declares nor imports
    them; [src/enhanced-trie.js] is a module and adds nothing to the global
    scope.  A [Scope] says which of the two the global scope binds, to the
    classes of [src/enhanced-trie.js], when a method of [DataManager] runs.
    An identifier that nothing binds throws a ReferenceError. *)
Record Scope : Type := { bindsEnhancedTrie : bool; bindsTrieNode : bool }.

(** The scope that the files of the repository set up: none of the two is
    bound. *)
Definition repository : Scope :=
  {| bindsEnhancedTrie := false; bindsTrieNode := false |}.

Section Clock.
(** The readings of [Date.now()], by their number; the state of a
    computation is the number of readings taken so far. *)
Variable clock : nat -> Z.
Variable scope : Scope.

(** [new EnhancedTrie()] and [new TrieNode()]. *)
Definition new_EnhancedTrie : M nat EnhancedTrie.t :=
  if bindsEnhancedTrie scope then ret EnhancedTrie.new else throw ReferenceError.

Definition new_TrieNode : M nat TrieNode.t :=
  if bindsTrieNode scope then ret TrieNode.new else throw ReferenceError.

Definition dateNow : M nat Z := fun n => (Ok (clock n), S n).

(** [x || d] on a number. *)
Definition orElse (x d : Z) : Z := if (x =? 0)%Z then d else x.

(** [serializeNode(node)] (lines 280-297). *)
Fixpoint serializeNode (node : TrieNode.t) : M nat Serialized.node :=
  bind (if TrieNode.isEndOfWord node
        then
          let fullSentence := TrieNode.fullSentence node in
          let frequency := orElse (TrieNode.frequency node) 1 in
          bind (if (TrieNode.lastUsed node =? 0)%Z then dateNow
                else ret (TrieNode.lastUsed node))
            (fun lastUsed =>
               ret (Some fullSentence, Some frequency, Some lastUsed))
        else ret (None, None, None))
    (fun own =>
  bind (assignEach serializeNode (TrieNode.children node) [])
    (fun children =>
  ret {| Serialized.children := children;
         Serialized.isEndOfWord := TrieNode.isEndOfWord node;
         Serialized.fullSentence := fst (fst own);
         Serialized.frequency := snd (fst own);
         Serialized.lastUsed := snd own |})).

(** [serializeTrie(trie)] (lines 275-303); [None] is [null]. *)
Definition serializeTrie (trie : option EnhancedTrie.t)
  : M nat (option Serialized.t) :=
  match trie with
  | None => ret None
  | Some trie =>
      bind (serializeNode (EnhancedTrie.root trie))
        (fun root =>
           ret (Some {| Serialized.root := root;
                        Serialized.totalInsertions :=
                          orElse (EnhancedTrie.totalInsertions trie) 0 |}))
  end.

(** [deserializeNode(serialized, node)] (lines 318-331) on a [node] that is
    a new [TrieNode], as it is at every call: the node when the function
    returns.  The loop makes a [new TrieNode()] for each child before it
    descends. *)
Fixpoint deserializeNode (serialized : Serialized.node) : M nat TrieNode.t :=
  bind (if Serialized.isEndOfWord serialized
        then
          let fullSentence :=
            match Serialized.fullSentence serialized with
            | Some s => s
            | None => []
            end in
          let frequency :=
            match Serialized.frequency serialized with
            | Some f => orElse f 1
            | None => 1%Z
            end in
          bind (match Serialized.lastUsed serialized with
                | Some l => if (l =? 0)%Z then dateNow else ret l
                | None => dateNow
                end)
            (fun lastUsed => ret (fullSentence, frequency, lastUsed))
        else ret (TrieNode.fullSentence TrieNode.new,
                  TrieNode.frequency TrieNode.new,
                  TrieNode.lastUsed TrieNode.new))
    (fun own =>
  bind (assignEach
          (fun child => bind new_TrieNode (fun _ => deserializeNode child))
          (Serialized.children serialized) [])
    (fun children =>
  ret {| TrieNode.children := children;
         TrieNode.isEndOfWord := Serialized.isEndOfWord serialized;
         TrieNode.fullSentence := fst (fst own);
         TrieNode.frequency := snd (fst own);
         TrieNode.lastUsed := snd own |})).

(** [deserializeTrie(data)] (lines 310-335). *)
Definition deserializeTrie (data : option Serialized.t) : M nat EnhancedTrie.t :=
  match data with
  | None => new_EnhancedTrie
  | Some data =>
      bind new_EnhancedTrie (fun _ =>
      bind (deserializeNode (Serialized.root data))
        (fun root =>
           ret {| EnhancedTrie.root := root;
                  EnhancedTrie.totalInsertions :=
                    orElse (Serialized.totalInsertions data) 0 |}))
  end.
End Clock.
End DataManager.

(** * The objects in the heap

    The definitions above give each method as a function of the value of
    the object.  Here the objects are what they are in JavaScript: cells of
    a heap that refer to one another, which a method can read and assign to
    through any reference it holds.  The methods of the search are written
    again as programs on the heap, statement by statement; the arrays they
    fill with [push] and sort in place are objects of the heap too.
    Strings are values, and so are the arrays that [slice], [map] and the
    spread of a [Set] build and that nothing assigns to afterwards.  The
    methods of [FuzzyMatcher] stay the functions they are above: they are
    given strings and arrays, read the arrays with [map] and return new
    ones. *)
Module Heap.

Definition ref : Type := nat.

(** A [TrieNode]: [children] maps a character to a reference. *)
Record node : Type :=
  { children : list (ascii * ref);
    isEndOfWord : bool;
    fullSentence : jsstring;
    frequency : Z;
    lastUsed : Z }.

Inductive object : Type :=
| Node (n : node)
| Trie (root : ref) (totalInsertions : Z)
| Matcher (maxDistance : nat)
| Service (fuzzyMatcher trie : ref)
| Suggestions (items : list Suggestion.t)
| Strings (items : list jsstring)
| Candidates (items : list FuzzyTrieAutocomplete.Candidate)
| Rankeds (items : list FuzzyTrieAutocomplete.Ranked).

Definition t : Type := list object.

Fixpoint update (r : ref) (o : object) (h : t) : t :=
  match h, r with
  | [], _ => []
  | _ :: h', 0 => o :: h'
  | x :: h', S r' => x :: update r' o h'
  end.

(** Reading through a reference.  The classes never hold a reference to
    nothing; the model stops there with a TypeError. *)
Definition get (r : ref) : M t object :=
  fun h =>
    match nth_error h r with
    | Some o => (Ok o, h)
    | None => (Throw TypeError, h)
    end.

(** A new object: a reference that was not in use. *)
Definition alloc (o : object) : M t ref := fun h => (Ok (length h), h ++ [o]).

(** An assignment to the object behind a reference. *)
Definition put (r : ref) (o : object) : M t unit :=
  fun h => (Ok tt, update r o h).

End Heap.

(** ** [EnhancedTrie.autocomplete] on the heap ([src/enhanced-trie.js]) *)
Module HeapTrie.

(** A reference used as a [TrieNode], as an [EnhancedTrie], as the array of
    [findAllWords].  (An object of another class is not met in a heap that
    the classes built; the model stops there with a TypeError.) *)
Definition get_node (r : Heap.ref) : M Heap.t Heap.node :=
  bind (Heap.get r)
    (fun o => match o with Heap.Node n => ret n | _ => throw TypeError end).

Definition get_root (this : Heap.ref) : M Heap.t Heap.ref :=
  bind (Heap.get this)
    (fun o => match o with Heap.Trie root _ => ret root | _ => throw TypeError end).

Definition get_suggestions (r : Heap.ref) : M Heap.t (list Suggestion.t) :=
  bind (Heap.get r)
    (fun o => match o with Heap.Suggestions items => ret items
                      | _ => throw TypeError end).

(** The loop of lines 59-65: [None] is the [return []] of line 62. *)
Fixpoint walk (chars : jsstring) (node : Heap.ref) : M Heap.t (option Heap.ref) :=
  match chars with
  | [] => ret (Some node)
  | char :: rest =>
      bind (get_node node)
        (fun n =>
           match get_child char (Heap.children n) with
           | None => ret None
           | Some child => walk rest child
           end)
  end.

(** [results.push(item)] *)
Definition push (results : Heap.ref) (item : Suggestion.t) : M Heap.t unit :=
  bind (get_suggestions results)
    (fun items => Heap.put results (Heap.Suggestions (items ++ [item]))).

(** [findAllWords(node, results)] (lines 90-104).  [depth] is the number of
    nested calls the stack has room for; a call beyond it throws a
    RangeError.  [for (const char in node.children)] goes through the keys
    the object has when the loop starts and reads [node.children[char]] in
    each round. *)
Fixpoint findAllWords (depth : nat) (node results : Heap.ref) : M Heap.t unit :=
  match depth with
  | 0 => throw RangeError
  | S depth =>
      bind (get_node node) (fun n =>
      bind (if Heap.isEndOfWord n
            then push results
                   {| Suggestion.text := Heap.fullSentence n;
                      Suggestion.frequency := Heap.frequency n;
                      Suggestion.lastUsed := Heap.lastUsed n |}
            else ret tt) (fun _ =>
      bind (forEach (map fst (Heap.children n))
              (fun char =>
                 bind (get_node node) (fun n' =>
                 match get_child char (Heap.children n') with
                 | Some child => findAllWords depth child results
                 | None => throw TypeError
                 end))) (fun _ =>
      ret tt)))
  end.

(** [rankSuggestions(suggestions, limit)] (lines 112-125): [sort] sorts the
    array in place; [slice] and [map] build new arrays. *)
Definition rankSuggestions (suggestions : Heap.ref) (limit : nat)
  : M Heap.t (list jsstring) :=
  bind (get_suggestions suggestions) (fun items =>
  bind (Heap.put suggestions
          (Heap.Suggestions (js_sort EnhancedTrie.compareSuggestions items)))
       (fun _ =>
  bind (get_suggestions suggestions) (fun sorted =>
  ret (map Suggestion.text (firstn limit sorted))))).

(** [autocomplete(prefix, limit = 10)] (lines 52-72); the array [results] of
    [findAllWords] is new in each call. *)
Definition autocomplete (depth : nat) (this : Heap.ref) (prefix : jsstring)
           (limit : option nat) : M Heap.t (list jsstring) :=
  let limit := match limit with Some l => l | None => 10 end in
  if is_empty prefix then ret []
  else
    let processedPrefix := EnhancedTrie.processSentence prefix in
    bind (get_root this) (fun root =>
    bind (walk processedPrefix root) (fun found =>
    match found with
    | None => ret []
    | Some node =>
        bind (Heap.alloc (Heap.Suggestions [])) (fun results =>
        bind (findAllWords depth node results) (fun _ =>
        rankSuggestions results limit))
    end)).

End HeapTrie.

(** ** [FuzzyTrieAutocomplete.autocomplete] on the heap ([src/script.js]) *)
Module HeapService.

(** [this.fuzzyMatcher] and [this.trie]. *)
Definition get_fuzzyMatcher (this : Heap.ref) : M Heap.t FuzzyMatcher.t :=
  bind (Heap.get this) (fun o =>
  match o with
  | Heap.Service m _ =>
      bind (Heap.get m) (fun o' =>
      match o' with
      | Heap.Matcher maxDistance =>
          ret {| FuzzyMatcher.maxDistance := maxDistance |}
      | _ => throw TypeError
      end)
  | _ => throw TypeError
  end).

Definition get_trie (this : Heap.ref) : M Heap.t Heap.ref :=
  bind (Heap.get this)
    (fun o => match o with Heap.Service _ trie => ret trie | _ => throw TypeError end).

Definition get_strings (r : Heap.ref) : M Heap.t (list jsstring) :=
  bind (Heap.get r)
    (fun o => match o with Heap.Strings items => ret items | _ => throw TypeError end).

Definition get_candidates (r : Heap.ref)
  : M Heap.t (list FuzzyTrieAutocomplete.Candidate) :=
  bind (Heap.get r)
    (fun o => match o with Heap.Candidates items => ret items
                      | _ => throw TypeError end).

(** [allSuggestions.push(...suggestions)] *)
Definition push_strings (allSuggestions : Heap.ref) (suggestions : list jsstring)
  : M Heap.t unit :=
  bind (get_strings allSuggestions)
    (fun items => Heap.put allSuggestions (Heap.Strings (items ++ suggestions))).

Definition get_rankeds (r : Heap.ref)
  : M Heap.t (list FuzzyTrieAutocomplete.Ranked) :=
  bind (Heap.get r)
    (fun o => match o with Heap.Rankeds items => ret items | _ => throw TypeError end).

Definition push_candidates (allSuggestions : Heap.ref)
           (suggestions : list FuzzyTrieAutocomplete.Candidate) : M Heap.t unit :=
  bind (get_candidates allSuggestions)
    (fun items => Heap.put allSuggestions (Heap.Candidates (items ++ suggestions))).

(** [autocomplete(query, limit = 10)] of lines 22-40. *)
Definition autocompleteBySimilarity (depth : nat) (this : Heap.ref)
           (query : jsstring) (limit : option nat) : M Heap.t (list jsstring) :=
  let limit := match limit with Some l => l | None => 10 end in
  if is_empty query then ret []
  else
    bind (get_fuzzyMatcher this) (fun fuzzyMatcher =>
    let variations := FuzzyMatcher.getVariations fuzzyMatcher query in
    bind (Heap.alloc (Heap.Strings [])) (fun allSuggestions =>
    bind (forEach variations (fun variation =>
            bind (get_trie this) (fun trie =>
            bind (HeapTrie.autocomplete depth trie variation (Some limit))
                 (fun suggestions =>
            push_strings allSuggestions suggestions)))) (fun _ =>
    bind (get_strings allSuggestions) (fun all =>
    let uniqueSuggestions := FuzzyTrieAutocomplete.unique all in
    ret (firstn limit (FuzzyMatcher.rankMatches query uniqueSuggestions)))))).

(** [this.trie.getFrequency(suggestion)] (line 436): [this.trie] is read,
    the object has no [getFrequency], and the call throws a TypeError. *)
Definition call_getFrequency (this : Heap.ref) (suggestion : jsstring)
  : M Heap.t Z :=
  bind (get_trie this) (fun _ => throw TypeError).

(** [autocomplete(query, limit = 10)] of lines 423-466; the array that
    [rankMatchesWithInfo] returns is sorted in place (line 457). *)
Definition autocomplete (depth : nat) (this : Heap.ref)
           (query : jsstring) (limit : option nat)
  : M Heap.t (list FuzzyTrieAutocomplete.Ranked) :=
  let limit := match limit with Some l => l | None => 10 end in
  if is_empty query then ret []
  else
    bind (get_fuzzyMatcher this) (fun fuzzyMatcher =>
    let variations := FuzzyMatcher.getVariations fuzzyMatcher query in
    bind (Heap.alloc (Heap.Candidates [])) (fun allSuggestions =>
    bind (forEach variations (fun variation =>
            bind (get_trie this) (fun trie =>
            bind (HeapTrie.autocomplete depth trie variation (Some limit))
                 (fun suggestions =>
            bind (forEach suggestions (fun suggestion =>
                    bind (call_getFrequency this suggestion) (fun frequency =>
                    ret {| FuzzyTrieAutocomplete.text := suggestion;
                           FuzzyTrieAutocomplete.frequency := frequency;
                           FuzzyTrieAutocomplete.variation := variation |})))
                 (fun suggestionsWithFrequency =>
            push_candidates allSuggestions suggestionsWithFrequency)))))
         (fun _ =>
    bind (get_candidates allSuggestions) (fun all =>
    let uniqueSuggestions := FuzzyTrieAutocomplete.mergeByText all in
    bind (get_fuzzyMatcher this) (fun fuzzyMatcher' =>
    bind (fun h =>
            (FuzzyMatcher.rankMatchesWithInfo
               (fun c => FuzzyMatcher.HasText (FuzzyTrieAutocomplete.text c))
               fuzzyMatcher' query uniqueSuggestions, h))
         (fun ranked =>
    bind (Heap.alloc (Heap.Rankeds ranked)) (fun rankedSuggestions =>
    bind (Heap.put rankedSuggestions
            (Heap.Rankeds (js_sort FuzzyTrieAutocomplete.compareRanked ranked)))
         (fun _ =>
    bind (get_rankeds rankedSuggestions) (fun sorted =>
    ret (firstn limit sorted)))))))))).

End HeapService.
(** * Vocabulary of the statements *)

(** ** Edit distance

    [lev a b] is the recursive definition of the Levenshtein distance, by
    the first characters.  The matrix of [levenshteinDistance] holds, at
    [dp[i][j]], the distance between the first [i] characters of [s1] and
    the first [j] of [s2]; read from the last character backwards this is
    [lev] on the reversed prefixes. *)
Fixpoint lev (a b : jsstring) : nat :=
  match a with
  | [] => length b
  | x :: a' =>
      (fix lev_a (b : jsstring) : nat :=
         match b with
         | [] => length a
         | y :: b' =>
             Nat.min (lev a' b + 1)
               (Nat.min (lev_a b' + 1)
                  (lev a' b' + if Ascii.eqb x y then 0 else 1))
         end) b
  end.

(** Row [i] of the matrix, from column 1 on, for the prefixes of [s2] that
    extend the reversed prefix [q] by the characters of [rest]. *)
Fixpoint levs (a q rest : jsstring) : list nat :=
  match rest with
  | [] => []
  | d :: r => lev a (d :: q) :: levs a (d :: q) r
  end.

Definition levrow (a s2 : jsstring) : list nat := lev a [] :: levs a [] s2.

(** ** Variations

    One edit of [addEdits] that the superset property needs: a deletion, a
    replacement by a character of the alphabet, or an insertion of one.
    (Transpositions only add more strings.) *)
Inductive edit1 : jsstring -> jsstring -> Prop :=
| edit_delete pre c post :
    edit1 (pre ++ c :: post) (pre ++ post)
| edit_replace pre c d post :
    In d FuzzyMatcher.chars -> edit1 (pre ++ c :: post) (pre ++ d :: post)
| edit_insert pre d post :
    In d FuzzyMatcher.chars -> edit1 (pre ++ post) (pre ++ d :: post).

(** [steps n a b]: at most [n] edits lead from [a] to [b]. *)
Inductive steps : nat -> jsstring -> jsstring -> Prop :=
| steps_refl n a : steps n a a
| steps_step n a m b : edit1 a m -> steps n m b -> steps (S n) a b.

(** Over the alphabet of [addEdits]. *)
Definition over_alphabet (s : jsstring) : Prop :=
  Forall (fun c => In c FuzzyMatcher.chars) s.

(** ** Tries *)

(** [all_nodes P node]: [P] holds of [node] and of every node below it. *)
#[warnings="-register-all"]
Inductive all_nodes (P : TrieNode.t -> Prop) : TrieNode.t -> Prop :=
| all_nodes_intro node :
    P node ->
    Forall (fun kc => all_nodes P (snd kc)) (TrieNode.children node) ->
    all_nodes P node.

(** The states of an [EnhancedTrie]: what [insert] and [recordSelection]
    make of the empty trie. *)
Inductive reachable : EnhancedTrie.t -> Prop :=
| reachable_new : reachable EnhancedTrie.new
| reachable_insert sentence now self :
    reachable self -> reachable (EnhancedTrie.insert sentence now self)
| reachable_recordSelection sentence now self :
    reachable self -> reachable (EnhancedTrie.recordSelection sentence now self).

(** The specification's [lookupByPrefix]: what [autocomplete] collects
    (lines 53-68) before it ranks and truncates. *)
Definition lookupByPrefix (prefix : jsstring) (self : EnhancedTrie.t)
  : list Suggestion.t :=
  if is_empty prefix then []
  else
    match EnhancedTrie.walk (EnhancedTrie.processSentence prefix)
                            (EnhancedTrie.root self) with
    | None => []
    | Some node => EnhancedTrie.findAllWords node
    end.

(** The condition of [recordSelection] (line 142) on the node the
    sentence's key leads to. *)
Definition selects (self : EnhancedTrie.t) (sentence : jsstring) : Prop :=
  exists node,
    EnhancedTrie.walk (EnhancedTrie.processSentence sentence)
                      (EnhancedTrie.root self) = Some node
    /\ TrieNode.isEndOfWord node = true
    /\ TrieNode.fullSentence node = sentence.

(** Two nodes with the same fields, the children apart. *)
Definition same_fields (n n' : TrieNode.t) : Prop :=
  TrieNode.isEndOfWord n' = TrieNode.isEndOfWord n
  /\ TrieNode.fullSentence n' = TrieNode.fullSentence n
  /\ TrieNode.frequency n' = TrieNode.frequency n
  /\ TrieNode.lastUsed n' = TrieNode.lastUsed n.

(** The invariant of a node's frequency. *)
Definition frequency_ok (n : TrieNode.t) : Prop :=
  (0 <= TrieNode.frequency n)%Z
  /\ (TrieNode.isEndOfWord n = true -> (1 <= TrieNode.frequency n)%Z).

(** The trie of one key: a path of fresh nodes that ends on [leaf]. *)
Fixpoint chain (key : jsstring) (leaf : TrieNode.t) : TrieNode.t :=
  match key with
  | [] => leaf
  | c :: rest => TrieNode.with_children TrieNode.new [(c, chain rest leaf)]
  end.


(** ** The orchestrator *)

(** Whether the trie has a suggestion for a variation: whether the array
    that [suggestions.map] (line 435) goes through is not empty. *)
Definition has_hit (self : FuzzyTrieAutocomplete.t) (limit : nat)
           (variation : jsstring) : bool :=
  match EnhancedTrie.autocomplete variation (Some limit)
          (FuzzyTrieAutocomplete.trie self) with
  | [] => false
  | _ :: _ => true
  end.

(** The edit distance that [rankMatchesWithInfo] records for a text: that
    of the nearest variation of the query. *)
Definition recordedDistance (matcher : FuzzyMatcher.t) (query text : jsstring) : nat :=
  FuzzyMatcher.distance (FuzzyMatcher.findBestMatchingVariation matcher query text).

(** An object with edit distance 1 that holds the sentence ["b"], inserted
    once, and the sentence ["a"], inserted five times. *)
Definition ranking_example : FuzzyTrieAutocomplete.t :=
  fold_left
    (fun self (entry : string * Z) =>
       snd (FuzzyTrieAutocomplete.insert (js (fst entry)) (snd entry) self))
    [("b", 1); ("a", 2); ("a", 3); ("a", 4); ("a", 5); ("a", 6)]%string%Z
    (FuzzyTrieAutocomplete.new (Some 1)).
(** ** More vocabulary *)

(** The order of [rankSuggestions]: the higher frequency first, and among
    equal frequencies the later timestamp first. *)
Definition ranks_before (a b : Suggestion.t) : Prop :=
  (Suggestion.frequency b < Suggestion.frequency a)%Z
  \/ (Suggestion.frequency a = Suggestion.frequency b
      /\ (Suggestion.lastUsed b <= Suggestion.lastUsed a)%Z).

(** One round of the loop that fills [uniqueMap] (lines 446-450). *)
Definition merge_step (uniqueMap : list (jsstring * FuzzyTrieAutocomplete.Candidate))
           (item : FuzzyTrieAutocomplete.Candidate)
  : list (jsstring * FuzzyTrieAutocomplete.Candidate) :=
  match FuzzyTrieAutocomplete.map_get (FuzzyTrieAutocomplete.text item) uniqueMap with
  | None =>
      FuzzyTrieAutocomplete.map_set (FuzzyTrieAutocomplete.text item) item uniqueMap
  | Some old =>
      if (FuzzyTrieAutocomplete.frequency old
          <? FuzzyTrieAutocomplete.frequency item)%Z
      then FuzzyTrieAutocomplete.map_set (FuzzyTrieAutocomplete.text item) item
             uniqueMap
      else uniqueMap
  end.

(** The keys of [uniqueMap] are distinct and each is the text of its
    value. *)
Definition map_ok (m : list (jsstring * FuzzyTrieAutocomplete.Candidate)) : Prop :=
  NoDup (map fst m)
  /\ Forall (fun kv => fst kv = FuzzyTrieAutocomplete.text (snd kv)) m.

(** [covered m x]: the map holds, under the text of [x], a candidate whose
    frequency is at least that of [x]. *)
Definition covered (m : list (jsstring * FuzzyTrieAutocomplete.Candidate))
           (x : FuzzyTrieAutocomplete.Candidate) : Prop :=
  exists y,
    FuzzyTrieAutocomplete.map_get (FuzzyTrieAutocomplete.text x) m = Some y
    /\ (FuzzyTrieAutocomplete.frequency x <= FuzzyTrieAutocomplete.frequency y)%Z.

(** ** Objects as association lists *)

(** [enumerated_before k c]: as keys of one object, [k] is listed before
    [c] whichever was created first ([k] is an array index, and [c] is none
    or a larger one). *)
Definition enumerated_before (k c : ascii) : bool :=
  is_index_key k && (negb (is_index_key c) || (nat_of_ascii k <? nat_of_ascii c)).

(** The keys of an object in the order of [for ... in]: no key twice, and
    none after a key that it is listed before. *)
Definition keys_in_order (keys : list ascii) : Prop :=
  NoDup keys
  /\ StronglySorted (fun k c => enumerated_before c k = false) keys.

(** A node that [serializeNode] and [deserializeNode] give back as it is:
    its children are in the order of [for ... in]; if it is terminal, its
    frequency and its timestamp are not 0; if it is not, its text, frequency
    and timestamp are those of a new node. *)
Definition storable (n : TrieNode.t) : Prop :=
  keys_in_order (map fst (TrieNode.children n))
  /\ (TrieNode.isEndOfWord n = true ->
      TrieNode.frequency n <> 0%Z /\ TrieNode.lastUsed n <> 0%Z)
  /\ (TrieNode.isEndOfWord n = false ->
      TrieNode.fullSentence n = []
      /\ TrieNode.frequency n = 0%Z /\ TrieNode.lastUsed n = 0%Z).

(** What [serializeNode] makes of a storable node. *)
Fixpoint serialized_of (n : TrieNode.t) : Serialized.node :=
  {| Serialized.children :=
       (fix each (l : list (ascii * TrieNode.t)) : list (ascii * Serialized.node) :=
          match l with
          | [] => []
          | (char, child) :: r => (char, serialized_of child) :: each r
          end) (TrieNode.children n);
     Serialized.isEndOfWord := TrieNode.isEndOfWord n;
     Serialized.fullSentence :=
       if TrieNode.isEndOfWord n then Some (TrieNode.fullSentence n) else None;
     Serialized.frequency :=
       if TrieNode.isEndOfWord n then Some (TrieNode.frequency n) else None;
     Serialized.lastUsed :=
       if TrieNode.isEndOfWord n then Some (TrieNode.lastUsed n) else None |}.

(** What every node of a reachable trie satisfies, the timestamp apart. *)
Definition well_kept (n : TrieNode.t) : Prop :=
  keys_in_order (map fst (TrieNode.children n))
  /\ (0 <= TrieNode.frequency n)%Z
  /\ (TrieNode.isEndOfWord n = true -> TrieNode.frequency n <> 0%Z)
  /\ (TrieNode.isEndOfWord n = false ->
      TrieNode.fullSentence n = []
      /\ TrieNode.frequency n = 0%Z /\ TrieNode.lastUsed n = 0%Z).

(** A terminal node has a timestamp other than 0. *)
Definition stamped (n : TrieNode.t) : Prop :=
  TrieNode.isEndOfWord n = true -> TrieNode.lastUsed n <> 0%Z.

(** The number of nodes that the walk of [insert] has to create for a key. *)
Fixpoint missing (key : jsstring) (node : TrieNode.t) : nat :=
  match key with
  | [] => 0
  | char :: rest =>
      match get_child char (TrieNode.children node) with
      | Some child => missing rest child
      | None => length key
      end
  end.

(** Whether the key of a sentence leads to a terminal node. *)
Definition stored (self : EnhancedTrie.t) (sentence : jsstring) : bool :=
  match EnhancedTrie.walk (EnhancedTrie.processSentence sentence)
                          (EnhancedTrie.root self) with
  | Some node => TrieNode.isEndOfWord node
  | None => false
  end.

(** A sentence as [splitText] cuts it: characters other than [.], [!] and
    [?], and one of these three at the end. *)
Definition sentence_shape (s : jsstring) : Prop :=
  exists body t,
    s = body ++ [t]
    /\ is_terminator t = true
    /\ forallb (fun c => negb (is_terminator c)) body = true.

(** [s] is found under one of the variations of [query]: one of the strings
    that the loop over the variations pushes to the list of all results. *)
Definition fuzzyHit (matcher : FuzzyMatcher.t) (trie : EnhancedTrie.t)
           (limit : option nat) (query s : jsstring) : Prop :=
  exists variation,
    In variation (FuzzyMatcher.getVariations matcher query)
    /\ In s (EnhancedTrie.autocomplete variation limit trie).

(** The order of the similarity scores to [query], the lowest first. *)
Definition by_similarity (query : jsstring) (x y : jsstring) : Prop :=
  (FuzzyMatcher.calculateSimilarity query x
   <= FuzzyMatcher.calculateSimilarity query y)%Q.

(** The key of a sentence in the first trie of [src/script.js]: the
    sentence without its spaces. *)
Definition compact (s : jsstring) : jsstring :=
  filter (fun c => negb (Trie.is_space c)) s.

(** [rankMatchesWithInfo("a", ["ab", ""])] on two strings, in a matcher of
    edit distance 0. *)
Definition rankMatchesWithInfo_strings_example
  : JsResult (list (FuzzyMatcher.WithInfo jsstring)) :=
  FuzzyMatcher.rankMatchesWithInfo FuzzyMatcher.IsString
    (FuzzyMatcher.new (Some 0)) (js "a") [js "ab"; []].

(** ** A value and the heap that holds it *)

(** No key twice. *)
Fixpoint distinct (keys : list ascii) : bool :=
  match keys with
  | [] => true
  | k :: rest => negb (existsb (Ascii.eqb k) rest) && distinct rest
  end.

(** [represents h node r]: behind the reference [r] the heap [h] holds a
    [TrieNode] with the fields of [node], and behind the references of its
    children, key by key, the children of [node]. *)
Fixpoint represents (h : Heap.t) (node : TrieNode.t) (r : Heap.ref) : bool :=
  match nth_error h r with
  | Some (Heap.Node n) =>
      Bool.eqb (Heap.isEndOfWord n) (TrieNode.isEndOfWord node)
      && jsstring_eqb (Heap.fullSentence n) (TrieNode.fullSentence node)
      && (Heap.frequency n =? TrieNode.frequency node)%Z
      && (Heap.lastUsed n =? TrieNode.lastUsed node)%Z
      && distinct (map fst (Heap.children n))
      && (fix each (cs : list (ascii * TrieNode.t)) (rs : list (ascii * Heap.ref))
            : bool :=
            match cs, rs with
            | [], [] => true
            | (k, c) :: cs', (k', r') :: rs' =>
                Ascii.eqb k k' && represents h c r' && each cs' rs'
            | _, _ => false
            end) (TrieNode.children node) (Heap.children n)
  | _ => false
  end.

(** The same for an [EnhancedTrie] and for a [FuzzyTrieAutocomplete]. *)
Definition trie_at (h : Heap.t) (self : EnhancedTrie.t) (this : Heap.ref) : bool :=
  match nth_error h this with
  | Some (Heap.Trie root totalInsertions) =>
      (totalInsertions =? EnhancedTrie.totalInsertions self)%Z
      && represents h (EnhancedTrie.root self) root
  | _ => false
  end.

Definition service_at (h : Heap.t) (self : FuzzyTrieAutocomplete.t)
           (this : Heap.ref) : bool :=
  match nth_error h this with
  | Some (Heap.Service m trie) =>
      match nth_error h m with
      | Some (Heap.Matcher maxDistance) =>
          (maxDistance
           =? FuzzyMatcher.maxDistance (FuzzyTrieAutocomplete.fuzzyMatcher self))
          && trie_at h (FuzzyTrieAutocomplete.trie self) trie
      | _ => false
      end
  | _ => false
  end.

(** The number of nodes on the longest path from a node down. *)
Fixpoint height (node : TrieNode.t) : nat :=
  S ((fix each (cs : list (ascii * TrieNode.t)) : nat :=
        match cs with
        | [] => 0
        | (_, c) :: cs' => Nat.max (height c) (each cs')
        end) (TrieNode.children node)).

(** Every object of the heap [h] is in [h'], behind the same reference and
    with the same fields. *)
Definition unchanged (h h' : Heap.t) : Prop :=
  forall r o, nth_error h r = Some o -> nth_error h' r = Some o.

(** A heap for the examples: an orchestrator of edit distance 1 whose trie
    holds the sentence ["a"], inserted once at time 1. *)
Definition example_heap : Heap.t :=
  [ Heap.Service 1 2;
    Heap.Matcher 1;
    Heap.Trie 3 1;
    Heap.Node {| Heap.children := [("a"%char, 4)]; Heap.isEndOfWord := false;
                 Heap.fullSentence := []; Heap.frequency := 0;
                 Heap.lastUsed := 0 |};
    Heap.Node {| Heap.children := []; Heap.isEndOfWord := true;
                 Heap.fullSentence := js "a"; Heap.frequency := 1;
                 Heap.lastUsed := 1 |} ].

Definition example_object : FuzzyTrieAutocomplete.t :=
  snd (FuzzyTrieAutocomplete.insert (js "a") 1 (FuzzyTrieAutocomplete.new (Some 1))).

(** The heap that a node and the nodes below it occupy when they are put
    after the objects of [h], the children before their parent: the
    reference of the node, and the heap. *)
Fixpoint store (node : TrieNode.t) (h : Heap.t) : Heap.ref * Heap.t :=
  let stored :=
    (fix each (cs : list (ascii * TrieNode.t)) (h : Heap.t)
       : list (ascii * Heap.ref) * Heap.t :=
       match cs with
       | [] => ([], h)
       | (k, c) :: cs' =>
           let first := store c h in
           let rest := each cs' (snd first) in
           ((k, fst first) :: fst rest, snd rest)
       end) (TrieNode.children node) h in
  (length (snd stored),
   snd stored
   ++ [Heap.Node {| Heap.children := fst stored;
                    Heap.isEndOfWord := TrieNode.isEndOfWord node;
                    Heap.fullSentence := TrieNode.fullSentence node;
                    Heap.frequency := TrieNode.frequency node;
                    Heap.lastUsed := TrieNode.lastUsed node |}]).

(** A heap that holds an orchestrator of the given value, and the reference
    of the orchestrator in it. *)
Definition heap_of (self : FuzzyTrieAutocomplete.t) : Heap.t :=
  let nodes := store (EnhancedTrie.root (FuzzyTrieAutocomplete.trie self)) [] in
  snd nodes
  ++ [ Heap.Trie (fst nodes)
         (EnhancedTrie.totalInsertions (FuzzyTrieAutocomplete.trie self));
       Heap.Matcher
         (FuzzyMatcher.maxDistance (FuzzyTrieAutocomplete.fuzzyMatcher self));
       Heap.Service (S (length (snd nodes))) (length (snd nodes)) ].

Definition this_of (self : FuzzyTrieAutocomplete.t) : Heap.ref :=
  S (S (length (snd (store (EnhancedTrie.root (FuzzyTrieAutocomplete.trie self)) [])))).

(** * Properties *)

(** ** Edit distance *)

Lemma jsstring_eqb_eq (s1 s2 : jsstring) : jsstring_eqb s1 s2 = true <-> s1 = s2.
Proof.
  revert s2; induction s1 as [|c1 r1 IH]; intros [|c2 r2]; simpl;
    try (split; congruence).
  rewrite andb_true_iff, Ascii.eqb_eq, IH. split.
  - intros [-> ->]; reflexivity.
  - intros H; injection H; auto.
Qed.

Lemma jsstring_eqb_refl (s : jsstring) : jsstring_eqb s s = true.
Proof. apply jsstring_eqb_eq; reflexivity. Qed.

Lemma jsstring_eqb_neq (s1 s2 : jsstring) : jsstring_eqb s1 s2 = false <-> s1 <> s2.
Proof.
  rewrite <- jsstring_eqb_eq. destruct (jsstring_eqb s1 s2); split; congruence.
Qed.

Lemma lev_nil_r (a : jsstring) : lev a [] = length a.
Proof. destruct a; reflexivity. Qed.

Lemma lev_cons_cons (x y : ascii) (a b : jsstring) :
  lev (x :: a) (y :: b) =
  Nat.min (lev a (y :: b) + 1)
    (Nat.min (lev (x :: a) b + 1) (lev a b + if Ascii.eqb x y then 0 else 1)).
Proof. reflexivity. Qed.

Lemma lev_refl (a : jsstring) : lev a a = 0.
Proof.
  induction a as [|x a IH]; [reflexivity|].
  rewrite lev_cons_cons, IH, Ascii.eqb_refl. lia.
Qed.

Lemma lev_sym (a b : jsstring) : lev a b = lev b a.
Proof.
  revert b; induction a as [|x a IHa]; intros b.
  - now rewrite lev_nil_r.
  - induction b as [|y b IHb]; [reflexivity|].
    rewrite !lev_cons_cons, IHb, (IHa (y :: b)), (IHa b), (Ascii.eqb_sym x y).
    lia.
Qed.

Lemma lev_le_sum (a b : jsstring) : lev a b <= length a + length b.
Proof.
  revert b; induction a as [|x a IHa]; intros b; [simpl; lia|].
  destruct b as [|y b]; [simpl; lia|].
  rewrite lev_cons_cons. specialize (IHa (y :: b)). simpl in *. lia.
Qed.

Lemma lev_ge_diff (a b : jsstring) : length b <= length a + lev a b.
Proof.
  revert b; induction a as [|x a IHa]; intros b; [simpl; lia|].
  induction b as [|y b IHb]; [simpl; lia|].
  rewrite lev_cons_cons.
  pose proof (IHa (y :: b)). pose proof (IHa b).
  destruct (Ascii.eqb x y); simpl in *; lia.
Qed.

Lemma eqb_cost_triangle (x y z : ascii) :
  (if Ascii.eqb x y then 0 else 1)
  <= (if Ascii.eqb x z then 0 else 1) + (if Ascii.eqb z y then 0 else 1).
Proof.
  destruct (Ascii.eqb x z) eqn:E1; destruct (Ascii.eqb z y) eqn:E2;
    destruct (Ascii.eqb x y) eqn:E3; try lia.
  apply Ascii.eqb_eq in E1, E2. subst. rewrite Ascii.eqb_refl in E3. discriminate.
Qed.

Lemma lev_triangle (a b c : jsstring) : lev a b <= lev a c + lev c b.
Proof.
  remember (length a + length b + length c) as n eqn:Hn.
  revert a b c Hn.
  induction n as [n IH] using lt_wf_ind. intros a b c Hn.
  destruct c as [|z c].
  { rewrite lev_nil_r. simpl. apply lev_le_sum. }
  destruct a as [|x a].
  { simpl (lev [] _). pose proof (lev_ge_diff (z :: c) b). simpl in *. lia. }
  destruct b as [|y b].
  { rewrite !lev_nil_r. pose proof (lev_ge_diff (z :: c) (x :: a)).
    rewrite (lev_sym (x :: a) (z :: c)). simpl in *. lia. }
  simpl in Hn.
  assert (H1 : forall c', length c' <= S (length c) -> lev a (y :: b) <= lev a c' + lev c' (y :: b)).
  { intros c' Hc. eapply IH; [|reflexivity]. simpl. lia. }
  assert (H2 : forall c', length c' <= S (length c) -> lev (x :: a) b <= lev (x :: a) c' + lev c' b).
  { intros c' Hc. eapply IH; [|reflexivity]. simpl. lia. }
  assert (H3 : lev (x :: a) (y :: b) <= lev (x :: a) c + lev c (y :: b)).
  { eapply IH; [|reflexivity]. simpl. lia. }
  assert (H4 : lev a b <= lev a c + lev c b).
  { eapply IH; [|reflexivity]. simpl. lia. }
  pose proof (H1 (z :: c) ltac:(simpl; lia)) as H1a.
  pose proof (H1 c ltac:(lia)) as H1b.
  pose proof (H2 (z :: c) ltac:(simpl; lia)) as H2a.
  pose proof (H2 c ltac:(lia)) as H2b.
  pose proof (eqb_cost_triangle x y z) as Hc.
  rewrite (lev_cons_cons x y a b) in *.
  rewrite (lev_cons_cons x z a c) in *.
  rewrite (lev_cons_cons z y c b) in *.
  lia.
Qed.

(** The matrix computes [lev]. *)
Lemma levs_nil (q rest : jsstring) :
  levs [] q rest = seq (S (length q)) (length rest).
Proof.
  revert q; induction rest as [|d r IH]; intros q; simpl; [reflexivity|].
  now rewrite IH.
Qed.

Lemma fillRow_levs (c : ascii) (a rest q : jsstring) :
  FuzzyMatcher.fillRow c rest (levs a q rest) (lev a q) (lev (c :: a) q)
  = levs (c :: a) q rest.
Proof.
  revert q; induction rest as [|d r IH]; intros q; [reflexivity|].
  cbn [levs FuzzyMatcher.fillRow].
  rewrite <- (lev_cons_cons c d a q). f_equal. apply IH.
Qed.

Lemma nextRow_levrow (c : ascii) (a s2 : jsstring) :
  FuzzyMatcher.nextRow s2 (levrow a s2) (S (length a)) c = levrow (c :: a) s2.
Proof.
  unfold FuzzyMatcher.nextRow, levrow.
  change (S (length a)) with (lev (c :: a) []) at 2.
  rewrite <- fillRow_levs. reflexivity.
Qed.

Lemma fillMatrix_levrow (s1 s2 a : jsstring) :
  nth (length s1)
      (levrow a s2 :: FuzzyMatcher.fillMatrix s1 s2 (S (length a)) (levrow a s2)) []
  = levrow (rev s1 ++ a) s2.
Proof.
  revert a; induction s1 as [|c s1 IH]; intros a; [reflexivity|].
  simpl rev. rewrite <- app_assoc. simpl app. rewrite <- (IH (c :: a)).
  cbn [length nth FuzzyMatcher.fillMatrix].
  rewrite nextRow_levrow. reflexivity.
Qed.

Lemma nth_levrow (a q rest : jsstring) :
  nth (length rest) (lev a q :: levs a q rest) 0 = lev a (rev rest ++ q).
Proof.
  revert q; induction rest as [|d r IH]; intros q; [reflexivity|].
  simpl rev. rewrite <- app_assoc. simpl app. rewrite <- IH. reflexivity.
Qed.

Lemma dpMatrix_lev (s1 s2 : jsstring) :
  nth (length s2) (nth (length s1) (FuzzyMatcher.dpMatrix s1 s2) []) 0
  = lev (rev s1) (rev s2).
Proof.
  unfold FuzzyMatcher.dpMatrix.
  assert (H0 : seq 0 (length s2 + 1) = levrow [] s2).
  { unfold levrow. rewrite levs_nil. simpl. now rewrite Nat.add_1_r. }
  rewrite H0.
  change 1 with (S (length (@nil ascii))).
  rewrite fillMatrix_levrow, app_nil_r.
  unfold levrow. rewrite nth_levrow, app_nil_r. reflexivity.
Qed.

(** [levenshteinDistance] is [lev] on the reversed strings: its three early
    returns agree with the matrix. *)
Lemma levenshteinDistance_lev (s1 s2 : jsstring) :
  FuzzyMatcher.levenshteinDistance s1 s2 = lev (rev s1) (rev s2).
Proof.
  unfold FuzzyMatcher.levenshteinDistance.
  destruct (jsstring_eqb s1 s2) eqn:E.
  - apply jsstring_eqb_eq in E. subst. now rewrite lev_refl.
  - destruct s1 as [|c1 r1]; simpl is_empty.
    + simpl. now rewrite length_rev.
    + destruct s2 as [|c2 r2]; simpl is_empty.
      * rewrite lev_nil_r. now rewrite length_rev.
      * apply dpMatrix_lev.
Qed.

(** C3.  [levenshteinDistance] is a metric on strings: it is symmetric, it
    is 0 on equal strings (and only there), it satisfies the triangle
    inequality; and the distance between the empty string and [b], either
    way round, is the length of [b].  The function is total, so the empty
    strings raise nothing. *)
Theorem levenshteinDistance_metric :
  (forall a b, FuzzyMatcher.levenshteinDistance a b
               = FuzzyMatcher.levenshteinDistance b a)
  /\ (forall a, FuzzyMatcher.levenshteinDistance a a = 0)
  /\ (forall a b c, FuzzyMatcher.levenshteinDistance a b
                    <= FuzzyMatcher.levenshteinDistance a c
                       + FuzzyMatcher.levenshteinDistance c b)
  /\ (forall b, FuzzyMatcher.levenshteinDistance [] b = length b)
  /\ (forall a, FuzzyMatcher.levenshteinDistance a [] = length a)
  /\ (forall a b, FuzzyMatcher.levenshteinDistance a b = 0 -> a = b).
Proof.
  repeat split; intros.
  - rewrite !levenshteinDistance_lev. apply lev_sym.
  - rewrite levenshteinDistance_lev. apply lev_refl.
  - rewrite !levenshteinDistance_lev. apply lev_triangle.
  - rewrite levenshteinDistance_lev. simpl. apply length_rev.
  - rewrite levenshteinDistance_lev, lev_nil_r. apply length_rev.
  - rewrite levenshteinDistance_lev in H.
    assert (Hz : forall x y, lev x y = 0 -> x = y).
    { clear. induction x as [|c x IH]; intros [|d y] Hl; simpl in Hl;
        try discriminate; [reflexivity|].
      change (lev (c :: x) (d :: y) = 0) in Hl. rewrite lev_cons_cons in Hl.
      destruct (Ascii.eqb c d) eqn:E.
      - apply Ascii.eqb_eq in E. subst. f_equal. apply IH. lia.
      - lia. }
    apply Hz in H. rewrite <- (rev_involutive a), H. apply rev_involutive.
Qed.

Lemma edit1_cons (c : ascii) (a b : jsstring) :
  edit1 a b -> edit1 (c :: a) (c :: b).
Proof.
  intros H; destruct H as [pre x post|pre x d post Hd|pre d post Hd].
  - apply (edit_delete (c :: pre)).
  - apply (edit_replace (c :: pre)); assumption.
  - apply (edit_insert (c :: pre)); assumption.
Qed.

Lemma edit1_rev (a b : jsstring) : edit1 a b -> edit1 (rev a) (rev b).
Proof.
  intros H; destruct H as [pre x post|pre x d post Hd|pre d post Hd];
    rewrite !rev_app_distr; simpl rev; rewrite <- ?app_assoc; simpl app.
  - apply edit_delete.
  - apply edit_replace; assumption.
  - apply edit_insert; assumption.
Qed.

Lemma steps_cons (c : ascii) (n : nat) (a b : jsstring) :
  steps n a b -> steps n (c :: a) (c :: b).
Proof.
  induction 1 as [|n a m b He _ IH]; [constructor|].
  eapply steps_step; [apply edit1_cons; eassumption|assumption].
Qed.

Lemma steps_rev (n : nat) (a b : jsstring) :
  steps n a b -> steps n (rev a) (rev b).
Proof.
  induction 1 as [|n a m b He _ IH]; [constructor|].
  eapply steps_step; [apply edit1_rev; eassumption|assumption].
Qed.

Lemma steps_le (n k : nat) (a b : jsstring) :
  steps n a b -> n <= k -> steps k a b.
Proof.
  intros H; revert k; induction H as [|n a m b He _ IH]; intros k Hk;
    [constructor|].
  destruct k as [|k]; [lia|].
  eapply steps_step; [eassumption|apply IH; lia].
Qed.

Lemma steps_nil_l (b : jsstring) : over_alphabet b -> steps (length b) [] b.
Proof.
  induction 1 as [|y b Hy _ IH]; [constructor|].
  simpl. eapply steps_step.
  - apply (edit_insert [] y []); assumption.
  - apply steps_cons; assumption.
Qed.

Lemma steps_nil_r (a : jsstring) : steps (length a) a [].
Proof.
  induction a as [|x a IH]; [constructor|].
  simpl. eapply steps_step; [apply (edit_delete [] x a)|assumption].
Qed.

(** An optimal alignment is a sequence of [lev a b] edits. *)
Lemma lev_steps (a b : jsstring) : over_alphabet b -> steps (lev a b) a b.
Proof.
  revert b; induction a as [|x a IHa]; intros b Hb.
  - apply steps_nil_l; assumption.
  - induction Hb as [|y b Hy Hb IHb].
    + rewrite lev_nil_r. apply steps_nil_r.
    + rewrite lev_cons_cons.
      assert (Hyb : over_alphabet (y :: b)) by (constructor; assumption).
      assert (D : steps (lev a (y :: b) + 1) (x :: a) (y :: b)).
      { rewrite Nat.add_1_r. eapply steps_step.
        - apply (edit_delete [] x a).
        - apply IHa; assumption. }
      assert (I : steps (lev (x :: a) b + 1) (x :: a) (y :: b)).
      { rewrite Nat.add_1_r. eapply steps_step.
        - apply (edit_insert [] y (x :: a)); assumption.
        - apply steps_cons; assumption. }
      assert (R : steps (lev a b + (if Ascii.eqb x y then 0 else 1))
                        (x :: a) (y :: b)).
      { destruct (Ascii.eqb x y) eqn:E.
        - apply Ascii.eqb_eq in E. subst. rewrite Nat.add_0_r.
          apply steps_cons, IHa; assumption.
        - rewrite Nat.add_1_r. eapply steps_step.
          + apply (edit_replace [] x y a); assumption.
          + apply steps_cons, IHa; assumption. }
      destruct (Nat.min_dec (lev a (y :: b) + 1)
                  (Nat.min (lev (x :: a) b + 1)
                     (lev a b + (if Ascii.eqb x y then 0 else 1)))) as [->| ->];
        [assumption|].
      destruct (Nat.min_dec (lev (x :: a) b + 1)
                  (lev a b + (if Ascii.eqb x y then 0 else 1))) as [->| ->];
        assumption.
Qed.

Lemma levenshteinDistance_steps (k : nat) (word target : jsstring) :
  over_alphabet target ->
  FuzzyMatcher.levenshteinDistance word target <= k ->
  steps k word target.
Proof.
  intros Ht Hk. rewrite levenshteinDistance_lev in Hk.
  rewrite <- (rev_involutive word), <- (rev_involutive target).
  apply steps_rev. eapply steps_le; [|exact Hk].
  apply lev_steps. unfold over_alphabet in *.
  apply Forall_forall. intros c Hc. apply in_rev in Hc.
  revert c Hc. apply Forall_forall. assumption.
Qed.

(** ** Sorting *)
Section SortLemmas.
Context {A : Type} (cmp : A -> A -> Z).

Lemma sort_insert_perm (x : A) (l : list A) :
  Permutation (sort_insert cmp x l) (x :: l).
Proof.
  induction l as [|y r IH]; simpl; [reflexivity|].
  destruct (cmp x y <=? 0)%Z; [reflexivity|].
  rewrite IH. apply perm_swap.
Qed.

Lemma js_sort_perm (l : list A) : Permutation (js_sort cmp l) l.
Proof.
  induction l as [|x r IH]; simpl; [reflexivity|].
  rewrite sort_insert_perm. now constructor.
Qed.


Lemma js_sort_in (l : list A) (x : A) : In x (js_sort cmp l) <-> In x l.
Proof.
  split; apply Permutation_in; [|symmetry]; apply js_sort_perm.
Qed.

(** For a comparator that is a total preorder the result is in order. *)
Hypothesis cmp_total : forall x y, (0 < cmp x y)%Z -> (cmp y x <= 0)%Z.
Hypothesis cmp_trans :
  forall x y z, (cmp x y <= 0)%Z -> (cmp y z <= 0)%Z -> (cmp x z <= 0)%Z.

Lemma sort_insert_sorted (x : A) (l : list A) :
  StronglySorted (fun a b => (cmp a b <= 0)%Z) l ->
  StronglySorted (fun a b => (cmp a b <= 0)%Z) (sort_insert cmp x l).
Proof.
  induction 1 as [|y r Hr IH Hy]; simpl.
  - constructor; constructor.
  - destruct (cmp x y <=? 0)%Z eqn:E.
    + apply Z.leb_le in E. constructor; [constructor; assumption|].
      constructor; [assumption|].
      rewrite Forall_forall in *. intros z Hz. eauto.
    + apply Z.leb_gt in E. constructor; [assumption|].
      rewrite Forall_forall in *. intros z Hz.
      apply (Permutation_in _ (sort_insert_perm x r)) in Hz.
      destruct Hz as [<-|Hz]; auto.
Qed.

Lemma js_sort_sorted (l : list A) :
  StronglySorted (fun a b => (cmp a b <= 0)%Z) (js_sort cmp l).
Proof.
  induction l as [|x r IH]; simpl; [constructor|].
  apply sort_insert_sorted. assumption.
Qed.
End SortLemmas.


(** ** Variations *)

(** The [Set] as a set. *)
Lemma in_set_add (x y : jsstring) (vs : list jsstring) :
  In y (FuzzyMatcher.set_add x vs) <-> y = x \/ In y vs.
Proof.
  unfold FuzzyMatcher.set_add.
  destruct (existsb (jsstring_eqb x) vs) eqn:E.
  - split; [auto|]. intros [->|H]; [|assumption].
    apply existsb_exists in E. destruct E as [z [Hz Hxz]].
    apply jsstring_eqb_eq in Hxz. subst. assumption.
  - rewrite in_app_iff. simpl. intuition auto.
Qed.

Lemma in_fold_set_add (l vs : list jsstring) (y : jsstring) :
  In y (fold_left (fun vs x => FuzzyMatcher.set_add x vs) l vs)
  <-> In y l \/ In y vs.
Proof.
  revert vs; induction l as [|x l IH]; intros vs; simpl; [intuition auto|].
  rewrite IH, in_set_add. intuition auto.
Qed.

Lemma in_addEdits (w y : jsstring) (vs : list jsstring) :
  In y (FuzzyMatcher.addEdits w vs) <-> In y (FuzzyMatcher.edits w) \/ In y vs.
Proof. apply in_fold_set_add. Qed.

Lemma in_fold_addEdits (ws vs : list jsstring) (y : jsstring) :
  In y (fold_left (fun vs w => FuzzyMatcher.addEdits w vs) ws vs)
  <-> (exists w, In w ws /\ In y (FuzzyMatcher.edits w)) \/ In y vs.
Proof.
  revert vs; induction ws as [|w ws IH]; intros vs; simpl.
  - split; [auto|]. intros [[w [[] _]]|H]; assumption.
  - rewrite IH, in_addEdits. split.
    + intros [[w' [Hw' Hy]]|[Hy|Hy]]; eauto.
    + intros [[w' [[->|Hw'] Hy]]|Hy]; eauto.
Qed.

Lemma in_round (vs : list jsstring) (y : jsstring) :
  In y (FuzzyMatcher.round vs)
  <-> (exists w, In w vs /\ In y (FuzzyMatcher.edits w)) \/ In y vs.
Proof. apply in_fold_addEdits. Qed.

(** Each of the three edits is one of the strings [addEdits] adds. *)
Lemma firstn_length_app (pre post : jsstring) : firstn (length pre) (pre ++ post) = pre.
Proof.
  rewrite firstn_app, Nat.sub_diag, firstn_all. simpl. apply app_nil_r.
Qed.

Lemma skipn_length_app (pre post : jsstring) : skipn (length pre) (pre ++ post) = post.
Proof.
  rewrite skipn_app, Nat.sub_diag, skipn_all. reflexivity.
Qed.

Lemma skipn_succ_length_app (pre : jsstring) (c : ascii) (post : jsstring) :
  skipn (length pre + 1) (pre ++ c :: post) = post.
Proof.
  rewrite Nat.add_1_r.
  change (S (length pre)) with (1 + length pre).
  rewrite <- skipn_skipn, skipn_length_app. reflexivity.
Qed.

Lemma edit1_in_edits (w y : jsstring) : edit1 w y -> In y (FuzzyMatcher.edits w).
Proof.
  intros H. unfold FuzzyMatcher.edits. rewrite !in_app_iff.
  destruct H as [pre c post|pre c d post Hd|pre d post Hd].
  - left. unfold FuzzyMatcher.deletions. apply in_map_iff.
    exists (length pre). split.
    + unfold slice_to, slice_from.
      now rewrite firstn_length_app, skipn_succ_length_app.
    + apply in_seq. rewrite length_app. simpl. lia.
  - right; right; left. unfold FuzzyMatcher.replacements. apply in_flat_map.
    exists (length pre). split.
    + apply in_seq. rewrite length_app. simpl. lia.
    + apply in_map_iff. exists d. split; [|assumption].
      unfold slice_to, slice_from.
      now rewrite firstn_length_app, skipn_succ_length_app.
  - right; right; right. unfold FuzzyMatcher.insertions. apply in_flat_map.
    exists (length pre). split.
    + apply in_seq. rewrite length_app. lia.
    + apply in_map_iff. exists d. split; [|assumption].
      unfold slice_to, slice_from.
      now rewrite firstn_length_app, skipn_length_app.
Qed.

(** After [k] rounds the set holds what at most [k] edits reach. *)
Lemma in_rounds (k s : nat) (vs : list jsstring) (w y : jsstring) :
  In w vs -> steps k w y ->
  In y (fold_left (fun vs (_ : nat) => FuzzyMatcher.round vs) (seq s k) vs).
Proof.
  revert s vs w; induction k as [|k IH]; intros s vs w Hw Hs.
  - inversion Hs; subst. assumption.
  - simpl. inversion Hs as [|n a m b He Hs']; subst.
    + apply (IH _ _ y); [|constructor].
      apply in_round. right. assumption.
    + apply (IH _ _ m); [|assumption].
      apply in_round. left. exists w. split; [assumption|].
      apply edit1_in_edits. assumption.
Qed.

(** A check of [over_alphabet] by computation. *)
Lemma over_alphabet_check (s : jsstring) :
  forallb (fun c => existsb (Ascii.eqb c) FuzzyMatcher.chars) s = true ->
  over_alphabet s.
Proof.
  intros H. apply Forall_forall. intros c Hc.
  rewrite forallb_forall in H. specialize (H c Hc).
  apply existsb_exists in H. destruct H as [d [Hd E]].
  apply Ascii.eqb_eq in E. subst. assumption.
Qed.

(** C2, as amended.  For a word that is not empty and every [maxDistance],
    every string over the alphabet of [addEdits] whose distance from the
    word is at most [maxDistance] is in [getVariations(word)].  For the
    empty word [getVariations] returns the set that holds the empty string
    alone, whatever [maxDistance] is. *)
Theorem getVariations_superset (self : FuzzyMatcher.t) (word target : jsstring) :
  (word <> [] ->
   over_alphabet target ->
   FuzzyMatcher.levenshteinDistance word target <= FuzzyMatcher.maxDistance self ->
   In target (FuzzyMatcher.getVariations self word))
  /\ FuzzyMatcher.getVariations self [] = [[]].
Proof.
  split; [|reflexivity].
  intros Hw Ht Hd.
  pose proof (levenshteinDistance_steps _ _ _ Ht Hd) as Hs.
  unfold FuzzyMatcher.getVariations.
  destruct word as [|c word]; [congruence|]. simpl is_empty. simpl orb.
  destruct (FuzzyMatcher.maxDistance self <=? 0) eqn:E.
  - apply Nat.leb_le in E.
    assert (E0 : FuzzyMatcher.maxDistance self = 0) by lia.
    rewrite E0 in Hs. inversion Hs; subst. left; reflexivity.
  - apply (in_rounds _ _ _ (c :: word)); [left; reflexivity|assumption].
Qed.

Lemma getVariations_superset_witness :
  js "ab" <> []
  /\ over_alphabet (js "a9b")
  /\ FuzzyMatcher.levenshteinDistance (js "ab") (js "a9b") <= 1
  /\ In (js "a9b") (FuzzyMatcher.getVariations (FuzzyMatcher.new (Some 1)) (js "ab"))
  /\ FuzzyMatcher.getVariations (FuzzyMatcher.new (Some 1)) [] = [[]].
Proof.
  assert (H1 : js "ab" <> []) by discriminate.
  assert (H2 : over_alphabet (js "a9b")) by (apply over_alphabet_check; reflexivity).
  assert (H3 : FuzzyMatcher.levenshteinDistance (js "ab") (js "a9b") <= 1)
    by (vm_compute; lia).
  split; [exact H1|]. split; [exact H2|]. split; [exact H3|].
  split.
  - exact (proj1 (getVariations_superset (FuzzyMatcher.new (Some 1)) (js "ab")
                    (js "a9b")) H1 H2 H3).
  - exact (proj2 (getVariations_superset (FuzzyMatcher.new (Some 1)) (js "ab")
                    (js "a9b"))).
Defined.

(** C2, as stated, fails on the empty word: [getVariations("")] returns the
    set that holds the empty string alone (line 21), whatever [maxDistance]
    is, and the string ["a"] is at distance 1 from it. *)
Lemma getVariations_empty_word_counterexample :
  over_alphabet (js "a")
  /\ FuzzyMatcher.levenshteinDistance [] (js "a") <= 1
  /\ ~ In (js "a") (FuzzyMatcher.getVariations (FuzzyMatcher.new (Some 1)) []).
Proof.
  split; [apply over_alphabet_check; reflexivity|].
  split; [vm_compute; lia|].
  intros [H|[]]. discriminate H.
Qed.

(** ** The trie *)

(** Induction on a node with the hypothesis on all its children. *)
Lemma TrieNode_ind (P : TrieNode.t -> Prop) :
  (forall node,
      Forall (fun kc => P (snd kc)) (TrieNode.children node) -> P node) ->
  forall node, P node.
Proof.
  intros H.
  fix IH 1. intros node. apply H.
  destruct node as [children e s f l]. simpl.
  induction children as [|[k c] r IHr]; constructor.
  - simpl. apply IH.
  - apply IHr.
Qed.

Section ChildrenLemmas.
Context {N : Type}.
Implicit Types (l : list (ascii * N)) (c k : ascii) (n m : N).

Lemma get_child_in l c n : get_child c l = Some n -> In (c, n) l.
Proof.
  induction l as [|[k m] r IH]; simpl; [discriminate|].
  destruct (Ascii.eqb k c) eqn:E.
  - apply Ascii.eqb_eq in E. intros H; injection H as ->. subst. now left.
  - intros H. right. auto.
Qed.

Lemma get_set_child_same l c n m :
  get_child c l = Some m -> get_child c (set_child c n l) = Some n.
Proof.
  induction l as [|[k m'] r IH]; simpl; [discriminate|].
  destruct (Ascii.eqb k c) eqn:E; simpl; rewrite E; auto.
Qed.

Lemma get_set_child_other l c k n :
  c <> k -> get_child k (set_child c n l) = get_child k l.
Proof.
  intros Hck. induction l as [|[k' m'] r IH]; simpl; [reflexivity|].
  destruct (Ascii.eqb k' c) eqn:E; simpl.
  - apply Ascii.eqb_eq in E. subst.
    destruct (Ascii.eqb c k) eqn:E'; [|reflexivity].
    apply Ascii.eqb_eq in E'. contradiction.
  - rewrite IH. reflexivity.
Qed.

Lemma get_add_child_same l c n :
  get_child c l = None -> get_child c (add_child c n l) = Some n.
Proof.
  induction l as [|[k m] r IH]; simpl.
  - now rewrite Ascii.eqb_refl.
  - destruct (Ascii.eqb k c) eqn:E; [discriminate|]. intros H.
    destruct (is_index_key c && _); simpl.
    + now rewrite Ascii.eqb_refl.
    + rewrite E. auto.
Qed.

Lemma get_add_child_other l c k n :
  c <> k -> get_child k (add_child c n l) = get_child k l.
Proof.
  intros Hck.
  assert (Hn : Ascii.eqb c k = false) by (apply Ascii.eqb_neq; assumption).
  induction l as [|[k' m'] r IH]; simpl.
  - now rewrite Hn.
  - destruct (is_index_key c && _); simpl.
    + now rewrite Hn.
    + now rewrite IH.
Qed.

Lemma in_set_child l c n m :
  get_child c l = Some m -> In (c, n) (set_child c n l).
Proof.
  induction l as [|[k m'] r IH]; simpl; [discriminate|].
  destruct (Ascii.eqb k c) eqn:E.
  - apply Ascii.eqb_eq in E. subst. intros _. now left.
  - intros H. right. auto.
Qed.

Lemma in_add_child l c n : In (c, n) (add_child c n l).
Proof.
  induction l as [|[k m'] r IH]; simpl; [now left|].
  destruct (is_index_key c && _); [now left|now right].
Qed.

Lemma Forall_set_child (P : ascii * N -> Prop) l c n :
  Forall P l -> (forall k, P (k, n)) -> Forall P (set_child c n l).
Proof.
  intros Hl Hn. induction Hl as [|[k m] r Hk Hr IH]; simpl; [constructor|].
  destruct (Ascii.eqb k c); constructor; auto.
Qed.

Lemma Forall_add_child (P : ascii * N -> Prop) l c n :
  Forall P l -> P (c, n) -> Forall P (add_child c n l).
Proof.
  intros Hl Hn. induction Hl as [|[k m] r Hk Hr IH]; simpl.
  - constructor; [assumption|constructor].
  - destruct (is_index_key c && _); constructor; auto.
Qed.
End ChildrenLemmas.

Import TrieNode.

Lemma findAllWords_eq (node : TrieNode.t) :
  EnhancedTrie.findAllWords node
  = (if isEndOfWord node
     then [ {| Suggestion.text := fullSentence node;
               Suggestion.frequency := frequency node;
               Suggestion.lastUsed := lastUsed node |} ]
     else [])
    ++ flat_map (fun kc => EnhancedTrie.findAllWords (snd kc)) (children node).
Proof.
  destruct node as [ch e s f l]. simpl. f_equal.
  induction ch as [|[k c] r IH]; simpl; [reflexivity|]. now rewrite IH.
Qed.

Lemma countNodes_eq (node : TrieNode.t) :
  EnhancedTrie.countNodes node
  = (if isEndOfWord node then 1 else 0)
    + list_sum (map (fun kc => EnhancedTrie.countNodes (snd kc)) (children node)).
Proof.
  destruct node as [ch e s f l]. simpl. f_equal.
  induction ch as [|[k c] r IH]; simpl; [reflexivity|]. now rewrite IH.
Qed.

Lemma countTotalNodesHelper_eq (node : TrieNode.t) :
  EnhancedTrie.countTotalNodesHelper node
  = 1 + list_sum (map (fun kc => EnhancedTrie.countTotalNodesHelper (snd kc))
                      (children node)).
Proof.
  destruct node as [ch e s f l]. simpl. f_equal.
  induction ch as [|[k c] r IH]; simpl; [reflexivity|]. now rewrite IH.
Qed.

(** [countUniqueEntries] counts what [findAllWords] collects. *)
Lemma countNodes_findAllWords (node : TrieNode.t) :
  EnhancedTrie.countNodes node = length (EnhancedTrie.findAllWords node).
Proof.
  induction node as [node IH] using TrieNode_ind.
  rewrite countNodes_eq, findAllWords_eq, length_app. f_equal.
  - destruct (isEndOfWord node); reflexivity.
  - induction IH as [|kc r Hkc _ IHr]; simpl; [reflexivity|].
    rewrite length_app, Hkc, IHr. reflexivity.
Qed.

(** The walk after [insertPath] and [update_at]. *)
Lemma walk_app (p q : jsstring) (node : TrieNode.t) :
  EnhancedTrie.walk (p ++ q) node
  = match EnhancedTrie.walk p node with
    | Some n => EnhancedTrie.walk q n
    | None => None
    end.
Proof.
  revert node; induction p as [|c p IH]; intros node; simpl; [reflexivity|].
  destruct (get_child c (children node)); [apply IH|reflexivity].
Qed.

Lemma walk_insertPath_prefix (p q : jsstring) (f : TrieNode.t -> TrieNode.t)
      (node : TrieNode.t) :
  EnhancedTrie.walk p (EnhancedTrie.insertPath (p ++ q) f node)
  = Some (EnhancedTrie.insertPath q f
            (match EnhancedTrie.walk p node with
             | Some n => n
             | None => TrieNode.new
             end)).
Proof.
  revert node; induction p as [|c p IH]; intros node; [reflexivity|].
  cbn [app EnhancedTrie.insertPath EnhancedTrie.walk].
  destruct (get_child c (children node)) as [child|] eqn:E; cbn [children with_children].
  - erewrite get_set_child_same by eassumption. apply IH.
  - rewrite get_add_child_same by assumption. rewrite IH.
    destruct p; reflexivity.
Qed.

Lemma walk_insertPath_same (key : jsstring) (f : TrieNode.t -> TrieNode.t)
      (node : TrieNode.t) :
  EnhancedTrie.walk key (EnhancedTrie.insertPath key f node)
  = Some (f (match EnhancedTrie.walk key node with
             | Some n => n
             | None => TrieNode.new
             end)).
Proof.
  pose proof (walk_insertPath_prefix key [] f node) as H.
  rewrite app_nil_r in H. exact H.
Qed.

Lemma walk_update_at_same (key : jsstring) (f : TrieNode.t -> TrieNode.t)
      (node n : TrieNode.t) :
  EnhancedTrie.walk key node = Some n ->
  EnhancedTrie.walk key (EnhancedTrie.update_at key f node) = Some (f n).
Proof.
  revert node; induction key as [|c key IH]; intros node; simpl.
  - intros H; injection H as ->; reflexivity.
  - destruct (get_child c (children node)) as [child|] eqn:E; [|discriminate].
    intros H. cbn [EnhancedTrie.walk children with_children].
    erewrite get_set_child_same by eassumption. auto.
Qed.

Lemma same_fields_refl (n : TrieNode.t) : same_fields n n.
Proof. repeat split. Qed.

Lemma same_fields_with_children (n : TrieNode.t) ch :
  same_fields n (with_children n ch).
Proof. repeat split. Qed.

(** What [insertPath key f] does to the node at another key. *)
Lemma walk_insertPath_other (f : TrieNode.t -> TrieNode.t) :
  (forall m, children (f m) = children m) ->
  forall key k node n,
    EnhancedTrie.walk k node = Some n ->
    exists n',
      EnhancedTrie.walk k (EnhancedTrie.insertPath key f node) = Some n'
      /\ ((k = key /\ n' = f n) \/ (k <> key /\ same_fields n n')).
Proof.
  intros Hf. induction key as [|c key IH]; intros k node n Hk.
  - destruct k as [|c' k]; simpl in *.
    + injection Hk as ->. eauto.
    + rewrite Hf. exists n. split; [assumption|].
      right. split; [discriminate|apply same_fields_refl].
  - destruct k as [|c' k].
    + simpl in Hk. injection Hk as ->. cbn [EnhancedTrie.insertPath].
      destruct (get_child c (children n)); eexists; (split; [reflexivity|]);
        right; (split; [discriminate|apply same_fields_with_children]).
    + cbn [EnhancedTrie.walk] in Hk.
      destruct (get_child c' (children node)) as [child'|] eqn:E'; [|discriminate].
      cbn [EnhancedTrie.insertPath].
      destruct (Ascii.eqb c c') eqn:Ecc.
      * apply Ascii.eqb_eq in Ecc. subst c'. rewrite E'.
        cbn [EnhancedTrie.walk children with_children].
        erewrite get_set_child_same by eassumption.
        destruct (IH k child' n Hk) as [n' [Hw [[Ek En]|[Hne Hs]]]];
          exists n'; (split; [assumption|]).
        -- left. split; [congruence|assumption].
        -- right. split; [congruence|assumption].
      * apply Ascii.eqb_neq in Ecc.
        exists n. split.
        -- destruct (get_child c (children node));
             cbn [EnhancedTrie.walk children with_children].
           ++ rewrite get_set_child_other by assumption. now rewrite E'.
           ++ rewrite get_add_child_other by assumption. now rewrite E'.
        -- right. split; [congruence|apply same_fields_refl].
Qed.

(** On a key whose path exists, [insertPath] creates nothing. *)
Lemma insertPath_update_at (key : jsstring) (f : TrieNode.t -> TrieNode.t)
      (node n : TrieNode.t) :
  EnhancedTrie.walk key node = Some n ->
  EnhancedTrie.insertPath key f node = EnhancedTrie.update_at key f node.
Proof.
  revert node; induction key as [|c key IH]; intros node; simpl; [reflexivity|].
  destruct (get_child c (children node)) as [child|]; [|discriminate].
  intros H. now rewrite (IH child H).
Qed.

(** A property of single nodes that [f] and the fresh node keep holds of
    all nodes after [insertPath]. *)
Lemma all_nodes_new (P : TrieNode.t -> Prop) : P TrieNode.new -> all_nodes P TrieNode.new.
Proof. intros H. constructor; [assumption|constructor]. Qed.

Lemma all_nodes_insertPath (P : TrieNode.t -> Prop) (f : TrieNode.t -> TrieNode.t) :
  (forall n, P n -> P (f n)) ->
  (forall n, children (f n) = children n) ->
  (forall n ch, P n -> P (with_children n ch)) ->
  P TrieNode.new ->
  forall key node,
    all_nodes P node -> all_nodes P (EnhancedTrie.insertPath key f node).
Proof.
  intros Hf Hch Hwc Hnew.
  induction key as [|c key IH]; intros node Hn; inversion Hn as [? HP HF]; subst.
  - simpl. constructor; [auto|]. now rewrite Hch.
  - cbn [EnhancedTrie.insertPath].
    destruct (get_child c (children node)) as [child|] eqn:E.
    + constructor; [auto|]. cbn [children with_children].
      apply Forall_set_child; [assumption|]. intros k. simpl. apply IH.
      apply get_child_in in E.
      rewrite Forall_forall in HF. apply (HF _ E).
    + constructor; [auto|]. cbn [children with_children].
      apply Forall_add_child; [assumption|]. simpl. apply IH.
      apply all_nodes_new. assumption.
Qed.

Lemma all_nodes_walk (P : TrieNode.t -> Prop) (key : jsstring)
      (node n : TrieNode.t) :
  all_nodes P node -> EnhancedTrie.walk key node = Some n -> all_nodes P n.
Proof.
  revert node; induction key as [|c key IH]; intros node Hn; simpl.
  - intros H; injection H as ->; assumption.
  - destruct (get_child c (children node)) as [child|] eqn:E; [|discriminate].
    apply IH. inversion Hn as [? _ HF]; subst.
    apply get_child_in in E. rewrite Forall_forall in HF. apply (HF _ E).
Qed.

Lemma all_nodes_here (P : TrieNode.t -> Prop) (node : TrieNode.t) :
  all_nodes P node -> P node.
Proof. now inversion 1. Qed.

Lemma all_nodes_findAllWords (P : TrieNode.t -> Prop) (node : TrieNode.t) :
  all_nodes P node ->
  forall sg, In sg (EnhancedTrie.findAllWords node) ->
  exists n, P n /\ isEndOfWord n = true
            /\ Suggestion.text sg = fullSentence n
            /\ Suggestion.frequency sg = frequency n
            /\ Suggestion.lastUsed sg = lastUsed n.
Proof.
  induction node as [node IH] using TrieNode_ind.
  intros Hn sg. rewrite findAllWords_eq, in_app_iff.
  inversion Hn as [? HP HF]; subst. intros [Hsg|Hsg].
  - destruct (isEndOfWord node) eqn:E; [|contradiction].
    destruct Hsg as [<-|[]]. exists node. repeat split; assumption.
  - apply in_flat_map in Hsg. destruct Hsg as [kc [Hkc Hsg]].
    rewrite Forall_forall in IH, HF. exact (IH kc Hkc (HF kc Hkc) sg Hsg).
Qed.

Lemma all_nodes_impl (P Q : TrieNode.t -> Prop) (node : TrieNode.t) :
  (forall n, P n -> Q n) -> all_nodes P node -> all_nodes Q node.
Proof.
  intros HPQ. induction node as [node IH] using TrieNode_ind.
  intros Hn. inversion Hn as [? HP HF]; subst.
  constructor; [auto|].
  rewrite Forall_forall in *. intros kc Hkc. apply IH; auto.
Qed.

Lemma markEnd_children s now n : children (EnhancedTrie.markEnd s now n) = children n.
Proof. reflexivity. Qed.

Lemma bump_children now n : children (EnhancedTrie.bump now n) = children n.
Proof. reflexivity. Qed.

(** [insert] and [recordSelection] as changes of the root. *)
Lemma insert_root (sentence : jsstring) (now : Z) (self : EnhancedTrie.t) :
  sentence <> [] ->
  EnhancedTrie.root (EnhancedTrie.insert sentence now self)
  = EnhancedTrie.insertPath (EnhancedTrie.processSentence sentence)
      (EnhancedTrie.markEnd sentence now) (EnhancedTrie.root self).
Proof.
  intros H. unfold EnhancedTrie.insert.
  destruct sentence; [congruence|reflexivity].
Qed.

Lemma recordSelection_cases (sentence : jsstring) (now : Z) (self : EnhancedTrie.t) :
  EnhancedTrie.recordSelection sentence now self = self
  \/ (sentence <> []
      /\ selects self sentence
      /\ EnhancedTrie.recordSelection sentence now self
         = {| EnhancedTrie.root :=
                EnhancedTrie.insertPath (EnhancedTrie.processSentence sentence)
                  (EnhancedTrie.bump now) (EnhancedTrie.root self);
              EnhancedTrie.totalInsertions := EnhancedTrie.totalInsertions self |}).
Proof.
  unfold EnhancedTrie.recordSelection.
  destruct sentence as [|c s]; [now left|]. simpl is_empty. cbv iota.
  destruct (EnhancedTrie.walk _ _) as [node|] eqn:W; [|now left].
  destruct (isEndOfWord node) eqn:E; [|now left].
  destruct (jsstring_eqb (fullSentence node) (c :: s)) eqn:T; [|now left].
  right. split; [discriminate|]. split.
  - exists node. apply jsstring_eqb_eq in T. auto.
  - simpl andb. cbv iota. f_equal. symmetry.
    eapply insertPath_update_at. eassumption.
Qed.

Lemma frequency_ok_insertPath (f : TrieNode.t -> TrieNode.t) key node :
  (forall n, frequency_ok n -> frequency_ok (f n)) ->
  (forall n, children (f n) = children n) ->
  all_nodes frequency_ok node ->
  all_nodes frequency_ok (EnhancedTrie.insertPath key f node).
Proof.
  intros Hf Hch. apply all_nodes_insertPath; try assumption.
  - intros n ch H. exact H.
  - split; simpl; [lia|discriminate].
Qed.

Lemma frequency_ok_markEnd s now n :
  frequency_ok n -> frequency_ok (EnhancedTrie.markEnd s now n).
Proof. intros [H0 H1]. split; simpl; intros; lia. Qed.

Lemma frequency_ok_bump now n :
  frequency_ok n -> frequency_ok (EnhancedTrie.bump now n).
Proof.
  intros [H0 H1]. split; simpl; [lia|]. intros H. specialize (H1 H). lia.
Qed.

Lemma reachable_frequency_ok (self : EnhancedTrie.t) :
  reachable self -> all_nodes frequency_ok (EnhancedTrie.root self).
Proof.
  induction 1 as [|sentence now self _ IH|sentence now self _ IH].
  - apply all_nodes_new. split; simpl; [lia|discriminate].
  - destruct sentence as [|c s]; [exact IH|].
    rewrite insert_root by discriminate.
    apply frequency_ok_insertPath;
      [apply frequency_ok_markEnd|apply markEnd_children|assumption].
  - destruct (recordSelection_cases sentence now self) as [->|[_ [_ ->]]];
      [assumption|].
    cbn [EnhancedTrie.root].
    apply frequency_ok_insertPath;
      [apply frequency_ok_bump|apply bump_children|assumption].
Qed.

(** Neither operation lowers the frequency of the node at any key. *)
Lemma insertPath_frequency_le (f : TrieNode.t -> TrieNode.t) key k node n :
  (forall m, children (f m) = children m) ->
  (forall m, (frequency m <= frequency (f m))%Z) ->
  EnhancedTrie.walk k node = Some n ->
  exists n', EnhancedTrie.walk k (EnhancedTrie.insertPath key f node) = Some n'
             /\ (frequency n <= frequency n')%Z.
Proof.
  intros Hch Hle Hk.
  destruct (walk_insertPath_other f Hch key k node n Hk)
    as [n' [Hw [[_ En]|[_ [_ [_ [Hfr _]]]]]]]; exists n'; (split; [assumption|]).
  - rewrite En. apply Hle.
  - rewrite Hfr. lia.
Qed.

Lemma insert_frequency_le sentence now self k n :
  EnhancedTrie.walk k (EnhancedTrie.root self) = Some n ->
  exists n',
    EnhancedTrie.walk k (EnhancedTrie.root (EnhancedTrie.insert sentence now self))
    = Some n'
    /\ (frequency n <= frequency n')%Z.
Proof.
  intros Hk. destruct sentence as [|c s].
  - exists n. split; [assumption|lia].
  - rewrite insert_root by discriminate.
    apply insertPath_frequency_le; [reflexivity| |assumption].
    intros m. simpl. lia.
Qed.

Lemma recordSelection_frequency_le sentence now self k n :
  EnhancedTrie.walk k (EnhancedTrie.root self) = Some n ->
  exists n',
    EnhancedTrie.walk k
      (EnhancedTrie.root (EnhancedTrie.recordSelection sentence now self))
    = Some n'
    /\ (frequency n <= frequency n')%Z.
Proof.
  intros Hk.
  destruct (recordSelection_cases sentence now self) as [->|[_ [_ ->]]].
  - exists n. split; [assumption|lia].
  - cbn [EnhancedTrie.root].
    apply insertPath_frequency_le; [reflexivity| |assumption].
    intros m. simpl. lia.
Qed.

(** C9.  In every state reachable from the empty trie by [insert] and
    [recordSelection], every terminal node has a frequency of at least 1;
    and neither operation lowers the frequency of any node: the node at
    each key is still there afterwards, with a frequency at least as high. *)
Theorem terminal_frequency_positive_and_monotone (self : EnhancedTrie.t) :
  reachable self ->
  all_nodes (fun n => isEndOfWord n = true -> (1 <= frequency n)%Z)
            (EnhancedTrie.root self)
  /\ (forall sentence now k n,
         EnhancedTrie.walk k (EnhancedTrie.root self) = Some n ->
         (exists n',
             EnhancedTrie.walk k
               (EnhancedTrie.root (EnhancedTrie.insert sentence now self))
             = Some n'
             /\ (frequency n <= frequency n')%Z)
         /\ (exists n',
                EnhancedTrie.walk k
                  (EnhancedTrie.root
                     (EnhancedTrie.recordSelection sentence now self))
                = Some n'
                /\ (frequency n <= frequency n')%Z)).
Proof.
  intros Hr. split.
  - eapply all_nodes_impl; [|apply reachable_frequency_ok; assumption].
    intros n [_ H]. exact H.
  - intros sentence now k n Hk. split.
    + apply insert_frequency_le; assumption.
    + apply recordSelection_frequency_le; assumption.
Qed.

Lemma terminal_frequency_positive_and_monotone_witness :
  reachable (EnhancedTrie.recordSelection (js "Hi there") 7
               (EnhancedTrie.insert (js "Hi there") 5 EnhancedTrie.new))
  /\ all_nodes (fun n => isEndOfWord n = true -> (1 <= frequency n)%Z)
       (EnhancedTrie.root
          (EnhancedTrie.recordSelection (js "Hi there") 7
             (EnhancedTrie.insert (js "Hi there") 5 EnhancedTrie.new))).
Proof.
  assert (H : reachable (EnhancedTrie.recordSelection (js "Hi there") 7
                           (EnhancedTrie.insert (js "Hi there") 5 EnhancedTrie.new)))
    by (repeat constructor).
  split; [exact H|].
  exact (proj1 (terminal_frequency_positive_and_monotone _ H)).
Defined.

(** The root is never terminal: the key of a sentence that [insert] accepts
    is not empty. *)
Lemma processSentence_nil (s : jsstring) :
  EnhancedTrie.processSentence s = [] <-> s = [].
Proof. destruct s; simpl; split; congruence. Qed.

Lemma insertPath_root_fields (f : TrieNode.t -> TrieNode.t) key node :
  key <> [] -> same_fields node (EnhancedTrie.insertPath key f node).
Proof.
  destruct key as [|c key]; [congruence|]. intros _. simpl.
  destruct (get_child c (children node)); apply same_fields_with_children.
Qed.

Lemma reachable_root_not_terminal (self : EnhancedTrie.t) :
  reachable self -> isEndOfWord (EnhancedTrie.root self) = false.
Proof.
  induction 1 as [|sentence now self _ IH|sentence now self _ IH].
  - reflexivity.
  - destruct sentence as [|c s]; [exact IH|].
    rewrite insert_root by discriminate.
    destruct (insertPath_root_fields (EnhancedTrie.markEnd (c :: s) now)
                (EnhancedTrie.processSentence (c :: s)) (EnhancedTrie.root self))
      as [-> _]; [discriminate|assumption].
  - destruct (recordSelection_cases sentence now self) as [->|[Hne [_ ->]]];
      [assumption|].
    cbn [EnhancedTrie.root].
    destruct (insertPath_root_fields (EnhancedTrie.bump now)
                (EnhancedTrie.processSentence sentence) (EnhancedTrie.root self))
      as [-> _]; [|assumption].
    now rewrite processSentence_nil.
Qed.



(** Inserting into the empty trie, and inserting the same key again. *)
Lemma insertPath_new (key : jsstring) (f : TrieNode.t -> TrieNode.t) :
  EnhancedTrie.insertPath key f TrieNode.new = chain key (f TrieNode.new).
Proof.
  induction key as [|c key IH]; [reflexivity|]. simpl. now rewrite IH.
Qed.

Lemma insertPath_chain (key : jsstring) (g : TrieNode.t -> TrieNode.t)
      (leaf : TrieNode.t) :
  EnhancedTrie.insertPath key g (chain key leaf) = chain key (g leaf).
Proof.
  induction key as [|c key IH]; [reflexivity|].
  cbn [chain EnhancedTrie.insertPath children with_children get_child].
  rewrite Ascii.eqb_refl.
  cbn [set_child children with_children]. rewrite Ascii.eqb_refl, IH. reflexivity.
Qed.

Lemma findAllWords_chain (key : jsstring) (leaf : TrieNode.t) :
  EnhancedTrie.findAllWords (chain key leaf) = EnhancedTrie.findAllWords leaf.
Proof.
  induction key as [|c key IH]; [reflexivity|].
  rewrite findAllWords_eq. simpl. rewrite IH. apply app_nil_r.
Qed.

Lemma countTotalNodesHelper_chain (key : jsstring) (leaf : TrieNode.t) :
  EnhancedTrie.countTotalNodesHelper (chain key leaf)
  = length key + EnhancedTrie.countTotalNodesHelper leaf.
Proof.
  induction key as [|c key IH]; [reflexivity|].
  rewrite countTotalNodesHelper_eq. simpl. rewrite IH. lia.
Qed.

(** A count of nodes does not change under an assignment to the fields of a
    node that the count does not look at. *)
Section Measure.
Variable mu own : TrieNode.t -> nat.
Hypothesis mu_eq :
  forall n, mu n = own n + list_sum (map (fun kc => mu (snd kc)) (children n)).
Hypothesis own_with_children : forall n ch, own (with_children n ch) = own n.

Lemma list_sum_set_child (c : ascii) (n m : TrieNode.t) l :
  get_child c l = Some m -> mu n = mu m ->
  list_sum (map (fun kc => mu (snd kc)) (set_child c n l))
  = list_sum (map (fun kc => mu (snd kc)) l).
Proof.
  intros Hg Hmu. induction l as [|[k x] r IH]; simpl in *; [discriminate|].
  destruct (Ascii.eqb k c).
  - injection Hg as ->. simpl. now rewrite Hmu.
  - simpl. now rewrite IH.
Qed.

Lemma measure_insertPath_present (f : TrieNode.t -> TrieNode.t) key node n :
  (forall m, children (f m) = children m) ->
  EnhancedTrie.walk key node = Some n ->
  own (f n) = own n ->
  mu (EnhancedTrie.insertPath key f node) = mu node.
Proof.
  intros Hch. revert node; induction key as [|c key IH]; intros node Hw Hown.
  - simpl in *. injection Hw as ->. rewrite (mu_eq (f n)), (mu_eq n), Hch, Hown.
    reflexivity.
  - simpl in *.
    destruct (get_child c (children node)) as [child|] eqn:E; [|discriminate].
    rewrite (mu_eq (with_children _ _)), (mu_eq node), own_with_children.
    cbn [children with_children]. f_equal.
    eapply list_sum_set_child; [eassumption|]. apply IH; assumption.
Qed.
End Measure.

(** C5.  Inserting a sentence (one that is not empty) twice into the empty
    trie leaves exactly one stored entry, with the trimmed sentence as its
    text, frequency 2 and the time of the second insertion; the second
    insertion creates no node, in the empty trie and in any other, and
    changes the number of entries of no trie; the counter of insertions
    counts both. *)
Theorem insert_twice (sentence : jsstring) (now1 now2 : Z) :
  sentence <> [] ->
  let once := EnhancedTrie.insert sentence now1 EnhancedTrie.new in
  let twice := EnhancedTrie.insert sentence now2 once in
  EnhancedTrie.findAllWords (EnhancedTrie.root twice)
  = [ {| Suggestion.text := trim sentence;
         Suggestion.frequency := 2;
         Suggestion.lastUsed := now2 |} ]
  /\ EnhancedTrie.countUniqueEntries twice = 1
  /\ EnhancedTrie.countTotalNodes twice = EnhancedTrie.countTotalNodes once
  /\ EnhancedTrie.countTotalNodes once = 1 + length sentence
  /\ EnhancedTrie.totalInsertions twice = 2%Z
  /\ (forall self,
         let once := EnhancedTrie.insert sentence now1 self in
         let twice := EnhancedTrie.insert sentence now2 once in
         EnhancedTrie.countTotalNodes twice = EnhancedTrie.countTotalNodes once
         /\ EnhancedTrie.countUniqueEntries twice
            = EnhancedTrie.countUniqueEntries once).
Proof.
  intros Hne once twice.
  assert (Hroot : EnhancedTrie.root twice
                  = chain (EnhancedTrie.processSentence sentence)
                      (EnhancedTrie.markEnd sentence now2
                         (EnhancedTrie.markEnd sentence now1 TrieNode.new))).
  { subst twice once. rewrite !insert_root by assumption.
    cbn [EnhancedTrie.root EnhancedTrie.new].
    now rewrite insertPath_new, insertPath_chain. }
  assert (Hwords : EnhancedTrie.findAllWords (EnhancedTrie.root twice)
                   = [ {| Suggestion.text := trim sentence;
                          Suggestion.frequency := 2;
                          Suggestion.lastUsed := now2 |} ]).
  { rewrite Hroot, findAllWords_chain. reflexivity. }
  split; [exact Hwords|].
  split.
  { unfold EnhancedTrie.countUniqueEntries.
    now rewrite countNodes_findAllWords, Hwords. }
  assert (Honce : EnhancedTrie.countTotalNodes once = 1 + length sentence).
  { subst once. unfold EnhancedTrie.countTotalNodes.
    rewrite insert_root by assumption. cbn [EnhancedTrie.root EnhancedTrie.new].
    rewrite insertPath_new, countTotalNodesHelper_chain.
    unfold EnhancedTrie.processSentence, toLowerCase. rewrite length_map.
    simpl. lia. }
  split.
  { rewrite Honce. unfold EnhancedTrie.countTotalNodes.
    rewrite Hroot, countTotalNodesHelper_chain.
    unfold EnhancedTrie.processSentence, toLowerCase. rewrite length_map.
    simpl. lia. }
  split; [exact Honce|].
  split.
  { subst twice once. unfold EnhancedTrie.insert.
    destruct sentence; [congruence|reflexivity]. }
  intros self once' twice'. subst once' twice'.
  unfold EnhancedTrie.countTotalNodes, EnhancedTrie.countUniqueEntries.
  rewrite (insert_root sentence now2) by assumption.
  pose proof (walk_insertPath_same (EnhancedTrie.processSentence sentence)
                (EnhancedTrie.markEnd sentence now1) (EnhancedTrie.root self)) as Hw.
  rewrite <- (insert_root sentence now1 self Hne) in Hw.
  split.
  - eapply (measure_insertPath_present EnhancedTrie.countTotalNodesHelper
              (fun _ => 1)); try eassumption; try reflexivity.
    apply countTotalNodesHelper_eq.
  - eapply (measure_insertPath_present EnhancedTrie.countNodes
              (fun n => if isEndOfWord n then 1 else 0));
      try eassumption; try reflexivity.
    apply countNodes_eq.
Qed.

Lemma insert_twice_witness :
  js "The quick brown fox." <> []
  /\ EnhancedTrie.countUniqueEntries
       (EnhancedTrie.insert (js "The quick brown fox.") 2
          (EnhancedTrie.insert (js "The quick brown fox.") 1 EnhancedTrie.new))
     = 1.
Proof.
  assert (H : js "The quick brown fox." <> []) by discriminate.
  split; [exact H|].
  exact (proj1 (proj2 (insert_twice (js "The quick brown fox.") 1 2 H))).
Defined.

(** ** Lookup after insertion *)

Lemma autocomplete_lookupByPrefix (prefix : jsstring) (limit : option nat)
      (self : EnhancedTrie.t) :
  EnhancedTrie.autocomplete prefix limit self
  = EnhancedTrie.rankSuggestions (lookupByPrefix prefix self)
      (match limit with Some l => l | None => 10 end).
Proof.
  unfold EnhancedTrie.autocomplete, lookupByPrefix, EnhancedTrie.rankSuggestions.
  destruct (is_empty prefix); [now rewrite firstn_nil|].
  destruct (EnhancedTrie.walk _ _); [reflexivity|now rewrite firstn_nil].
Qed.

Lemma rankSuggestions_length (suggestions : list Suggestion.t) (limit : nat) :
  length (EnhancedTrie.rankSuggestions suggestions limit) <= limit.
Proof.
  unfold EnhancedTrie.rankSuggestions. rewrite length_map, length_firstn. lia.
Qed.




Lemma toLowerCase_is_empty (s : jsstring) : is_empty (toLowerCase s) = is_empty s.
Proof. destruct s; reflexivity. Qed.



Lemma in_check (x : jsstring) (l : list jsstring) :
  existsb (jsstring_eqb x) l = true -> In x l.
Proof.
  intros H. apply existsb_exists in H. destruct H as [y [Hy E]].
  apply jsstring_eqb_eq in E. now subst.
Qed.



(** ** The orchestrator *)

(** A loop whose body only reads the state. *)
Lemma forEach_reads {S A B : Type} (body : A -> M S B) (g : A -> S -> B)
      (l : list A) (s : S) :
  (forall x, body x s = (Ok (g x s), s)) ->
  forEach l body s = (Ok (map (fun x => g x s) l), s).
Proof.
  intros H. induction l as [|x r IH]; [reflexivity|].
  simpl. unfold bind at 1. rewrite H. unfold bind at 1. rewrite IH. reflexivity.
Qed.

(** A loop whose body throws in its first round. *)
Lemma forEach_throws {S A B : Type} (body : A -> M S B) (e : JsError)
      (x : A) (l : list A) (s : S) :
  body x s = (Throw e, s) -> forEach (x :: l) body s = (Throw e, s).
Proof. intros H. simpl. unfold bind at 1. now rewrite H. Qed.

Lemma suggestionsFor_run (limit : nat) (variation : jsstring)
      (self : FuzzyTrieAutocomplete.t) :
  FuzzyTrieAutocomplete.suggestionsFor limit variation self
  = (if has_hit self limit variation then Throw TypeError else Ok [], self).
Proof.
  unfold FuzzyTrieAutocomplete.suggestionsFor, has_hit, bind at 1, gets at 1.
  destruct (EnhancedTrie.autocomplete variation (Some limit)
              (FuzzyTrieAutocomplete.trie self)) as [|suggestion rest];
    [reflexivity|].
  apply forEach_throws. reflexivity.
Qed.

Lemma forEach_suggestionsFor (limit : nat) (variations : list jsstring)
      (self : FuzzyTrieAutocomplete.t) :
  forEach variations (FuzzyTrieAutocomplete.suggestionsFor limit) self
  = (if existsb (has_hit self limit) variations then Throw TypeError
     else Ok (map (fun _ => []) variations), self).
Proof.
  induction variations as [|v vs IH]; [reflexivity|].
  cbn [forEach existsb map]. unfold bind at 1. rewrite suggestionsFor_run.
  destruct (has_hit self limit v); [reflexivity|]. cbn [orb].
  unfold bind at 1. rewrite IH.
  destruct (existsb (has_hit self limit) vs); reflexivity.
Qed.

Lemma concat_nils {A B : Type} (l : list A) :
  concat (map (fun _ => @nil B) l) = [].
Proof. induction l; simpl; auto. Qed.

(** What [autocomplete] of lines 423-466 comes to. *)
Lemma autocomplete_run (query : jsstring) (limit : option nat)
      (self : FuzzyTrieAutocomplete.t) :
  query <> [] ->
  FuzzyTrieAutocomplete.autocomplete query limit self
  = (if existsb (has_hit self (match limit with Some l => l | None => 10 end))
                (FuzzyMatcher.getVariations
                   (FuzzyTrieAutocomplete.fuzzyMatcher self) query)
     then Throw TypeError else Ok [], self).
Proof.
  intros Hq. unfold FuzzyTrieAutocomplete.autocomplete.
  destruct query as [|c q]; [congruence|]. cbn [is_empty].
  unfold bind at 1, gets at 1.
  unfold bind at 1. cbv beta. rewrite forEach_suggestionsFor.
  destruct (existsb _ _); [reflexivity|].
  rewrite concat_nils. unfold bind, ret. cbn. now rewrite firstn_nil.
Qed.

Lemma autocompleteBySimilarity_run (query : jsstring) (limit : option nat)
      (self : FuzzyTrieAutocomplete.t) :
  query <> [] ->
  FuzzyTrieAutocomplete.autocompleteBySimilarity query limit self
  = (Ok (firstn (match limit with Some l => l | None => 10 end)
           (FuzzyMatcher.rankMatches query
              (FuzzyTrieAutocomplete.unique
                 (flat_map
                    (fun variation =>
                       EnhancedTrie.autocomplete variation
                         (Some (match limit with Some l => l | None => 10 end))
                         (FuzzyTrieAutocomplete.trie self))
                    (FuzzyMatcher.getVariations
                       (FuzzyTrieAutocomplete.fuzzyMatcher self) query))))),
     self).
Proof.
  intros Hq. unfold FuzzyTrieAutocomplete.autocompleteBySimilarity.
  destruct query as [|c q]; [congruence|]. cbn [is_empty].
  unfold bind at 1, gets at 1.
  unfold bind at 1. cbv beta.
  rewrite (forEach_reads _ (fun variation self =>
                              EnhancedTrie.autocomplete variation
                                (Some (match limit with Some l => l | None => 10 end))
                                (FuzzyTrieAutocomplete.trie self)))
    by reflexivity.
  rewrite <- flat_map_concat_map. reflexivity.
Qed.

(** [trim] leaves nothing exactly of the strings of blanks. *)
Lemma trimStart_nil_iff (s : jsstring) : trimStart s = [] <-> forallb is_ws s = true.
Proof.
  induction s as [|c r IH]; simpl; [tauto|].
  destruct (is_ws c); simpl; [exact IH|split; discriminate].
Qed.

Lemma trimStart_head (s : jsstring) :
  match trimStart s with
  | [] => forallb is_ws s = true
  | c :: _ => is_ws c = false
  end.
Proof.
  induction s as [|c r IH]; simpl; [reflexivity|].
  destruct (is_ws c) eqn:E; simpl; assumption.
Qed.

Lemma trim_nil_iff (s : jsstring) : trim s = [] <-> forallb is_ws s = true.
Proof.
  unfold trim, trimEnd. split.
  - intros H. apply (f_equal (@rev ascii)) in H. rewrite rev_involutive in H.
    simpl in H. apply trimStart_nil_iff in H.
    pose proof (trimStart_head s) as Hh.
    destruct (trimStart s) as [|c r]; [assumption|].
    rewrite forallb_forall in H. specialize (H c).
    rewrite H in Hh; [discriminate|]. apply -> in_rev. now left.
  - intros H. apply trimStart_nil_iff in H. rewrite H. reflexivity.
Qed.




(** C8.  For every state, query and limit, the list that [autocomplete]
    returns is no longer than the limit: the [autocomplete] of lines 22-40,
    which always returns, and the trie's own [autocomplete].  The
    [autocomplete] of lines 423-466 throws a TypeError or returns the empty
    list.  A limit that is not given is 10. *)
Theorem autocomplete_length_le_limit
        (self : FuzzyTrieAutocomplete.t) (query : jsstring) (limit : nat) :
  (exists returned,
      FuzzyTrieAutocomplete.autocompleteBySimilarity query (Some limit) self
      = (Ok returned, self)
      /\ length returned <= limit)
  /\ (forall prefix,
         length (EnhancedTrie.autocomplete prefix (Some limit)
                   (FuzzyTrieAutocomplete.trie self)) <= limit)
  /\ (fst (FuzzyTrieAutocomplete.autocomplete query (Some limit) self)
      = Throw TypeError
      \/ fst (FuzzyTrieAutocomplete.autocomplete query (Some limit) self) = Ok [])
  /\ FuzzyTrieAutocomplete.autocompleteBySimilarity query None self
     = FuzzyTrieAutocomplete.autocompleteBySimilarity query (Some 10) self
  /\ (forall prefix,
         EnhancedTrie.autocomplete prefix None (FuzzyTrieAutocomplete.trie self)
         = EnhancedTrie.autocomplete prefix (Some 10)
             (FuzzyTrieAutocomplete.trie self))
  /\ FuzzyTrieAutocomplete.autocomplete query None self
     = FuzzyTrieAutocomplete.autocomplete query (Some 10) self.
Proof.
  split; [|split; [|split; [|split; [|split]]]].
  - destruct query as [|c q].
    + exists []. split; [reflexivity|simpl; lia].
    + rewrite autocompleteBySimilarity_run by discriminate.
      eexists. split; [reflexivity|apply firstn_le_length].
  - intros prefix. rewrite autocomplete_lookupByPrefix.
    apply rankSuggestions_length.
  - destruct query as [|c q]; [right; reflexivity|].
    rewrite autocomplete_run by discriminate. cbn [fst].
    destruct (existsb _ _); [left|right]; reflexivity.
  - reflexivity.
  - reflexivity.
  - reflexivity.
Qed.

(** C1.  The ranking by frequency is not reached.  On [ranking_example]
    the sentence ["a"] has frequency 5 and the sentence ["b"] frequency 1;
    for the query ["ab"] both are one edit away, both are found by one
    variation only, itself one edit from the query, both get the same
    similarity score and the same recorded distance.  The [autocomplete] of
    lines 423-466, which would sort by frequency, throws a TypeError at its
    first hit; the [autocomplete] of lines 22-40 returns ["b"] before
    ["a"]. *)
Theorem autocomplete_ranking_defect :
  EnhancedTrie.findAllWords
    (EnhancedTrie.root (FuzzyTrieAutocomplete.trie ranking_example))
  = [ {| Suggestion.text := js "b"; Suggestion.frequency := 1;
         Suggestion.lastUsed := 1 |};
      {| Suggestion.text := js "a"; Suggestion.frequency := 5;
         Suggestion.lastUsed := 6 |} ]
  /\ FuzzyMatcher.levenshteinDistance (js "ab") (js "a") = 1
  /\ FuzzyMatcher.levenshteinDistance (js "ab") (js "b") = 1
  /\ filter (has_hit ranking_example 10)
        (FuzzyMatcher.getVariations
           (FuzzyTrieAutocomplete.fuzzyMatcher ranking_example) (js "ab"))
     = [js "b"; js "a"]
  /\ recordedDistance (FuzzyTrieAutocomplete.fuzzyMatcher ranking_example)
        (js "ab") (js "a")
     = recordedDistance (FuzzyTrieAutocomplete.fuzzyMatcher ranking_example)
         (js "ab") (js "b")
  /\ FuzzyMatcher.calculateSimilarity (js "ab") (js "a")
     = FuzzyMatcher.calculateSimilarity (js "ab") (js "b")
  /\ FuzzyTrieAutocomplete.autocompleteBySimilarity (js "ab") None ranking_example
     = (Ok [js "b"; js "a"], ranking_example)
  /\ FuzzyTrieAutocomplete.autocomplete (js "ab") None ranking_example
     = (Throw TypeError, ranking_example).
Proof.
  repeat split; vm_compute; reflexivity.
Qed.

(** ** The search on the heap *)

Lemma update_length (r : Heap.ref) (o : Heap.object) (h : Heap.t) :
  length (Heap.update r o h) = length h.
Proof.
  revert r; induction h as [|x h IH]; intros [|r]; simpl; auto.
Qed.

Lemma nth_update_same (r : Heap.ref) (o : Heap.object) (h : Heap.t) :
  r < length h -> nth_error (Heap.update r o h) r = Some o.
Proof.
  revert r; induction h as [|x h IH]; intros [|r]; simpl; try lia; auto.
  intros H. apply IH. lia.
Qed.

Lemma nth_update_other (r a : Heap.ref) (o : Heap.object) (h : Heap.t) :
  a <> r -> nth_error (Heap.update r o h) a = nth_error h a.
Proof.
  revert r a; induction h as [|x h IH]; intros [|r] [|a]; simpl; auto;
    try congruence.
Qed.

Lemma update_update (r : Heap.ref) (o o' : Heap.object) (h : Heap.t) :
  Heap.update r o (Heap.update r o' h) = Heap.update r o h.
Proof.
  revert r; induction h as [|x h IH]; intros [|r]; simpl; auto.
  now rewrite IH.
Qed.

Lemma update_same (r : Heap.ref) (o : Heap.object) (h : Heap.t) :
  nth_error h r = Some o -> Heap.update r o h = h.
Proof.
  revert r; induction h as [|x h IH]; intros [|r]; simpl; try discriminate.
  - intros H; injection H as ->. reflexivity.
  - intros H. now rewrite IH.
Qed.

Lemma nth_error_in_heap (h : Heap.t) (r : Heap.ref) (o : Heap.object) :
  nth_error h r = Some o -> r < length h.
Proof. intros H. apply nth_error_Some. congruence. Qed.

Lemma get_run (h : Heap.t) (r : Heap.ref) (o : Heap.object) :
  nth_error h r = Some o -> Heap.get r h = (Ok o, h).
Proof. intros H. unfold Heap.get. now rewrite H. Qed.

Lemma get_node_run (h : Heap.t) (r : Heap.ref) (n : Heap.node) :
  nth_error h r = Some (Heap.Node n) -> HeapTrie.get_node r h = (Ok n, h).
Proof.
  intros H. unfold HeapTrie.get_node, bind. now rewrite (get_run _ _ _ H).
Qed.

Lemma get_suggestions_run (h : Heap.t) (r : Heap.ref) (items : list Suggestion.t) :
  nth_error h r = Some (Heap.Suggestions items) ->
  HeapTrie.get_suggestions r h = (Ok items, h).
Proof.
  intros H. unfold HeapTrie.get_suggestions, bind. now rewrite (get_run _ _ _ H).
Qed.

(** *** What [represents] says *)

Lemma represents_iff (h : Heap.t) (node : TrieNode.t) (r : Heap.ref) :
  represents h node r = true
  <-> exists n,
        nth_error h r = Some (Heap.Node n)
        /\ Heap.isEndOfWord n = isEndOfWord node
        /\ Heap.fullSentence n = fullSentence node
        /\ Heap.frequency n = frequency node
        /\ Heap.lastUsed n = lastUsed node
        /\ distinct (map fst (Heap.children n)) = true
        /\ Forall2 (fun kc kr => fst kc = fst kr
                                 /\ represents h (snd kc) (snd kr) = true)
                   (children node) (Heap.children n).
Proof.
  destruct node as [cs e s f l]. cbn [represents isEndOfWord fullSentence
                                       frequency lastUsed children].
  set (each := fix each (cs : list (ascii * TrieNode.t))
                        (rs : list (ascii * Heap.ref)) : bool :=
                 match cs, rs with
                 | [], [] => true
                 | (k, c) :: cs', (k', r') :: rs' =>
                     Ascii.eqb k k' && represents h c r' && each cs' rs'
                 | _, _ => false
                 end).
  assert (Heach : forall cs rs,
             each cs rs = true
             <-> Forall2 (fun kc kr => fst kc = fst kr
                                       /\ represents h (snd kc) (snd kr) = true)
                         cs rs).
  { clear. induction cs as [|[k c] cs IH]; intros [|[k' r'] rs]; simpl.
    - split; [constructor|reflexivity].
    - split; [discriminate|intros H; inversion H].
    - split; [discriminate|intros H; inversion H].
    - rewrite !andb_true_iff, IH, Ascii.eqb_eq. split.
      + intros [[Hk Hr] Hrest]. constructor; auto.
      + intros H. inversion H as [|? ? ? ? [Hk Hr] Hrest]; subst. auto. }
  destruct (nth_error h r) as [[n| | | | | | |]|];
    try (split; [discriminate|intros [n' [H _]]; discriminate]).
  rewrite !andb_true_iff, Heach, Bool.eqb_true_iff, jsstring_eqb_eq, !Z.eqb_eq.
  split.
  - intros [[[[[He Hs] Hf] Hl] Hd] Hc]. exists n. repeat split; assumption.
  - intros [n' [Hn [He [Hs [Hf [Hl [Hd Hc]]]]]]]. injection Hn as <-.
    repeat split; assumption.
Qed.

(** A heap that keeps every node keeps what the nodes represent. *)
Lemma represents_kept (h h' : Heap.t) :
  (forall r n, nth_error h r = Some (Heap.Node n) ->
               nth_error h' r = Some (Heap.Node n)) ->
  forall node r, represents h node r = true -> represents h' node r = true.
Proof.
  intros Hk. induction node as [node IH] using TrieNode_ind. intros r H.
  apply represents_iff in H.
  destruct H as [n [Hn [He [Hs [Hf [Hl [Hd Hc]]]]]]].
  apply represents_iff. exists n. repeat split; auto.
  clear Hn Hd. revert IH. induction Hc as [|kc kr cs rs [Hkey Hr] _ IHc];
    intros IH; constructor.
  - split; [assumption|]. inversion IH; subst. auto.
  - apply IHc. inversion IH; subst. assumption.
Qed.

Lemma represents_unchanged (h h' : Heap.t) (node : TrieNode.t) (r : Heap.ref) :
  unchanged h h' -> represents h node r = true -> represents h' node r = true.
Proof. intros Hu. apply represents_kept. intros a n. apply Hu. Qed.

Lemma unchanged_refl (h : Heap.t) : unchanged h h.
Proof. intros r o H. exact H. Qed.

Lemma unchanged_trans (h h' h'' : Heap.t) :
  unchanged h h' -> unchanged h' h'' -> unchanged h h''.
Proof. intros H H' r o Hr. auto. Qed.

Lemma unchanged_app (h l : Heap.t) : unchanged h (h ++ l).
Proof.
  intros r o H. rewrite nth_error_app1; [assumption|].
  now apply nth_error_in_heap in H.
Qed.

(** An assignment to an object that [h] does not hold. *)
Lemma unchanged_update (h h' : Heap.t) (r : Heap.ref) (o : Heap.object) :
  unchanged h h' -> length h <= r -> unchanged h (Heap.update r o h').
Proof.
  intros Hu Hr a x Ha. rewrite nth_update_other; [auto|].
  apply nth_error_in_heap in Ha. lia.
Qed.

Lemma trie_at_unchanged (h h' : Heap.t) (self : EnhancedTrie.t) (this : Heap.ref) :
  unchanged h h' -> trie_at h self this = true -> trie_at h' self this = true.
Proof.
  intros Hu. unfold trie_at.
  destruct (nth_error h this) as [[| root total | | | | | |]|] eqn:E; try discriminate.
  rewrite (Hu _ _ E). rewrite !andb_true_iff. intros [Ht Hr].
  split; [assumption|]. now apply (represents_unchanged h).
Qed.

Lemma service_at_unchanged (h h' : Heap.t) (self : FuzzyTrieAutocomplete.t)
      (this : Heap.ref) :
  unchanged h h' -> service_at h self this = true -> service_at h' self this = true.
Proof.
  intros Hu. unfold service_at.
  destruct (nth_error h this) as [[| | | m tr | | | |]|] eqn:E; try discriminate.
  rewrite (Hu _ _ E).
  destruct (nth_error h m) as [[| | k | | | | |]|] eqn:Em; try discriminate.
  rewrite (Hu _ _ Em). rewrite !andb_true_iff. intros [Hk Ht].
  split; [assumption|]. now apply (trie_at_unchanged h).
Qed.

(** *** The walk *)

Lemma get_child_represented (h : Heap.t) (c : ascii)
      (cs : list (ascii * TrieNode.t)) (rs : list (ascii * Heap.ref)) :
  Forall2 (fun kc kr => fst kc = fst kr /\ represents h (snd kc) (snd kr) = true)
          cs rs ->
  match get_child c cs with
  | Some child =>
      exists r', get_child c rs = Some r' /\ represents h child r' = true
  | None => get_child c rs = None
  end.
Proof.
  induction 1 as [|[k t] [k' r'] cs rs [Hk Hr] _ IH]; simpl; [reflexivity|].
  simpl in Hk, Hr. subst k'.
  destruct (Ascii.eqb k c); [eauto|exact IH].
Qed.

Lemma height_eq (node : TrieNode.t) :
  height node = S (list_max (map (fun kc => height (snd kc)) (children node))).
Proof.
  destruct node as [cs e s f l]. simpl. f_equal.
  induction cs as [|[k c] cs IH]; simpl; [reflexivity|]. now rewrite IH.
Qed.

Lemma height_child (node child : TrieNode.t) (c : ascii) :
  In (c, child) (children node) -> S (height child) <= height node.
Proof.
  intros H. rewrite (height_eq node). apply le_n_S.
  assert (Hm : list_max (map (fun kc => height (snd kc)) (children node))
               <= list_max (map (fun kc => height (snd kc)) (children node)))
    by lia.
  apply list_max_le in Hm. rewrite Forall_forall in Hm.
  apply (Hm (height child)). apply in_map_iff. now exists (c, child).
Qed.

Lemma height_walk (chars : jsstring) (node found : TrieNode.t) :
  EnhancedTrie.walk chars node = Some found -> height found <= height node.
Proof.
  revert node; induction chars as [|c chars IH]; intros node; simpl.
  - intros H; injection H as ->. lia.
  - destruct (get_child c (children node)) as [child|] eqn:G; [|discriminate].
    intros H. apply IH in H. apply get_child_in in G.
    apply height_child in G. lia.
Qed.

(** The walk on the heap reads its way to the node that the walk on the
    value finds, and assigns to nothing. *)
Lemma walk_run (h : Heap.t) (chars : jsstring) (node : TrieNode.t) (r : Heap.ref) :
  represents h node r = true ->
  match EnhancedTrie.walk chars node with
  | Some found =>
      exists r', HeapTrie.walk chars r h = (Ok (Some r'), h)
                 /\ represents h found r' = true
  | None => HeapTrie.walk chars r h = (Ok None, h)
  end.
Proof.
  revert node r; induction chars as [|c chars IH]; intros node r Hr.
  - simpl. exists r. split; [reflexivity|assumption].
  - apply represents_iff in Hr.
    destruct Hr as [n [Hn [_ [_ [_ [_ [_ Hc]]]]]]].
    assert (Hstep : HeapTrie.walk (c :: chars) r h
                    = match get_child c (Heap.children n) with
                      | Some child => HeapTrie.walk chars child h
                      | None => (Ok None, h)
                      end).
    { cbn [HeapTrie.walk]. unfold bind at 1. rewrite (get_node_run _ _ _ Hn).
      destruct (get_child c (Heap.children n)); reflexivity. }
    rewrite Hstep. cbn [EnhancedTrie.walk].
    pose proof (get_child_represented h c _ _ Hc) as G.
    destruct (get_child c (children node)) as [child|].
    + destruct G as [r' [G Hr']]. rewrite G. exact (IH child r' Hr').
    + rewrite G. reflexivity.
Qed.

(** *** The collection *)

Lemma get_child_distinct {N : Type} (l : list (ascii * N)) (k : ascii) (x : N) :
  distinct (map fst l) = true -> In (k, x) l -> get_child k l = Some x.
Proof.
  induction l as [|[k' y] l IH]; simpl; [contradiction|].
  rewrite andb_true_iff, negb_true_iff. intros [Hk Hd] [H|H].
  - injection H as -> ->. now rewrite Ascii.eqb_refl.
  - destruct (Ascii.eqb k' k) eqn:E; [|auto].
    apply Ascii.eqb_eq in E. subst k'. exfalso.
    assert (Hex : existsb (Ascii.eqb k) (map fst l) = true).
    { apply existsb_exists. exists k. split; [|apply Ascii.eqb_refl].
      apply in_map_iff. now exists (k, x). }
    congruence.
Qed.

(** An array is not a node: an assignment to it keeps what the nodes
    represent. *)
Lemma represents_update (h : Heap.t) (res : Heap.ref) (items items' : list Suggestion.t)
      (node : TrieNode.t) (r : Heap.ref) :
  nth_error h res = Some (Heap.Suggestions items) ->
  represents h node r = true ->
  represents (Heap.update res (Heap.Suggestions items') h) node r = true.
Proof.
  intros Hres. apply represents_kept. intros a n Ha.
  rewrite nth_update_other; [assumption|]. congruence.
Qed.

(** [findAllWords] on the heap, with room on the stack for the height of
    the node, appends to the array what [findAllWords] of the value lists,
    in the same order, and assigns to nothing else. *)
Lemma findAllWords_run (node : TrieNode.t) :
  forall (depth : nat) (h : Heap.t) (r res : Heap.ref) (items : list Suggestion.t),
    height node <= depth ->
    represents h node r = true ->
    nth_error h res = Some (Heap.Suggestions items) ->
    HeapTrie.findAllWords depth r res h
    = (Ok tt,
       Heap.update res
         (Heap.Suggestions (items ++ EnhancedTrie.findAllWords node)) h).
Proof.
  induction node as [node IH] using TrieNode_ind.
  intros depth h r res items Hh Hr Hres.
  destruct depth as [|depth]; [rewrite height_eq in Hh; lia|].
  cbn [HeapTrie.findAllWords].
  pose proof Hr as Hr0. apply represents_iff in Hr.
  destruct Hr as [n [Hn [He [Hs [Hf [Hl [Hd Hc]]]]]]].
  assert (Hne : r <> res) by congruence.
  assert (Hlt : res < length h) by (eapply nth_error_in_heap; eassumption).
  unfold bind at 1. rewrite (get_node_run _ _ _ Hn).
  rewrite findAllWords_eq.
  set (own := if isEndOfWord node
              then [ {| Suggestion.text := fullSentence node;
                        Suggestion.frequency := frequency node;
                        Suggestion.lastUsed := lastUsed node |} ]
              else []).
  assert (Hown : (if Heap.isEndOfWord n
                  then HeapTrie.push res
                         {| Suggestion.text := Heap.fullSentence n;
                            Suggestion.frequency := Heap.frequency n;
                            Suggestion.lastUsed := Heap.lastUsed n |}
                  else ret tt) h
                 = (Ok tt, Heap.update res (Heap.Suggestions (items ++ own)) h)).
  { subst own. rewrite He, Hs, Hf, Hl. destruct (isEndOfWord node).
    - unfold HeapTrie.push, bind. rewrite (get_suggestions_run _ _ _ Hres).
      reflexivity.
    - rewrite app_nil_r, (update_same _ _ _ Hres). reflexivity. }
  unfold bind at 1. rewrite Hown. clear Hown.
  assert (Hloop : forall cs rs,
             Forall2 (fun kc kr => fst kc = fst kr
                                   /\ represents h (snd kc) (snd kr) = true) cs rs ->
             forall acc,
             (forall kc, In kc cs -> In kc (children node)) ->
             (forall kr, In kr rs -> In kr (Heap.children n)) ->
             forEach (map fst rs)
               (fun char =>
                  bind (HeapTrie.get_node r) (fun n' =>
                  match get_child char (Heap.children n') with
                  | Some child => HeapTrie.findAllWords depth child res
                  | None => throw TypeError
                  end))
               (Heap.update res (Heap.Suggestions acc) h)
             = (Ok (map (fun _ => tt) rs),
                Heap.update res
                  (Heap.Suggestions
                     (acc ++ flat_map (fun kc => EnhancedTrie.findAllWords (snd kc)) cs))
                  h)).
  { induction 1 as [|[k c] [k' r'] cs rs [Hk Hrc] _ IHl]; intros acc Hcs Hrs.
    - simpl. now rewrite app_nil_r.
    - simpl in Hk, Hrc. subst k'. cbn [map fst forEach flat_map snd].
      unfold bind at 1. unfold bind at 1.
      rewrite (get_node_run _ r n)
        by (rewrite nth_update_other; assumption).
      rewrite (get_child_distinct _ k r' Hd) by (apply Hrs; now left).
      assert (Hin : In (k, c) (children node)) by (apply Hcs; now left).
      rewrite Forall_forall in IH.
      rewrite (IH (k, c) Hin depth _ r' res acc).
      + rewrite update_update. unfold bind at 1.
        rewrite IHl.
        * unfold ret. now rewrite app_assoc.
        * intros kc Hkc. apply Hcs. now right.
        * intros kr Hkr. apply Hrs. now right.
      + apply height_child in Hin. simpl. lia.
      + simpl. eapply represents_update; eassumption.
      + apply nth_update_same. assumption. }
  unfold bind at 1.
  rewrite (Hloop (children node) (Heap.children n) Hc (items ++ own))
    by auto.
  unfold ret. now rewrite app_assoc.
Qed.

(** *** [autocomplete] of the trie *)

Lemma trie_at_inv (h : Heap.t) (self : EnhancedTrie.t) (this : Heap.ref) :
  trie_at h self this = true ->
  exists root,
    nth_error h this = Some (Heap.Trie root (EnhancedTrie.totalInsertions self))
    /\ represents h (EnhancedTrie.root self) root = true.
Proof.
  unfold trie_at.
  destruct (nth_error h this) as [[| root total | | | | | |]|] eqn:E;
    try discriminate.
  rewrite andb_true_iff, Z.eqb_eq. intros [Ht Hr]. subst total.
  exists root. split; [reflexivity|assumption].
Qed.

Lemma service_at_inv (h : Heap.t) (self : FuzzyTrieAutocomplete.t) (this : Heap.ref) :
  service_at h self this = true ->
  exists m trie,
    nth_error h this = Some (Heap.Service m trie)
    /\ nth_error h m
       = Some (Heap.Matcher
                 (FuzzyMatcher.maxDistance (FuzzyTrieAutocomplete.fuzzyMatcher self)))
    /\ trie_at h (FuzzyTrieAutocomplete.trie self) trie = true.
Proof.
  unfold service_at.
  destruct (nth_error h this) as [[| | | m tr | | | |]|] eqn:E; try discriminate.
  destruct (nth_error h m) as [[| | k | | | | |]|] eqn:Em; try discriminate.
  rewrite andb_true_iff, Nat.eqb_eq. intros [Hk Ht]. subst k.
  exists m, tr. repeat split; assumption || reflexivity.
Qed.

Lemma trie_autocomplete_run (h : Heap.t) (self : EnhancedTrie.t) (this : Heap.ref)
      (depth : nat) (prefix : jsstring) (limit : option nat) :
  trie_at h self this = true ->
  height (EnhancedTrie.root self) <= depth ->
  exists h',
    HeapTrie.autocomplete depth this prefix limit h
    = (Ok (EnhancedTrie.autocomplete prefix limit self), h')
    /\ unchanged h h'.
Proof.
  intros Ht Hd. apply trie_at_inv in Ht. destruct Ht as [root [Hthis Hroot]].
  unfold HeapTrie.autocomplete, EnhancedTrie.autocomplete.
  destruct (is_empty prefix); [exists h; split; [reflexivity|apply unchanged_refl]|].
  unfold bind at 1, HeapTrie.get_root, bind at 1.
  rewrite (get_run _ _ _ Hthis). unfold ret at 1.
  pose proof (walk_run h (EnhancedTrie.processSentence prefix) _ _ Hroot) as Hw.
  pose proof (height_walk (EnhancedTrie.processSentence prefix)
                (EnhancedTrie.root self)) as Hh.
  unfold bind at 1.
  destruct (EnhancedTrie.walk (EnhancedTrie.processSentence prefix)
                              (EnhancedTrie.root self)) as [found|].
  - destruct Hw as [r' [-> Hfound]]. specialize (Hh found eq_refl).
    unfold bind at 1, Heap.alloc.
    set (h1 := h ++ [Heap.Suggestions []]).
    assert (Hres : nth_error h1 (length h) = Some (Heap.Suggestions [])).
    { subst h1. rewrite nth_error_app2 by lia. now rewrite Nat.sub_diag. }
    assert (Hu1 : unchanged h h1) by apply unchanged_app.
    unfold bind at 1.
    rewrite (findAllWords_run found depth h1 r' (length h) [])
      by (try assumption; try lia; now apply (represents_unchanged h)).
    cbn [app].
    set (h2 := Heap.update (length h) _ h1).
    assert (Hlt : length h < length h1)
      by (subst h1; rewrite length_app; simpl; lia).
    assert (Hres2 : nth_error h2 (length h)
                    = Some (Heap.Suggestions (EnhancedTrie.findAllWords found)))
      by (subst h2; now apply nth_update_same).
    unfold HeapTrie.rankSuggestions, bind at 1.
    rewrite (get_suggestions_run _ _ _ Hres2).
    unfold bind at 1, Heap.put. unfold bind at 1.
    erewrite get_suggestions_run
      by (apply nth_update_same; subst h2; now rewrite update_length).
    eexists. split; [reflexivity|].
    apply unchanged_update; [|lia]. subst h2.
    apply unchanged_update; [assumption|lia].
  - rewrite Hw. exists h. split; [reflexivity|apply unchanged_refl].
Qed.

(** *** [autocomplete] of the orchestrator *)

Lemma get_fuzzyMatcher_run (h : Heap.t) (self : FuzzyTrieAutocomplete.t)
      (this : Heap.ref) :
  service_at h self this = true ->
  HeapService.get_fuzzyMatcher this h
  = (Ok (FuzzyTrieAutocomplete.fuzzyMatcher self), h).
Proof.
  intros H. apply service_at_inv in H. destruct H as [m [tr [Hthis [Hm _]]]].
  unfold HeapService.get_fuzzyMatcher, bind. rewrite (get_run _ _ _ Hthis).
  rewrite (get_run _ _ _ Hm). unfold ret.
  destruct (FuzzyTrieAutocomplete.fuzzyMatcher self). reflexivity.
Qed.

Lemma get_trie_run (h : Heap.t) (self : FuzzyTrieAutocomplete.t) (this : Heap.ref) :
  service_at h self this = true ->
  exists trie,
    HeapService.get_trie this h = (Ok trie, h)
    /\ trie_at h (FuzzyTrieAutocomplete.trie self) trie = true.
Proof.
  intros H. apply service_at_inv in H. destruct H as [m [tr [Hthis [_ Ht]]]].
  exists tr. split; [|assumption].
  unfold HeapService.get_trie, bind. now rewrite (get_run _ _ _ Hthis).
Qed.

Lemma push_strings_run (h : Heap.t) (r : Heap.ref) (items more : list jsstring) :
  nth_error h r = Some (Heap.Strings items) ->
  HeapService.push_strings r more h
  = (Ok tt, Heap.update r (Heap.Strings (items ++ more)) h).
Proof.
  intros H. unfold HeapService.push_strings, HeapService.get_strings, bind.
  now rewrite (get_run _ _ _ H).
Qed.

Lemma push_candidates_run (h : Heap.t) (r : Heap.ref)
      (items more : list FuzzyTrieAutocomplete.Candidate) :
  nth_error h r = Some (Heap.Candidates items) ->
  HeapService.push_candidates r more h
  = (Ok tt, Heap.update r (Heap.Candidates (items ++ more)) h).
Proof.
  intros H. unfold HeapService.push_candidates, HeapService.get_candidates, bind.
  now rewrite (get_run _ _ _ H).
Qed.

Section OnTheHeap.
Variable h : Heap.t.
Variable self : FuzzyTrieAutocomplete.t.
Variable this : Heap.ref.
Variable depth : nat.
Variable limit : nat.
Hypothesis Hself : service_at h self this = true.
Hypothesis Hdepth :
  height (EnhancedTrie.root (FuzzyTrieAutocomplete.trie self)) <= depth.

(** The loop of lines 30-33 fills the array [allSuggestions], which the
    heap [h] did not hold, and assigns to nothing else. *)
Lemma collect_strings_run (variations : list jsstring) :
  forall (hk : Heap.t) (acc : list jsstring),
    unchanged h hk ->
    nth_error hk (length h) = Some (Heap.Strings acc) ->
    exists hk',
      forEach variations
        (fun variation =>
           bind (HeapService.get_trie this) (fun trie =>
           bind (HeapTrie.autocomplete depth trie variation (Some limit))
                (fun suggestions =>
           HeapService.push_strings (length h) suggestions))) hk
      = (Ok (map (fun _ => tt) variations), hk')
      /\ unchanged h hk'
      /\ nth_error hk' (length h)
         = Some (Heap.Strings
                   (acc ++ flat_map
                             (fun variation =>
                                EnhancedTrie.autocomplete variation (Some limit)
                                  (FuzzyTrieAutocomplete.trie self))
                             variations)).
Proof.
  induction variations as [|v vs IH]; intros hk acc Hu Hall.
  - exists hk. simpl. rewrite app_nil_r. auto.
  - cbn [forEach map flat_map].
    destruct (get_trie_run hk self this (service_at_unchanged _ _ _ _ Hu Hself))
      as [trie [Hget Htrie]].
    destruct (trie_autocomplete_run hk _ trie depth v (Some limit) Htrie Hdepth)
      as [hk1 [Hrun Hu1]].
    pose proof (Hu1 _ _ Hall) as Hall1.
    set (suggestions := EnhancedTrie.autocomplete v (Some limit)
                          (FuzzyTrieAutocomplete.trie self)) in *.
    destruct (IH (Heap.update (length h) (Heap.Strings (acc ++ suggestions)) hk1)
                 (acc ++ suggestions)) as [hk' [Hloop [Hu' Hall']]].
    + apply unchanged_update; [|lia]. now apply (unchanged_trans h hk).
    + apply nth_update_same. eapply nth_error_in_heap; eassumption.
    + exists hk'. split; [|split; [assumption|]].
      * unfold bind at 1. unfold bind at 1. rewrite Hget.
        unfold bind at 1. rewrite Hrun.
        rewrite (push_strings_run _ _ _ _ Hall1).
        unfold bind at 1. rewrite Hloop. reflexivity.
      * rewrite Hall', <- app_assoc. reflexivity.
Qed.

Lemma autocompleteBySimilarity_heap (query : jsstring) :
  exists h',
    HeapService.autocompleteBySimilarity depth this query (Some limit) h
    = (fst (FuzzyTrieAutocomplete.autocompleteBySimilarity query (Some limit) self),
       h')
    /\ unchanged h h'.
Proof.
  destruct query as [|c q];
    [exists h; split; [reflexivity|apply unchanged_refl]|].
  rewrite autocompleteBySimilarity_run by discriminate. cbn [fst].
  unfold HeapService.autocompleteBySimilarity. cbn [is_empty].
  unfold bind at 1. rewrite (get_fuzzyMatcher_run _ _ _ Hself).
  unfold bind at 1, Heap.alloc.
  destruct (collect_strings_run
              (FuzzyMatcher.getVariations
                 (FuzzyTrieAutocomplete.fuzzyMatcher self) (c :: q))
              (h ++ [Heap.Strings []]) [])
    as [h' [Hloop [Hu Hall]]].
  - apply unchanged_app.
  - rewrite nth_error_app2 by lia. now rewrite Nat.sub_diag.
  - exists h'. split; [|assumption].
    unfold bind at 1. rewrite Hloop.
    unfold HeapService.get_strings, bind. rewrite (get_run _ _ _ Hall).
    reflexivity.
Qed.

(** The loop of lines 431-441: in the first round in which the trie has a
    suggestion, line 436 throws; until then the array [allSuggestions]
    stays empty. *)
Lemma collect_candidates_run (variations : list jsstring) :
  forall (hk : Heap.t),
    unchanged h hk ->
    nth_error hk (length h) = Some (Heap.Candidates []) ->
    exists hk',
      forEach variations
        (fun variation =>
           bind (HeapService.get_trie this) (fun trie =>
           bind (HeapTrie.autocomplete depth trie variation (Some limit))
                (fun suggestions =>
           bind (forEach suggestions (fun suggestion =>
                   bind (HeapService.call_getFrequency this suggestion)
                        (fun frequency =>
                   ret {| FuzzyTrieAutocomplete.text := suggestion;
                          FuzzyTrieAutocomplete.frequency := frequency;
                          FuzzyTrieAutocomplete.variation := variation |})))
                (fun suggestionsWithFrequency =>
           HeapService.push_candidates (length h) suggestionsWithFrequency))))
        hk
      = (if existsb (has_hit self limit) variations then Throw TypeError
         else Ok (map (fun _ => tt) variations), hk')
      /\ unchanged h hk'
      /\ (existsb (has_hit self limit) variations = false ->
          nth_error hk' (length h) = Some (Heap.Candidates [])).
Proof.
  induction variations as [|v vs IH]; intros hk Hu Hall.
  - exists hk. simpl. auto.
  - cbn [forEach map existsb].
    pose proof (service_at_unchanged _ _ _ _ Hu Hself) as Hself'.
    destruct (get_trie_run hk self this Hself') as [trie [Hget Htrie]].
    destruct (trie_autocomplete_run hk _ trie depth v (Some limit) Htrie Hdepth)
      as [hk1 [Hrun Hu1]].
    pose proof (Hu1 _ _ Hall) as Hall1.
    destruct (EnhancedTrie.autocomplete v (Some limit)
                (FuzzyTrieAutocomplete.trie self)) as [|s rest] eqn:Ea.
    + assert (Eh : has_hit self limit v = false)
        by (unfold has_hit; now rewrite Ea).
      rewrite Eh. cbn [orb].
      destruct (IH (Heap.update (length h) (Heap.Candidates []) hk1))
        as [hk' [Hloop [Hu' Hall']]].
      * apply unchanged_update; [|lia]. now apply (unchanged_trans h hk).
      * apply nth_update_same. eapply nth_error_in_heap; eassumption.
      * exists hk'. split; [|split; assumption].
        unfold bind at 1. unfold bind at 1. rewrite Hget.
        unfold bind at 1. rewrite Hrun.
        unfold bind at 1. cbn [forEach]. unfold ret at 1.
        rewrite (push_candidates_run _ _ _ _ Hall1). cbn [app].
        unfold bind at 1. rewrite Hloop.
        destruct (existsb (has_hit self limit) vs); reflexivity.
    + assert (Eh : has_hit self limit v = true)
        by (unfold has_hit; now rewrite Ea).
      rewrite Eh. cbn [orb]. exists hk1. split; [|split; [|discriminate]].
      * unfold bind at 1. unfold bind at 1. rewrite Hget.
        unfold bind at 1. rewrite Hrun.
        unfold bind at 1.
        rewrite (forEach_throws _ TypeError s rest hk1); [reflexivity|].
        unfold bind at 1, HeapService.call_getFrequency, bind at 1.
        destruct (get_trie_run hk1 self this
                    (service_at_unchanged _ _ _ _ Hu1 Hself')) as [tr' [-> _]].
        reflexivity.
      * now apply (unchanged_trans h hk).
Qed.

Lemma autocomplete_heap (query : jsstring) :
  exists h',
    HeapService.autocomplete depth this query (Some limit) h
    = (fst (FuzzyTrieAutocomplete.autocomplete query (Some limit) self), h')
    /\ unchanged h h'.
Proof.
  destruct query as [|c q];
    [exists h; split; [reflexivity|apply unchanged_refl]|].
  rewrite autocomplete_run by discriminate. cbn [fst].
  unfold HeapService.autocomplete. cbn [is_empty].
  unfold bind at 1. rewrite (get_fuzzyMatcher_run _ _ _ Hself).
  unfold bind at 1, Heap.alloc.
  destruct (collect_candidates_run
              (FuzzyMatcher.getVariations
                 (FuzzyTrieAutocomplete.fuzzyMatcher self) (c :: q))
              (h ++ [Heap.Candidates []]))
    as [h' [Hloop [Hu Hall]]].
  - apply unchanged_app.
  - rewrite nth_error_app2 by lia. now rewrite Nat.sub_diag.
  - destruct (existsb (has_hit self limit) _) eqn:Eh.
    + exists h'. split; [|assumption].
      unfold bind at 1. rewrite Hloop. reflexivity.
    + exists (Heap.update (length h') (Heap.Rankeds []) (h' ++ [Heap.Rankeds []])).
      split.
      * unfold bind at 1. rewrite Hloop.
        unfold HeapService.get_candidates, bind at 1, bind at 1.
        rewrite (get_run _ _ _ (Hall eq_refl)). unfold ret at 1.
        unfold bind at 1.
        rewrite (get_fuzzyMatcher_run _ _ _
                   (service_at_unchanged _ _ _ _ Hu Hself)).
        unfold bind at 1. cbn [FuzzyTrieAutocomplete.mergeByText fold_left map
                                 FuzzyMatcher.rankMatchesWithInfo length Nat.eqb
                                 orb is_empty].
        unfold bind at 1, Heap.alloc. unfold bind at 1, Heap.put.
        cbn [js_sort]. unfold HeapService.get_rankeds, bind.
        rewrite (get_run _ _ (Heap.Rankeds []))
          by (apply nth_update_same; rewrite length_app; simpl; lia).
        unfold ret. now rewrite firstn_nil.
      * intros r o Hr. pose proof (Hu _ _ Hr) as Hr'.
        rewrite nth_update_other
          by (apply nth_error_in_heap in Hr'; lia).
        now apply unchanged_app.
Qed.

End OnTheHeap.

(** C10.  [autocomplete] is read-only.  Take a heap that holds a
    [FuzzyTrieAutocomplete] with its matcher, its trie and the trie's
    nodes, and a stack with room for the height of the trie.  Run on that
    heap, with its walk, its collection of the descendants and its sort in
    place, [autocomplete] returns what the functions of the value give, and
    every object that the heap held before the call is there afterwards
    with the fields it had: every node with its children, terminal flag,
    stored text, frequency and timestamp, the trie with its root and its
    counter of insertions, the matcher.  What the call assigns to are the
    arrays it made itself.  This holds of the [autocomplete] of lines 22-40,
    of the one of lines 423-466 (also when it throws) and of the trie's
    own. *)
Theorem autocomplete_read_only
        (h : Heap.t) (this : Heap.ref) (self : FuzzyTrieAutocomplete.t)
        (depth : nat) (query : jsstring) (limit : option nat) :
  service_at h self this = true ->
  height (EnhancedTrie.root (FuzzyTrieAutocomplete.trie self)) <= depth ->
  (exists h',
      HeapService.autocompleteBySimilarity depth this query limit h
      = (fst (FuzzyTrieAutocomplete.autocompleteBySimilarity query limit self), h')
      /\ unchanged h h'
      /\ service_at h' self this = true)
  /\ (exists h',
         HeapService.autocomplete depth this query limit h
         = (fst (FuzzyTrieAutocomplete.autocomplete query limit self), h')
         /\ unchanged h h'
         /\ service_at h' self this = true)
  /\ (forall trie,
         trie_at h (FuzzyTrieAutocomplete.trie self) trie = true ->
         exists h',
           HeapTrie.autocomplete depth trie query limit h
           = (Ok (EnhancedTrie.autocomplete query limit
                    (FuzzyTrieAutocomplete.trie self)), h')
           /\ unchanged h h'
           /\ trie_at h' (FuzzyTrieAutocomplete.trie self) trie = true).
Proof.
  intros Hself Hdepth.
  set (n := match limit with Some l => l | None => 10 end).
  assert (E1 : HeapService.autocompleteBySimilarity depth this query limit
               = HeapService.autocompleteBySimilarity depth this query (Some n))
    by (destruct limit; reflexivity).
  assert (E2 : FuzzyTrieAutocomplete.autocompleteBySimilarity query limit
               = FuzzyTrieAutocomplete.autocompleteBySimilarity query (Some n))
    by (destruct limit; reflexivity).
  assert (E3 : HeapService.autocomplete depth this query limit
               = HeapService.autocomplete depth this query (Some n))
    by (destruct limit; reflexivity).
  assert (E4 : FuzzyTrieAutocomplete.autocomplete query limit
               = FuzzyTrieAutocomplete.autocomplete query (Some n))
    by (destruct limit; reflexivity).
  split; [|split].
  - rewrite E1, E2.
    destruct (autocompleteBySimilarity_heap h self this depth n Hself Hdepth query)
      as [h' [Hrun Hu]].
    exists h'. split; [assumption|]. split; [assumption|].
    now apply (service_at_unchanged h).
  - rewrite E3, E4.
    destruct (autocomplete_heap h self this depth n Hself Hdepth query)
      as [h' [Hrun Hu]].
    exists h'. split; [assumption|]. split; [assumption|].
    now apply (service_at_unchanged h).
  - intros trie Ht.
    destruct (trie_autocomplete_run h _ trie depth query limit Ht Hdepth)
      as [h' [Hrun Hu]].
    exists h'. split; [assumption|]. split; [assumption|].
    now apply (trie_at_unchanged h).
Qed.

Lemma autocomplete_read_only_witness :
  service_at example_heap example_object 0 = true
  /\ height (EnhancedTrie.root (FuzzyTrieAutocomplete.trie example_object)) <= 2
  /\ fst (FuzzyTrieAutocomplete.autocompleteBySimilarity (js "a") None example_object)
     = Ok [js "a"]
  /\ exists h',
      HeapService.autocompleteBySimilarity 2 0 (js "a") None example_heap
      = (fst (FuzzyTrieAutocomplete.autocompleteBySimilarity (js "a") None
                example_object), h')
      /\ unchanged example_heap h'
      /\ service_at h' example_object 0 = true.
Proof.
  assert (H1 : service_at example_heap example_object 0 = true) by reflexivity.
  assert (H2 : height (EnhancedTrie.root (FuzzyTrieAutocomplete.trie example_object))
               <= 2) by (vm_compute; lia).
  split; [exact H1|]. split; [exact H2|]. split; [vm_compute; reflexivity|].
  exact (proj1 (autocomplete_read_only example_heap 0 example_object 2 (js "a")
                  None H1 H2)).
Defined.

(** ** More of the matcher *)

Lemma lev_le_max (a b : jsstring) : lev a b <= Nat.max (length a) (length b).
Proof.
  revert b; induction a as [|x a IHa]; intros b; [simpl; lia|].
  destruct b as [|y b]; [simpl; lia|].
  rewrite lev_cons_cons. specialize (IHa b).
  destruct (Ascii.eqb x y); simpl; lia.
Qed.

Lemma levenshteinDistance_le_max (a b : jsstring) :
  FuzzyMatcher.levenshteinDistance a b <= Nat.max (length a) (length b).
Proof.
  rewrite levenshteinDistance_lev.
  pose proof (lev_le_max (rev a) (rev b)) as H.
  now rewrite !length_rev in H.
Qed.

Lemma lev_zero_eq (a b : jsstring) : lev a b = 0 -> a = b.
Proof.
  revert b; induction a as [|x a IH]; intros [|y b] H; simpl in H;
    try discriminate; [reflexivity|].
  change (lev (x :: a) (y :: b) = 0) in H. rewrite lev_cons_cons in H.
  destruct (Ascii.eqb x y) eqn:E; [|lia].
  apply Ascii.eqb_eq in E. subst. f_equal. apply IH. lia.
Qed.

Lemma levenshteinDistance_zero_iff (a b : jsstring) :
  FuzzyMatcher.levenshteinDistance a b = 0 <-> a = b.
Proof.
  rewrite levenshteinDistance_lev. split.
  - intros H. apply lev_zero_eq in H.
    rewrite <- (rev_involutive a), H. apply rev_involutive.
  - intros ->. apply lev_refl.
Qed.

Lemma toLowerCase_length (s : jsstring) : length (toLowerCase s) = length s.
Proof. apply length_map. Qed.

Lemma lower_char_idempotent (c : ascii) : lower_char (lower_char c) = lower_char c.
Proof.
  destruct c as [[] [] [] [] [] [] [] []]; reflexivity.
Qed.

Lemma toLowerCase_idempotent (s : jsstring) :
  toLowerCase (toLowerCase s) = toLowerCase s.
Proof.
  unfold toLowerCase. rewrite map_map. apply map_ext.
  intros c. apply lower_char_idempotent.
Qed.

Lemma Zpos_of_nat (n : nat) : n <> 0 -> Z.pos (Pos.of_nat n) = Z.of_nat n.
Proof.
  intros H. rewrite <- positive_nat_Z, Nat2Pos.id by assumption. reflexivity.
Qed.

(** The similarity score is a number between 0 and 1, the same in both
    directions, and 0 exactly when the two strings are equal up to case. *)
Theorem calculateSimilarity_range (original match_ : jsstring) :
  (0 <= FuzzyMatcher.calculateSimilarity original match_)%Q
  /\ (FuzzyMatcher.calculateSimilarity original match_ <= 1)%Q
  /\ FuzzyMatcher.calculateSimilarity original match_
     = FuzzyMatcher.calculateSimilarity match_ original
  /\ ((FuzzyMatcher.calculateSimilarity original match_ == 0)%Q
      <-> toLowerCase original = toLowerCase match_).
Proof.
  unfold FuzzyMatcher.calculateSimilarity.
  set (s1 := toLowerCase original). set (s2 := toLowerCase match_).
  pose proof (levenshteinDistance_le_max s1 s2) as Hmax.
  pose proof (levenshteinDistance_zero_iff s1 s2) as Hz.
  assert (Hsym : FuzzyMatcher.levenshteinDistance s1 s2
                 = FuzzyMatcher.levenshteinDistance s2 s1).
  { rewrite !levenshteinDistance_lev. apply lev_sym. }
  rewrite (Nat.max_comm (length s2) (length s1)), <- Hsym.
  destruct (Nat.max (length s1) (length s2) =? 0) eqn:E.
  - apply Nat.eqb_eq in E. repeat split; try discriminate.
    + intros _. apply Hz. lia.
  - apply Nat.eqb_neq in E.
    repeat split.
    + unfold Qle. simpl. lia.
    + unfold Qle. simpl. rewrite Z.mul_1_r, Zpos_of_nat by assumption. lia.
    + unfold Qeq. simpl. rewrite Z.mul_1_r. intros H. apply Hz. lia.
    + intros H. apply Hz in H. rewrite H. reflexivity.
Qed.

(** [matches] does not depend on the order of its arguments nor on their
    case; it holds of every non-empty string with itself; and when it holds
    neither string is empty and the lower-case forms are within
    [maxDistance] of each other. *)
Theorem matches_symmetric_case_insensitive (self : FuzzyMatcher.t)
        (s1 s2 : jsstring) :
  FuzzyMatcher.matches self s1 s2 = FuzzyMatcher.matches self s2 s1
  /\ FuzzyMatcher.matches self s1 s2
     = FuzzyMatcher.matches self (toLowerCase s1) (toLowerCase s2)
  /\ (s1 <> [] -> FuzzyMatcher.matches self s1 s1 = true)
  /\ (FuzzyMatcher.matches self s1 s2 = true ->
      s1 <> [] /\ s2 <> []
      /\ FuzzyMatcher.levenshteinDistance (toLowerCase s1) (toLowerCase s2)
         <= FuzzyMatcher.maxDistance self).
Proof.
  assert (Hform : forall a b,
             FuzzyMatcher.matches self a b
             = negb (is_empty a || is_empty b)
               && (FuzzyMatcher.levenshteinDistance (toLowerCase a) (toLowerCase b)
                   <=? FuzzyMatcher.maxDistance self)).
  { intros a b. unfold FuzzyMatcher.matches.
    destruct (is_empty a || is_empty b); [reflexivity|]. simpl.
    destruct (jsstring_eqb a b) eqn:E; [|reflexivity].
    apply jsstring_eqb_eq in E. subst.
    rewrite (proj2 (levenshteinDistance_zero_iff _ _) eq_refl). reflexivity. }
  split; [|split; [|split]].
  - rewrite !Hform, (orb_comm (is_empty s1)). f_equal.
    rewrite !levenshteinDistance_lev. now rewrite lev_sym.
  - rewrite !Hform, !toLowerCase_is_empty, !toLowerCase_idempotent. reflexivity.
  - intros H. rewrite Hform.
    rewrite (proj2 (levenshteinDistance_zero_iff _ _) eq_refl).
    destruct s1; [congruence|reflexivity].
  - rewrite Hform. intros H. apply andb_true_iff in H. destruct H as [He Hd].
    apply Nat.leb_le in Hd.
    destruct s1; [discriminate|]. destruct s2; [discriminate|].
    repeat split; try discriminate. exact Hd.
Qed.

(** The fold of [findBestMatchingVariation] keeps a minimum. *)
Lemma best_fold (query text : jsstring) (vs : list jsstring)
      (b0 : FuzzyMatcher.BestMatch) :
  let step :=
    fun (bestMatch : FuzzyMatcher.BestMatch) variation =>
      if jsstring_eqb variation query then bestMatch
      else
        let distance :=
          FuzzyMatcher.levenshteinDistance (toLowerCase variation)
            (toLowerCase text) in
        if distance <? FuzzyMatcher.distance bestMatch
        then {| FuzzyMatcher.variation := variation;
                FuzzyMatcher.distance := distance |}
        else bestMatch in
  let b := fold_left step vs b0 in
  (b = b0 \/ In (FuzzyMatcher.variation b) vs)
  /\ (FuzzyMatcher.distance b0
      = FuzzyMatcher.levenshteinDistance
          (toLowerCase (FuzzyMatcher.variation b0)) (toLowerCase text) ->
      FuzzyMatcher.distance b
      = FuzzyMatcher.levenshteinDistance
          (toLowerCase (FuzzyMatcher.variation b)) (toLowerCase text))
  /\ FuzzyMatcher.distance b <= FuzzyMatcher.distance b0
  /\ (forall v, In v vs -> v <> query ->
                FuzzyMatcher.distance b
                <= FuzzyMatcher.levenshteinDistance (toLowerCase v)
                     (toLowerCase text)).
Proof.
  intros step. revert b0. induction vs as [|v vs IH]; intros b0 b.
  - subst b. simpl. repeat split; auto. intros v [].
  - subst b. cbn [fold_left].
    specialize (IH (step b0 v)). cbv zeta in IH.
    destruct IH as [Hin [Hdist [Hle Hmin]]].
    assert (Hstep : (step b0 v = b0
                     /\ (v <> query ->
                         FuzzyMatcher.distance b0
                         <= FuzzyMatcher.levenshteinDistance (toLowerCase v)
                              (toLowerCase text)))
                    \/ (step b0 v
                        = {| FuzzyMatcher.variation := v;
                             FuzzyMatcher.distance :=
                               FuzzyMatcher.levenshteinDistance (toLowerCase v)
                                 (toLowerCase text) |}
                        /\ FuzzyMatcher.levenshteinDistance (toLowerCase v)
                             (toLowerCase text) < FuzzyMatcher.distance b0)).
    { unfold step. destruct (jsstring_eqb v query) eqn:E.
      - left. split; [reflexivity|]. apply jsstring_eqb_eq in E. congruence.
      - destruct (Nat.ltb_spec
                    (FuzzyMatcher.levenshteinDistance (toLowerCase v)
                       (toLowerCase text)) (FuzzyMatcher.distance b0)).
        + right. split; [reflexivity|assumption].
        + left. split; [reflexivity|]. intros _. assumption. }
    destruct Hstep as [[E Hv]|[E Hlt]]; rewrite E in *.
    + repeat split.
      * destruct Hin as [Hb|Hb]; [now left|right; now right].
      * exact Hdist.
      * exact Hle.
      * intros v' [<-|Hv'] Hne; [|now apply Hmin].
        specialize (Hv Hne). lia.
    + simpl in *. repeat split.
      * right. destruct Hin as [->|Hb]; [now left|now right].
      * intros _. apply Hdist. reflexivity.
      * lia.
      * intros v' [<-|Hv'] Hne; [lia|now apply Hmin].
Qed.

Lemma in_getVariations_word (self : FuzzyMatcher.t) (word : jsstring) :
  In word (FuzzyMatcher.getVariations self word).
Proof.
  unfold FuzzyMatcher.getVariations.
  destruct (is_empty word || _); [now left|].
  apply (in_rounds _ _ _ word); [now left|constructor].
Qed.

(** [findBestMatchingVariation] returns one of the variations of the query
    together with its distance from the text (both in lower case), and no
    variation is nearer to the text; in particular the distance returned is
    at most the distance of the query itself. *)
Theorem findBestMatchingVariation_minimal (self : FuzzyMatcher.t)
        (query text : jsstring) :
  let best := FuzzyMatcher.findBestMatchingVariation self query text in
  In (FuzzyMatcher.variation best) (FuzzyMatcher.getVariations self query)
  /\ FuzzyMatcher.distance best
     = FuzzyMatcher.levenshteinDistance
         (toLowerCase (FuzzyMatcher.variation best)) (toLowerCase text)
  /\ (forall v, In v (FuzzyMatcher.getVariations self query) ->
                FuzzyMatcher.distance best
                <= FuzzyMatcher.levenshteinDistance (toLowerCase v)
                     (toLowerCase text)).
Proof.
  intros best. subst best. unfold FuzzyMatcher.findBestMatchingVariation.
  destruct (best_fold query text (FuzzyMatcher.getVariations self query)
              {| FuzzyMatcher.variation := query;
                 FuzzyMatcher.distance :=
                   FuzzyMatcher.levenshteinDistance (toLowerCase query)
                     (toLowerCase text) |}) as [Hin [Hdist [Hle Hmin]]].
  cbv zeta in *. simpl in Hdist, Hle. split; [|split].
  - destruct Hin as [->|Hin]; [|assumption].
    simpl. apply in_getVariations_word.
  - apply Hdist. reflexivity.
  - intros v Hv. destruct (jsstring_eqb v query) eqn:E.
    + apply jsstring_eqb_eq in E. subst. exact Hle.
    + apply jsstring_eqb_neq in E. apply Hmin; assumption.
Qed.

(** *** How far a variation can be *)

Lemma lev_cons_l_le (x : ascii) (a b : jsstring) : lev (x :: a) b <= lev a b + 1.
Proof.
  destruct b as [|y b]; [rewrite !lev_nil_r; simpl; lia|].
  rewrite lev_cons_cons. lia.
Qed.

Lemma lev_cons_r_le (y : ascii) (a b : jsstring) : lev a (y :: b) <= lev a b + 1.
Proof. rewrite (lev_sym a (y :: b)), (lev_sym a b). apply lev_cons_l_le. Qed.

Lemma lev_app_prefix (p a b : jsstring) : lev (p ++ a) (p ++ b) <= lev a b.
Proof.
  induction p as [|x p IH]; [reflexivity|].
  simpl app. rewrite lev_cons_cons, Ascii.eqb_refl. lia.
Qed.

Lemma lev_app_suffix (s a b : jsstring) : lev (a ++ s) (b ++ s) <= lev a b.
Proof.
  revert b; induction a as [|x a IHa]; intros b.
  - induction b as [|y b IHb]; simpl app.
    + rewrite lev_refl. lia.
    + pose proof (lev_cons_r_le y s (b ++ s)). simpl in *. lia.
  - induction b as [|y b IHb]; simpl app.
    + pose proof (lev_cons_l_le x (a ++ s) s). specialize (IHa []).
      rewrite lev_nil_r in *. simpl in *. lia.
    + rewrite !lev_cons_cons.
      pose proof (IHa (y :: b)). pose proof (IHa b). simpl app in *. lia.
Qed.

(** Replacing a piece of a string by another piece costs at most the longer
    of the two. *)
Lemma levenshteinDistance_replace_piece (pre old new post : jsstring) :
  FuzzyMatcher.levenshteinDistance (pre ++ old ++ post) (pre ++ new ++ post)
  <= Nat.max (length old) (length new).
Proof.
  rewrite levenshteinDistance_lev, !rev_app_distr, <- !app_assoc.
  eapply Nat.le_trans; [apply lev_app_prefix|].
  eapply Nat.le_trans; [apply lev_app_suffix|].
  eapply Nat.le_trans; [apply lev_le_max|]. now rewrite !length_rev.
Qed.

Lemma split_at (i : nat) (w : jsstring) :
  i < length w ->
  exists c, w = firstn i w ++ [c] ++ skipn (i + 1) w /\ char_at i w = [c].
Proof.
  revert w; induction i as [|i IH]; intros [|x w] H; simpl in H; try lia.
  - exists x. split; reflexivity.
  - destruct (IH w ltac:(lia)) as [c [Hw Hc]]. exists c. split.
    + simpl. f_equal. exact Hw.
    + exact Hc.
Qed.

Lemma split_before (i : nat) (w : jsstring) : w = firstn i w ++ [] ++ skipn i w.
Proof. symmetry. apply firstn_skipn. Qed.

Lemma split_two_at (i : nat) (w : jsstring) :
  i + 1 < length w ->
  exists x y,
    w = firstn i w ++ [x; y] ++ skipn (i + 2) w
    /\ char_at i w = [x] /\ char_at (i + 1) w = [y].
Proof.
  revert w; induction i as [|i IH]; intros [|a w] H; simpl in H; try lia.
  - destruct w as [|b w]; simpl in H; [lia|].
    exists a, b. repeat split.
  - destruct (IH w ltac:(lia)) as [x [y [Hw [Hx Hy]]]]. exists x, y.
    repeat split; try assumption. simpl. f_equal. exact Hw.
Qed.

(** One edit of [addEdits] moves a word by at most 2: a transposition is two
    replacements for the Levenshtein distance. *)
Lemma edits_within_two (w y : jsstring) :
  In y (FuzzyMatcher.edits w) -> FuzzyMatcher.levenshteinDistance w y <= 2.
Proof.
  unfold FuzzyMatcher.edits. rewrite !in_app_iff.
  intros [H|[H|[H|H]]].
  - unfold FuzzyMatcher.deletions in H. apply in_map_iff in H.
    destruct H as [i [<- Hi]]. apply in_seq in Hi.
    destruct (split_at i w ltac:(lia)) as [c [Hw _]].
    unfold slice_to, slice_from. rewrite Hw at 1.
    pose proof (levenshteinDistance_replace_piece
                  (firstn i w) [c] [] (skipn (i + 1) w)) as L.
    simpl in L. simpl. lia.
  - unfold FuzzyMatcher.transpositions in H. apply in_map_iff in H.
    destruct H as [i [<- Hi]]. apply in_seq in Hi.
    destruct (split_two_at i w ltac:(lia)) as [a [b [Hw [Ha Hb]]]].
    unfold slice_to, slice_from. rewrite Ha, Hb. rewrite Hw at 1.
    pose proof (levenshteinDistance_replace_piece
                  (firstn i w) [a; b] [b; a] (skipn (i + 2) w)) as L.
    simpl in L. simpl. lia.
  - unfold FuzzyMatcher.replacements in H. apply in_flat_map in H.
    destruct H as [i [Hi H]]. apply in_seq in Hi.
    apply in_map_iff in H. destruct H as [c [<- _]].
    destruct (split_at i w ltac:(lia)) as [c' [Hw _]].
    unfold slice_to, slice_from. rewrite Hw at 1.
    pose proof (levenshteinDistance_replace_piece
                  (firstn i w) [c'] [c] (skipn (i + 1) w)) as L.
    simpl in L. simpl. lia.
  - unfold FuzzyMatcher.insertions in H. apply in_flat_map in H.
    destruct H as [i [Hi H]].
    apply in_map_iff in H. destruct H as [c [<- _]].
    unfold slice_to, slice_from. rewrite (split_before i w) at 1.
    pose proof (levenshteinDistance_replace_piece
                  (firstn i w) [] [c] (skipn i w)) as L.
    simpl in L. simpl. lia.
Qed.

Lemma levenshteinDistance_triangle (a b c : jsstring) :
  FuzzyMatcher.levenshteinDistance a b
  <= FuzzyMatcher.levenshteinDistance a c + FuzzyMatcher.levenshteinDistance c b.
Proof. rewrite !levenshteinDistance_lev. apply lev_triangle. Qed.

Lemma rounds_within (k s : nat) (vs : list jsstring) (y : jsstring) :
  In y (fold_left (fun vs (_ : nat) => FuzzyMatcher.round vs) (seq s k) vs) ->
  exists w, In w vs /\ FuzzyMatcher.levenshteinDistance w y <= 2 * k.
Proof.
  revert s vs; induction k as [|k IH]; intros s vs H.
  - simpl in H. exists y. split; [assumption|].
    rewrite (proj2 (levenshteinDistance_zero_iff y y) eq_refl). lia.
  - simpl in H. apply IH in H. destruct H as [m [Hm Hd]].
    apply in_round in Hm. destruct Hm as [[w [Hw He]]|Hm].
    + exists w. split; [assumption|].
      pose proof (edits_within_two _ _ He).
      pose proof (levenshteinDistance_triangle w y m). lia.
    + exists m. split; [assumption|]. lia.
Qed.

(** Every variation that [getVariations(word)] returns is within
    Levenshtein distance [2 * maxDistance] of the word. *)
Theorem getVariations_within_twice_maxDistance
        (self : FuzzyMatcher.t) (word variation : jsstring) :
  In variation (FuzzyMatcher.getVariations self word) ->
  FuzzyMatcher.levenshteinDistance word variation
  <= 2 * FuzzyMatcher.maxDistance self.
Proof.
  unfold FuzzyMatcher.getVariations.
  destruct (is_empty word || _).
  - intros [<-|[]].
    rewrite (proj2 (levenshteinDistance_zero_iff word word) eq_refl). lia.
  - intros H. apply rounds_within in H. destruct H as [w [[<-|[]] Hd]]. exact Hd.
Qed.

(** The bound is reached: with [maxDistance] 1 the transposition ["ba"] of
    ["ab"] is a variation, at Levenshtein distance 2. *)
Lemma getVariations_within_twice_maxDistance_witness :
  In (js "ba") (FuzzyMatcher.getVariations (FuzzyMatcher.new (Some 1)) (js "ab"))
  /\ FuzzyMatcher.levenshteinDistance (js "ab") (js "ba") = 2
  /\ FuzzyMatcher.levenshteinDistance (js "ab") (js "ba") <= 2 * 1.
Proof.
  assert (H : In (js "ba")
                 (FuzzyMatcher.getVariations (FuzzyMatcher.new (Some 1)) (js "ab")))
    by (vm_compute; do 3 right; left; reflexivity).
  split; [exact H|]. split; [reflexivity|].
  exact (getVariations_within_twice_maxDistance (FuzzyMatcher.new (Some 1))
           (js "ab") (js "ba") H).
Defined.

(** *** The set of variations *)

Lemma set_add_nodup (x : jsstring) (vs : list jsstring) :
  NoDup vs -> NoDup (FuzzyMatcher.set_add x vs).
Proof.
  intros H. unfold FuzzyMatcher.set_add.
  destruct (existsb (jsstring_eqb x) vs) eqn:E; [assumption|].
  apply NoDup_app; [assumption|repeat constructor; intros []|].
  intros y Hy [Hxy|[]]. subst y.
  assert (E' : existsb (jsstring_eqb x) vs = true).
  { apply existsb_exists. exists x. split; [assumption|apply jsstring_eqb_refl]. }
  congruence.
Qed.

Lemma set_add_head (x d : jsstring) (vs : list jsstring) :
  vs <> [] -> hd d (FuzzyMatcher.set_add x vs) = hd d vs
              /\ FuzzyMatcher.set_add x vs <> [].
Proof.
  intros H. unfold FuzzyMatcher.set_add.
  destruct (existsb (jsstring_eqb x) vs); [auto|].
  destruct vs; [congruence|]. split; [reflexivity|discriminate].
Qed.

Lemma fold_set_add_keeps (l vs : list jsstring) (d : jsstring) :
  NoDup vs -> vs <> [] ->
  let vs' := fold_left (fun vs x => FuzzyMatcher.set_add x vs) l vs in
  NoDup vs' /\ hd d vs' = hd d vs /\ vs' <> [].
Proof.
  revert vs; induction l as [|x l IH]; intros vs Hn Hne; simpl; [auto|].
  destruct (set_add_head x d vs Hne) as [Hh Hne'].
  destruct (IH _ (set_add_nodup x vs Hn) Hne') as [H1 [H2 H3]].
  repeat split; try assumption. now rewrite H2.
Qed.

Lemma fold_addEdits_keeps (ws vs : list jsstring) (d : jsstring) :
  NoDup vs -> vs <> [] ->
  let vs' := fold_left (fun vs w => FuzzyMatcher.addEdits w vs) ws vs in
  NoDup vs' /\ hd d vs' = hd d vs /\ vs' <> [].
Proof.
  revert vs; induction ws as [|w ws IH]; intros vs Hn Hne; simpl; [auto|].
  pose proof (fold_set_add_keeps (FuzzyMatcher.edits w) vs d Hn Hne) as H.
  cbv zeta in H. fold (FuzzyMatcher.addEdits w vs) in H.
  destruct H as [H1 [H2 H3]].
  destruct (IH _ H1 H3) as [H4 [H5 H6]].
  repeat split; try assumption. now rewrite H5.
Qed.

Lemma rounds_keep (k s : nat) (vs : list jsstring) (d : jsstring) :
  NoDup vs -> vs <> [] ->
  let vs' :=
    fold_left (fun vs (_ : nat) => FuzzyMatcher.round vs) (seq s k) vs in
  NoDup vs' /\ hd d vs' = hd d vs /\ vs' <> [].
Proof.
  revert s vs; induction k as [|k IH]; intros s vs Hn Hne; simpl; [auto|].
  pose proof (fold_addEdits_keeps vs vs d Hn Hne) as H.
  cbv zeta in H. fold (FuzzyMatcher.round vs) in H.
  destruct H as [H1 [H2 H3]].
  destruct (IH (S s) _ H1 H3) as [H4 [H5 H6]].
  repeat split; try assumption. now rewrite H5.
Qed.

Lemma in_rounds_succ (k s : nat) (vs : list jsstring) (y : jsstring) :
  In y (fold_left (fun vs (_ : nat) => FuzzyMatcher.round vs) (seq s k) vs) ->
  In y (fold_left (fun vs (_ : nat) => FuzzyMatcher.round vs) (seq s (S k)) vs).
Proof.
  rewrite seq_S, fold_left_app. simpl. intros H.
  apply in_round. now right.
Qed.

(** [getVariations(word)] returns a list without duplicates whose first
    element is the word itself, and a larger [maxDistance] only adds
    variations. *)
Theorem getVariations_set (self : FuzzyMatcher.t) (word : jsstring) :
  NoDup (FuzzyMatcher.getVariations self word)
  /\ hd [] (FuzzyMatcher.getVariations self word) = word
  /\ (forall variation,
         In variation (FuzzyMatcher.getVariations self word) ->
         In variation
            (FuzzyMatcher.getVariations
               {| FuzzyMatcher.maxDistance := S (FuzzyMatcher.maxDistance self) |}
               word)).
Proof.
  assert (Hw : NoDup [word]) by (repeat constructor; intros []).
  assert (Hne : [word] <> []) by discriminate.
  unfold FuzzyMatcher.getVariations. cbn [FuzzyMatcher.maxDistance].
  destruct (is_empty word) eqn:Ew; cbn [orb].
  - repeat split; auto.
  - destruct (rounds_keep (FuzzyMatcher.maxDistance self) 1 [word] [] Hw Hne)
      as [H1 [H2 _]].
    change (S (FuzzyMatcher.maxDistance self) <=? 0) with false. cbv iota.
    destruct (FuzzyMatcher.maxDistance self) as [|k] eqn:Ek.
    + cbn [Nat.leb]. repeat split; auto.
      intros v [<-|[]]. apply (in_rounds_succ 0 1 [word]). now left.
    + cbn [Nat.leb]. repeat split; try assumption.
      intros v Hv. apply in_rounds_succ. exact Hv.
Qed.

(** ** Ranking *)

Lemma score_diff_le (a b : Q) : (FuzzyMatcher.score_diff a b <= 0)%Z <-> (a <= b)%Q.
Proof.
  unfold FuzzyMatcher.score_diff. rewrite Qle_alt.
  destruct (a ?= b)%Q; split; intros; try lia; try discriminate; congruence.
Qed.

Lemma score_diff_total (a b : Q) :
  (0 < FuzzyMatcher.score_diff a b)%Z -> (FuzzyMatcher.score_diff b a <= 0)%Z.
Proof.
  intros H. apply score_diff_le.
  destruct (Qlt_le_dec b a) as [Hlt|Hle]; [apply Qlt_le_weak; assumption|].
  apply score_diff_le in Hle. lia.
Qed.

Lemma score_diff_trans (a b c : Q) :
  (FuzzyMatcher.score_diff a b <= 0)%Z -> (FuzzyMatcher.score_diff b c <= 0)%Z ->
  (FuzzyMatcher.score_diff a c <= 0)%Z.
Proof.
  rewrite !score_diff_le. apply Qle_trans.
Qed.

Lemma StronglySorted_map {A B : Type} (R : A -> A -> Prop) (R' : B -> B -> Prop)
      (f : A -> B) (l : list A) :
  (forall x y, In x l -> In y l -> R x y -> R' (f x) (f y)) ->
  StronglySorted R l -> StronglySorted R' (map f l).
Proof.
  intros H Hs. induction Hs as [|x r Hr IH Hx]; simpl; [constructor|].
  constructor.
  - apply IH. intros a b Ha Hb. apply H; now right.
  - rewrite Forall_forall in *. intros y Hy. apply in_map_iff in Hy.
    destruct Hy as [z [<- Hz]]. apply H; [now left|now right|auto].
Qed.

Lemma StronglySorted_weaken {A : Type} (R R' : A -> A -> Prop) (l : list A) :
  (forall x y, R x y -> R' x y) -> StronglySorted R l -> StronglySorted R' l.
Proof.
  intros H Hs. rewrite <- (map_id l).
  apply (StronglySorted_map R R' (fun x => x)); auto.
Qed.

Lemma rankMatches_perm (query : jsstring) (candidates : list jsstring) :
  query <> [] ->
  Permutation (FuzzyMatcher.rankMatches query candidates) candidates.
Proof.
  intros Hq. unfold FuzzyMatcher.rankMatches.
  destruct query as [|q0 q]; [congruence|]. cbn [is_empty orb].
  destruct candidates as [|c cs] eqn:Ec; [constructor|].
  cbn [length Nat.eqb]. rewrite <- Ec. clear Ec c cs.
  set (f := fun candidate : jsstring =>
              (candidate, FuzzyMatcher.calculateSimilarity (q0 :: q) candidate)).
  set (cmp := fun a b : jsstring * Q => FuzzyMatcher.score_diff (snd a) (snd b)).
  rewrite (js_sort_perm cmp (map f candidates)), map_map. simpl.
  now rewrite map_id.
Qed.

Lemma rankMatches_sorted (query : jsstring) (candidates : list jsstring) :
  StronglySorted
    (fun x y => (FuzzyMatcher.calculateSimilarity query x
                 <= FuzzyMatcher.calculateSimilarity query y)%Q)
    (FuzzyMatcher.rankMatches query candidates).
Proof.
  unfold FuzzyMatcher.rankMatches.
  destruct (is_empty query || (length candidates =? 0)); [constructor|].
  set (f := fun candidate : jsstring =>
              (candidate, FuzzyMatcher.calculateSimilarity query candidate)).
  set (cmp := fun a b : jsstring * Q => FuzzyMatcher.score_diff (snd a) (snd b)).
  apply (StronglySorted_map (fun a b => (cmp a b <= 0)%Z)).
  - intros x y Hx Hy Hxy. apply js_sort_in in Hx, Hy.
    apply in_map_iff in Hx, Hy.
    destruct Hx as [cx [<- _]]. destruct Hy as [cy [<- _]].
    apply score_diff_le in Hxy. exact Hxy.
  - apply js_sort_sorted.
    + intros x y. apply score_diff_total.
    + intros x y z. apply score_diff_trans.
Qed.

(** [rankMatches(query, candidates)] returns nothing for the empty query;
    otherwise it returns the candidates, each as often as it was given, in
    the order of their similarity scores, the lowest first. *)
Theorem rankMatches_sorted_permutation (query : jsstring)
        (candidates : list jsstring) :
  FuzzyMatcher.rankMatches [] candidates = []
  /\ (query <> [] ->
      Permutation (FuzzyMatcher.rankMatches query candidates) candidates
      /\ StronglySorted
           (fun x y => (FuzzyMatcher.calculateSimilarity query x
                        <= FuzzyMatcher.calculateSimilarity query y)%Q)
           (FuzzyMatcher.rankMatches query candidates)).
Proof.
  split; [reflexivity|]. intros Hq. split.
  - now apply rankMatches_perm.
  - apply rankMatches_sorted.
Qed.

Lemma rankMatches_sorted_permutation_witness :
  js "ab" <> []
  /\ Permutation (FuzzyMatcher.rankMatches (js "ab") [js "xyz"; js "abc"; js "AB"])
       [js "xyz"; js "abc"; js "AB"]
  /\ FuzzyMatcher.rankMatches (js "ab") [js "xyz"; js "abc"; js "AB"]
     = [js "AB"; js "abc"; js "xyz"].
Proof.
  assert (H : js "ab" <> []) by discriminate.
  split; [exact H|]. split; [|reflexivity].
  exact (proj1 (proj2 (rankMatches_sorted_permutation (js "ab")
                         [js "xyz"; js "abc"; js "AB"]) H)).
Defined.

Lemma mapResult_ok {A B : Type} (f : A -> JsResult B) (l : list A) (ys : list B) :
  FuzzyMatcher.mapResult f l = Ok ys -> Forall2 (fun x y => f x = Ok y) l ys.
Proof.
  revert ys; induction l as [|x r IH]; intros ys; simpl.
  - intros H; injection H as <-. constructor.
  - destruct (f x) as [y|e] eqn:E; [|discriminate].
    destruct (FuzzyMatcher.mapResult f r) as [ys'|e]; [|discriminate].
    intros H; injection H as <-. constructor; auto.
Qed.

Lemma mapResult_total {A B : Type} (f : A -> JsResult B) (l : list A) :
  (forall x, In x l -> exists y, f x = Ok y) ->
  exists ys, FuzzyMatcher.mapResult f l = Ok ys.
Proof.
  induction l as [|x r IH]; intros H; simpl; [eauto|].
  destruct (H x (or_introl eq_refl)) as [y ->].
  destruct IH as [ys ->]; [intros z Hz; apply H; now right|]. eauto.
Qed.

Lemma Forall2_in_l {A B : Type} (R : A -> B -> Prop) (l : list A) (ys : list B)
      (x : A) :
  Forall2 R l ys -> In x l -> exists y, In y ys /\ R x y.
Proof.
  induction 1 as [|x' y' l' ys' Hxy _ IH]; intros Hin; [contradiction|].
  destruct Hin as [->|Hin].
  - exists y'. split; [now left|assumption].
  - destruct (IH Hin) as [y [Hy HR]]. exists y. split; [now right|assumption].
Qed.

(** The merged hits are hits. *)
Lemma in_map_set key v m x :
  In x (map snd (FuzzyTrieAutocomplete.map_set key v m)) ->
  x = v \/ In x (map snd m).
Proof.
  induction m as [|[k w] r IH]; simpl.
  - intros [<-|[]]. now left.
  - destruct (jsstring_eqb k key); simpl.
    + intros [<-|H]; auto.
    + intros [<-|H]; auto. destruct (IH H); auto.
Qed.

Lemma in_mergeByText (l : list FuzzyTrieAutocomplete.Candidate) x :
  In x (FuzzyTrieAutocomplete.mergeByText l) -> In x l.
Proof.
  unfold FuzzyTrieAutocomplete.mergeByText.
  assert (G : forall l m,
             In x (map snd
                     (fold_left
                        (fun uniqueMap item =>
                           match FuzzyTrieAutocomplete.map_get
                                   (FuzzyTrieAutocomplete.text item) uniqueMap with
                           | None =>
                               FuzzyTrieAutocomplete.map_set
                                 (FuzzyTrieAutocomplete.text item) item uniqueMap
                           | Some old =>
                               if (FuzzyTrieAutocomplete.frequency old
                                   <? FuzzyTrieAutocomplete.frequency item)%Z
                               then FuzzyTrieAutocomplete.map_set
                                      (FuzzyTrieAutocomplete.text item) item uniqueMap
                               else uniqueMap
                           end) l m)) ->
             In x l \/ In x (map snd m)).
  { clear l. induction l as [|item r IH]; intros m; simpl; [auto|].
    intros H. apply IH in H. destruct H as [H|H]; [auto|].
    destruct (FuzzyTrieAutocomplete.map_get _ m) as [old|].
    - destruct (_ <? _)%Z; [|auto].
      apply in_map_set in H. destruct H as [->|H]; auto.
    - apply in_map_set in H. destruct H as [->|H]; auto. }
  intros H. apply G in H. destruct H as [H|[]]. assumption.
Qed.

Lemma mapResult_throw {A B : Type} (f : A -> JsResult B) (l : list A) :
  Exists (fun x => f x = Throw TypeError) l ->
  Forall (fun x => forall e, f x = Throw e -> e = TypeError) l ->
  FuzzyMatcher.mapResult f l = Throw TypeError.
Proof.
  intros H Ht. induction H as [x r Hx|x r _ IH]; simpl.
  - now rewrite Hx.
  - inversion Ht as [|? ? Hx Hr]; subst.
    destruct (f x) as [y|e] eqn:E.
    + now rewrite (IH Hr).
    + now rewrite (Hx e eq_refl).
Qed.

Lemma Forall2_map_l {A B : Type} (f : B -> A) (l : list A) (ys : list B) :
  Forall2 (fun x y => f y = x) l ys -> map f ys = l.
Proof. induction 1; simpl; congruence. Qed.

Lemma textOf_cases {C : Type} (shape : C -> FuzzyMatcher.CandidateShape) (c : C) :
  (shape c = FuzzyMatcher.HasText [] /\ FuzzyMatcher.textOf shape c = Throw TypeError)
  \/ (shape c <> FuzzyMatcher.HasText []
      /\ exists text, FuzzyMatcher.textOf shape c = Ok text).
Proof.
  unfold FuzzyMatcher.textOf. destruct (shape c) as [s|text].
  - right. split; [discriminate|eauto].
  - destruct text as [|x text]; [left; auto|].
    right. split; [discriminate|simpl; eauto].
Qed.

(** [rankMatchesWithInfo(query, candidates)], for a query that is not empty:
    it throws a TypeError when some candidate is an object whose [text] is
    the empty string; when none is, it returns one record for each
    candidate (a string, the empty one too, or an object with a text),
    holding the candidate, the distance and the variation that
    [findBestMatchingVariation] finds for its text and that distance divided
    by the longer of the lengths of the query and the text, in the order of
    their scores, the lowest first. *)
Theorem rankMatchesWithInfo_result {C : Type}
        (shape : C -> FuzzyMatcher.CandidateShape)
        (self : FuzzyMatcher.t) (query : jsstring) (candidates : list C) :
  query <> [] ->
  (Exists (fun c => shape c = FuzzyMatcher.HasText []) candidates ->
   FuzzyMatcher.rankMatchesWithInfo shape self query candidates = Throw TypeError)
  /\ (Forall (fun c => shape c <> FuzzyMatcher.HasText []) candidates ->
      exists ranked,
        FuzzyMatcher.rankMatchesWithInfo shape self query candidates = Ok ranked
        /\ Permutation (map FuzzyMatcher.candidate ranked) candidates
        /\ StronglySorted
             (fun a b => (FuzzyMatcher.score a <= FuzzyMatcher.score b)%Q) ranked
        /\ Forall
             (fun r =>
                exists text,
                  FuzzyMatcher.textOf shape (FuzzyMatcher.candidate r) = Ok text
                  /\ FuzzyMatcher.md_distance (FuzzyMatcher.matchInfo r)
                     = FuzzyMatcher.distance
                         (FuzzyMatcher.findBestMatchingVariation self query text)
                  /\ FuzzyMatcher.matchedVariation (FuzzyMatcher.matchInfo r)
                     = FuzzyMatcher.variation
                         (FuzzyMatcher.findBestMatchingVariation self query text)
                  /\ FuzzyMatcher.score r
                     = (Z.of_nat
                          (FuzzyMatcher.distance
                             (FuzzyMatcher.findBestMatchingVariation self query text))
                        # Pos.of_nat (Nat.max (length query) (length text)))%Q)
             ranked).
Proof.
  intros Hq. unfold FuzzyMatcher.rankMatchesWithInfo.
  destruct query as [|q0 q]; [congruence|]. cbn [is_empty orb]. split.
  - intros Hex. destruct candidates as [|c cs]; [inversion Hex|].
    cbn [length Nat.eqb].
    rewrite mapResult_throw; [reflexivity| |].
    + eapply Exists_impl; [|exact Hex]. intros x Hx.
      unfold FuzzyMatcher.withScore, FuzzyMatcher.textOf. now rewrite Hx.
    + apply Forall_forall. intros x _ e. unfold FuzzyMatcher.withScore.
      destruct (textOf_cases shape x) as [[_ ->]|[_ [text ->]]];
        [congruence|discriminate].
  - intros Hall. destruct candidates as [|c cs] eqn:Ec.
    { exists []. repeat split; constructor. }
    cbn [length Nat.eqb]. rewrite <- Ec in *. clear Ec c cs.
    destruct (mapResult_total (FuzzyMatcher.withScore shape self (q0 :: q))
                candidates) as [withScores Hmap].
    { intros x Hx. rewrite Forall_forall in Hall. specialize (Hall x Hx).
      unfold FuzzyMatcher.withScore.
      destruct (textOf_cases shape x) as [[E _]|[_ [text ->]]];
        [contradiction|eauto]. }
    rewrite Hmap. eexists. split; [reflexivity|].
    apply mapResult_ok in Hmap.
    assert (Hcand : map FuzzyMatcher.candidate withScores = candidates).
    { apply Forall2_map_l. eapply Forall2_impl; [|exact Hmap].
      intros x y Hxy. unfold FuzzyMatcher.withScore in Hxy.
      destruct (FuzzyMatcher.textOf shape x); [|discriminate].
      injection Hxy as <-. reflexivity. }
    split; [|split].
    + rewrite <- Hcand. apply Permutation_map, js_sort_perm.
    + eapply StronglySorted_weaken; [|apply js_sort_sorted].
      * intros x y Hxy. apply score_diff_le. exact Hxy.
      * intros x y. apply score_diff_total.
      * intros x y z. apply score_diff_trans.
    + apply Forall_forall. intros r Hr. apply js_sort_in in Hr.
      apply Forall2_flip in Hmap.
      destruct (Forall2_in_l _ _ _ r Hmap Hr) as [x [_ Hx]].
      unfold FuzzyMatcher.withScore in Hx.
      destruct (FuzzyMatcher.textOf shape x) as [text|] eqn:Et; [|discriminate].
      injection Hx as <-. exists text. cbn. repeat split. exact Et.
Qed.

Lemma rankMatchesWithInfo_result_witness :
  js "a" <> []
  /\ rankMatchesWithInfo_strings_example
     = Ok [ {| FuzzyMatcher.candidate := js "ab";
               FuzzyMatcher.score := 1 # 2;
               FuzzyMatcher.matchInfo :=
                 {| FuzzyMatcher.md_distance := 1;
                    FuzzyMatcher.matchedVariation := js "a" |} |};
            {| FuzzyMatcher.candidate := [];
               FuzzyMatcher.score := 1 # 1;
               FuzzyMatcher.matchInfo :=
                 {| FuzzyMatcher.md_distance := 1;
                    FuzzyMatcher.matchedVariation := js "a" |} |} ]
  /\ exists ranked,
      rankMatchesWithInfo_strings_example = Ok ranked
      /\ Permutation (map FuzzyMatcher.candidate ranked) [js "ab"; []].
Proof.
  assert (H : js "a" <> []) by discriminate.
  split; [exact H|]. split; [reflexivity|].
  destruct (proj2 (rankMatchesWithInfo_result FuzzyMatcher.IsString
                     (FuzzyMatcher.new (Some 0)) (js "a") [js "ab"; []] H))
    as [ranked [Hr [Hp _]]].
  - repeat constructor; discriminate.
  - exists ranked. split; assumption.
Defined.

Lemma compareSuggestions_le (a b : Suggestion.t) :
  (EnhancedTrie.compareSuggestions a b <= 0)%Z <-> ranks_before a b.
Proof.
  unfold EnhancedTrie.compareSuggestions, ranks_before.
  destruct (Z.eqb_spec (Suggestion.frequency b - Suggestion.frequency a) 0);
    simpl; lia.
Qed.

Lemma compareSuggestions_total (a b : Suggestion.t) :
  (0 < EnhancedTrie.compareSuggestions a b)%Z ->
  (EnhancedTrie.compareSuggestions b a <= 0)%Z.
Proof.
  unfold EnhancedTrie.compareSuggestions.
  destruct (Z.eqb_spec (Suggestion.frequency b - Suggestion.frequency a) 0);
    destruct (Z.eqb_spec (Suggestion.frequency a - Suggestion.frequency b) 0);
    simpl; lia.
Qed.

Lemma compareSuggestions_trans (a b c : Suggestion.t) :
  (EnhancedTrie.compareSuggestions a b <= 0)%Z ->
  (EnhancedTrie.compareSuggestions b c <= 0)%Z ->
  (EnhancedTrie.compareSuggestions a c <= 0)%Z.
Proof.
  rewrite !compareSuggestions_le. unfold ranks_before. lia.
Qed.

(** What [EnhancedTrie.autocomplete] returns are the texts of the first
    [limit] of the candidates collected under the prefix, put in order: the
    higher frequency first, and among equal frequencies the later timestamp
    first. *)
Theorem autocomplete_by_frequency_then_recency
        (prefix : jsstring) (limit : option nat) (self : EnhancedTrie.t) :
  exists ranked,
    Permutation ranked (lookupByPrefix prefix self)
    /\ StronglySorted ranks_before ranked
    /\ EnhancedTrie.autocomplete prefix limit self
       = map Suggestion.text
           (firstn (match limit with Some l => l | None => 10 end) ranked).
Proof.
  exists (js_sort EnhancedTrie.compareSuggestions (lookupByPrefix prefix self)).
  split; [apply js_sort_perm|]. split.
  - eapply StronglySorted_weaken; [|apply js_sort_sorted].
    + intros x y. apply compareSuggestions_le.
    + apply compareSuggestions_total.
    + apply compareSuggestions_trans.
  - apply autocomplete_lookupByPrefix.
Qed.

(** *** Merging the hits by text *)

Lemma mergeByText_fold (l : list FuzzyTrieAutocomplete.Candidate) :
  FuzzyTrieAutocomplete.mergeByText l = map snd (fold_left merge_step l []).
Proof. reflexivity. Qed.

Section UniqueMap.
Import FuzzyTrieAutocomplete.
Implicit Types (m : list (jsstring * Candidate)) (v : Candidate) (key : jsstring).

Lemma map_get_none key m : map_get key m = None <-> ~ In key (map fst m).
Proof.
  induction m as [|[k w] r IH]; simpl; [tauto|].
  destruct (jsstring_eqb k key) eqn:E.
  - apply jsstring_eqb_eq in E. split; [discriminate|]. intros H. exfalso. auto.
  - apply jsstring_eqb_neq in E. rewrite IH. tauto.
Qed.

Lemma map_get_in key m v : map_get key m = Some v -> In (key, v) m.
Proof.
  induction m as [|[k w] r IH]; simpl; [discriminate|].
  destruct (jsstring_eqb k key) eqn:E.
  - apply jsstring_eqb_eq in E. intros H; injection H as ->. subst. now left.
  - intros H. right. auto.
Qed.

Lemma map_get_set_same key v m : map_get key (map_set key v m) = Some v.
Proof.
  induction m as [|[k w] r IH]; simpl.
  - now rewrite jsstring_eqb_refl.
  - destruct (jsstring_eqb k key) eqn:E; simpl; rewrite E; auto.
Qed.

Lemma map_get_set_other key key' v m :
  key <> key' -> map_get key' (map_set key v m) = map_get key' m.
Proof.
  intros Hne. induction m as [|[k w] r IH]; simpl.
  - apply jsstring_eqb_neq in Hne. now rewrite Hne.
  - destruct (jsstring_eqb k key) eqn:E; simpl.
    + apply jsstring_eqb_eq in E. subst.
      apply jsstring_eqb_neq in Hne. now rewrite Hne.
    + now rewrite IH.
Qed.

Lemma map_set_keys key v m :
  map fst (map_set key v m)
  = if existsb (jsstring_eqb key) (map fst m) then map fst m
    else map fst m ++ [key].
Proof.
  induction m as [|[k w] r IH]; simpl; [reflexivity|].
  destruct (jsstring_eqb k key) eqn:E; simpl.
  - apply jsstring_eqb_eq in E. subst. now rewrite jsstring_eqb_refl.
  - assert (E' : jsstring_eqb key k = false).
    { apply jsstring_eqb_neq. apply jsstring_eqb_neq in E. congruence. }
    rewrite E', IH. simpl. destruct (existsb _ _); reflexivity.
Qed.

Lemma map_set_ok v m : map_ok m -> map_ok (map_set (text v) v m).
Proof.
  intros [Hn Hf]. split.
  - rewrite map_set_keys.
    destruct (existsb (jsstring_eqb (text v)) (map fst m)) eqn:E; [assumption|].
    apply NoDup_app; [assumption|repeat constructor; intros []|].
    intros k Hk [Hkv|[]]. subst k.
    assert (E' : existsb (jsstring_eqb (text v)) (map fst m) = true).
    { apply existsb_exists. exists (text v).
      split; [assumption|apply jsstring_eqb_refl]. }
    congruence.
  - clear Hn. induction Hf as [|[k w] r Hk Hr IH]; simpl.
    + repeat constructor.
    + destruct (jsstring_eqb k (text v)) eqn:E; constructor; auto.
      simpl. apply jsstring_eqb_eq in E. exact E.
Qed.

Lemma merge_step_ok m item : map_ok m -> map_ok (merge_step m item).
Proof.
  intros H. unfold merge_step.
  destruct (map_get (text item) m) as [old|];
    [destruct (_ <? _)%Z|]; auto using map_set_ok.
Qed.

Lemma merge_step_covers_item m item : covered (merge_step m item) item.
Proof.
  unfold covered, merge_step.
  destruct (map_get (text item) m) as [old|] eqn:E.
  - destruct (Z.ltb_spec (frequency old) (frequency item)).
    + exists item. rewrite map_get_set_same. split; [reflexivity|lia].
    + exists old. split; [assumption|lia].
  - exists item. rewrite map_get_set_same. split; [reflexivity|lia].
Qed.

Lemma merge_step_keeps_covered m item x :
  covered m x -> covered (merge_step m item) x.
Proof.
  intros [y [Hy Hle]]. unfold covered, merge_step.
  destruct (list_eq_dec ascii_dec (text item) (text x)) as [E|E].
  - rewrite E, Hy. destruct (Z.ltb_spec (frequency y) (frequency item)).
    + exists item. rewrite <- E, map_get_set_same. split; [reflexivity|lia].
    + exists y. auto.
  - destruct (map_get (text item) m) as [old|];
      [destruct (_ <? _)%Z|]; exists y;
      rewrite ?map_get_set_other by assumption; auto.
Qed.

Lemma fold_merge_step (l : list Candidate) m :
  map_ok m ->
  map_ok (fold_left merge_step l m)
  /\ (forall x, In x l \/ covered m x -> covered (fold_left merge_step l m) x).
Proof.
  revert m; induction l as [|item l IH]; intros m Hm; simpl.
  - split; [assumption|]. intros x [[]|H]. exact H.
  - destruct (IH _ (merge_step_ok m item Hm)) as [Hok Hcov].
    split; [assumption|]. intros x [[<-|Hx]|Hx]; apply Hcov.
    + right. apply merge_step_covers_item.
    + now left.
    + right. apply merge_step_keeps_covered. assumption.
Qed.
End UniqueMap.

(** The merged hits hold every text once: each is one of the hits, no two
    have the same text, and every hit is represented by a merged hit of its
    text whose frequency is at least as high. *)
Theorem mergeByText_deduplicates
        (allSuggestions : list FuzzyTrieAutocomplete.Candidate) :
  NoDup (map FuzzyTrieAutocomplete.text
           (FuzzyTrieAutocomplete.mergeByText allSuggestions))
  /\ (forall y, In y (FuzzyTrieAutocomplete.mergeByText allSuggestions) ->
                In y allSuggestions)
  /\ (forall x, In x allSuggestions ->
                exists y,
                  In y (FuzzyTrieAutocomplete.mergeByText allSuggestions)
                  /\ FuzzyTrieAutocomplete.text y = FuzzyTrieAutocomplete.text x
                  /\ (FuzzyTrieAutocomplete.frequency x
                      <= FuzzyTrieAutocomplete.frequency y)%Z).
Proof.
  destruct (fold_merge_step allSuggestions [])
    as [[Hn Hf] Hcov]; [split; constructor|].
  rewrite mergeByText_fold. split; [|split].
  - replace (map FuzzyTrieAutocomplete.text
               (map snd (fold_left merge_step allSuggestions [])))
      with (map fst (fold_left merge_step allSuggestions [])); [assumption|].
    rewrite map_map. apply map_ext_in. intros kv Hkv.
    rewrite Forall_forall in Hf. exact (Hf kv Hkv).
  - rewrite <- mergeByText_fold. apply in_mergeByText.
  - intros x Hx. destruct (Hcov x (or_introl Hx)) as [y [Hy Hle]].
    apply map_get_in in Hy. exists y. split; [|split].
    + apply in_map_iff. exists (FuzzyTrieAutocomplete.text x, y). auto.
    + rewrite Forall_forall in Hf. symmetry. exact (Hf _ Hy).
    + exact Hle.
Qed.

(** ** Objects as association lists *)

Section ObjectLemmas.
Context {N : Type}.
Implicit Types (l : list (ascii * N)) (c k : ascii) (n m : N).

Lemma get_child_none l c : get_child c l = None <-> ~ In c (map fst l).
Proof.
  induction l as [|[k m] r IH]; simpl; [tauto|].
  destruct (Ascii.eqb k c) eqn:E.
  - apply Ascii.eqb_eq in E. split; [discriminate|]. intros H. exfalso. auto.
  - apply Ascii.eqb_neq in E. rewrite IH. tauto.
Qed.

Lemma set_child_keys l c n : map fst (set_child c n l) = map fst l.
Proof.
  induction l as [|[k m] r IH]; simpl; [reflexivity|].
  destruct (Ascii.eqb k c); simpl; [reflexivity|now rewrite IH].
Qed.

Lemma add_child_keys_perm l c n :
  Permutation (map fst (add_child c n l)) (c :: map fst l).
Proof.
  induction l as [|[k m] r IH]; simpl; [reflexivity|].
  destruct (is_index_key c && _); simpl; [reflexivity|].
  rewrite IH. apply perm_swap.
Qed.

Lemma enumerated_before_trans (a b c : ascii) :
  enumerated_before a b = true -> enumerated_before c b = false ->
  enumerated_before c a = false.
Proof.
  unfold enumerated_before.
  destruct (is_index_key a), (is_index_key b), (is_index_key c); simpl;
    try discriminate; try reflexivity.
  rewrite !Nat.ltb_lt, !Nat.ltb_ge. lia.
Qed.

Lemma enumerated_before_asym (a b : ascii) :
  enumerated_before a b = true -> enumerated_before b a = false.
Proof.
  unfold enumerated_before.
  destruct (is_index_key a), (is_index_key b); simpl;
    try discriminate; try reflexivity.
  rewrite Nat.ltb_lt, Nat.ltb_ge. lia.
Qed.

(** A new key goes where [for ... in] will list it. *)
Lemma add_child_in_order l c n :
  keys_in_order (map fst l) -> get_child c l = None ->
  keys_in_order (map fst (add_child c n l)).
Proof.
  intros [Hn Hs] Hc. split.
  - apply (Permutation_NoDup (l := c :: map fst l));
      [symmetry; apply add_child_keys_perm|].
    constructor; [now apply get_child_none|assumption].
  - clear Hn Hc. induction l as [|[k m] r IH]; simpl.
    + repeat constructor.
    + simpl in Hs. inversion Hs as [|? ? Hr Hk]; subst.
      fold (enumerated_before c k).
      destruct (enumerated_before c k) eqn:E; simpl.
      * constructor; [assumption|]. constructor.
        -- now apply enumerated_before_asym.
        -- rewrite Forall_forall in *. intros q Hq.
           eapply enumerated_before_trans; eauto.
      * constructor; [auto|].
        rewrite Forall_forall in *. intros q Hq.
        apply (Permutation_in _ (add_child_keys_perm r c n)) in Hq.
        destruct Hq as [<-|Hq]; auto.
Qed.

(** A key that [for ... in] lists last is added at the end. *)
Lemma add_child_last l c n :
  keys_in_order (map fst l ++ [c]) -> add_child c n l = l ++ [(c, n)].
Proof.
  intros [_ Hs]. induction l as [|[k m] r IH]; simpl; [reflexivity|].
  simpl in Hs. inversion Hs as [|? ? Hr Hk]; subst.
  fold (enumerated_before c k).
  rewrite Forall_forall in Hk. rewrite (Hk c) by (apply in_or_app; right; now left).
  now rewrite IH.
Qed.

Lemma keys_in_order_app_l (ks ks' : list ascii) :
  keys_in_order (ks ++ ks') -> keys_in_order ks.
Proof.
  intros [Hn Hs]. split.
  - now apply NoDup_app_remove_r in Hn.
  - clear Hn. induction ks as [|k r IH]; [constructor|].
    simpl in Hs. inversion Hs as [|? ? Hr Hk]; subst.
    constructor; [auto|].
    rewrite Forall_forall in *. intros q Hq. apply Hk. apply in_or_app. now left.
Qed.
End ObjectLemmas.

(** Assigning the entries of an object, in order, to an empty object gives
    the object again. *)
Lemma assign_all_in_order {A B : Type} (g : A -> B) (l : list (ascii * A))
      (done : list (ascii * A)) :
  keys_in_order (map fst (done ++ l)) ->
  fold_left (fun acc kc => assign_child (fst kc) (g (snd kc)) acc) l
            (map (fun kc => (fst kc, g (snd kc))) done)
  = map (fun kc => (fst kc, g (snd kc))) (done ++ l).
Proof.
  revert done; induction l as [|[c a] r IH]; intros done H;
    cbn [fold_left fst snd].
  - now rewrite app_nil_r.
  - assert (Hd : keys_in_order (map fst (done ++ [(c, a)]))).
    { replace (done ++ (c, a) :: r) with ((done ++ [(c, a)]) ++ r) in H
        by (rewrite <- app_assoc; reflexivity).
      rewrite map_app in H. apply keys_in_order_app_l in H. exact H. }
    assert (Hkeys : map fst (map (fun kc : ascii * A => (fst kc, g (snd kc))) done)
                    = map fst done).
    { rewrite map_map. reflexivity. }
    assert (Hnone : get_child c (map (fun kc : ascii * A => (fst kc, g (snd kc))) done)
                    = None).
    { apply get_child_none. rewrite Hkeys.
      destruct Hd as [Hn _]. rewrite map_app in Hn. simpl in Hn.
      intros Hin. apply NoDup_remove_2 in Hn. apply Hn.
      rewrite app_nil_r. exact Hin. }
    assert (Hassign :
              assign_child c (g a)
                (map (fun kc : ascii * A => (fst kc, g (snd kc))) done)
              = map (fun kc : ascii * A => (fst kc, g (snd kc))) done
                ++ [(c, g a)]).
    { unfold assign_child. rewrite Hnone. apply add_child_last.
      rewrite Hkeys. rewrite map_app in Hd. exact Hd. }
    rewrite Hassign.
    replace (map (fun kc : ascii * A => (fst kc, g (snd kc))) done ++ [(c, g a)])
      with (map (fun kc : ascii * A => (fst kc, g (snd kc))) (done ++ [(c, a)]))
      by (rewrite map_app; reflexivity).
    rewrite IH.
    + now rewrite <- app_assoc.
    + now rewrite <- app_assoc.
Qed.

(** ** Serializing a trie *)

Lemma assignEach_reads {S A B : Type} (f : A -> M S B) (g : A -> B)
      (l : list (ascii * A)) (acc : list (ascii * B)) (s : S) :
  Forall (fun kc => f (snd kc) s = (Ok (g (snd kc)), s)) l ->
  assignEach f l acc s
  = (Ok (fold_left (fun acc kc => assign_child (fst kc) (g (snd kc)) acc) l acc), s).
Proof.
  intros H. revert acc. induction H as [|[c a] r Ha _ IH]; intros acc.
  - reflexivity.
  - cbn [assignEach fold_left fst snd] in *. unfold bind at 1. rewrite Ha.
    apply IH.
Qed.

Lemma assignEach_results {S A B : Type} (f : A -> M S B)
      (l : list (ascii * A)) (ys : list B) (acc : list (ascii * B)) (s : S) :
  Forall2 (fun kc y => f (snd kc) s = (Ok y, s)) l ys ->
  assignEach f l acc s
  = (Ok (fold_left (fun acc kc => assign_child (fst kc) (snd kc) acc)
           (combine (map fst l) ys) acc), s).
Proof.
  intros H. revert acc. induction H as [|[c a] y r ys Ha _ IH]; intros acc.
  - reflexivity.
  - cbn [assignEach map combine fold_left fst snd] in *. unfold bind at 1.
    rewrite Ha. apply IH.
Qed.

Lemma combine_fst_snd {A B : Type} (l : list (A * B)) :
  combine (map fst l) (map snd l) = l.
Proof. induction l as [|[a b] r IH]; simpl; congruence. Qed.

Lemma serialized_of_children (n : TrieNode.t) :
  Serialized.children (serialized_of n)
  = map (fun kc => (fst kc, serialized_of (snd kc))) (children n).
Proof.
  destruct n as [ch e s f l]. simpl.
  induction ch as [|[k c] r IH]; simpl; [reflexivity|]. now rewrite IH.
Qed.

Section SerializeLemmas.
Variable clock : nat -> Z.
Variable scope : DataManager.Scope.

Lemma serializeNode_eq (node : TrieNode.t) :
  DataManager.serializeNode clock node
  = bind (if isEndOfWord node
          then
            bind (if (lastUsed node =? 0)%Z then DataManager.dateNow clock
                  else ret (lastUsed node))
              (fun lastUsed =>
                 ret (Some (fullSentence node),
                      Some (DataManager.orElse (frequency node) 1),
                      Some lastUsed))
          else ret (None, None, None))
      (fun own =>
    bind (assignEach (DataManager.serializeNode clock) (children node) [])
      (fun children =>
    ret {| Serialized.children := children;
           Serialized.isEndOfWord := isEndOfWord node;
           Serialized.fullSentence := fst (fst own);
           Serialized.frequency := snd (fst own);
           Serialized.lastUsed := snd own |})).
Proof. destruct node; reflexivity. Qed.

Lemma deserializeNode_eq (serialized : Serialized.node) :
  DataManager.deserializeNode clock scope serialized
  = bind (if Serialized.isEndOfWord serialized
          then
            bind (match Serialized.lastUsed serialized with
                  | Some l => if (l =? 0)%Z then DataManager.dateNow clock else ret l
                  | None => DataManager.dateNow clock
                  end)
              (fun lastUsed =>
                 ret (match Serialized.fullSentence serialized with
                      | Some s => s
                      | None => []
                      end,
                      match Serialized.frequency serialized with
                      | Some f => DataManager.orElse f 1
                      | None => 1%Z
                      end,
                      lastUsed))
          else ret (fullSentence TrieNode.new, frequency TrieNode.new,
                    lastUsed TrieNode.new))
      (fun own =>
    bind (assignEach
            (fun child =>
               bind (DataManager.new_TrieNode scope)
                    (fun _ => DataManager.deserializeNode clock scope child))
            (Serialized.children serialized) [])
      (fun children =>
    ret {| children := children;
           isEndOfWord := Serialized.isEndOfWord serialized;
           fullSentence := fst (fst own);
           frequency := snd (fst own);
           lastUsed := snd own |})).
Proof. destruct serialized; reflexivity. Qed.

Lemma serializeNode_storable (node : TrieNode.t) :
  all_nodes storable node ->
  forall n, DataManager.serializeNode clock node n = (Ok (serialized_of node), n).
Proof.
  induction node as [node IH] using TrieNode_ind.
  intros Hall n. inversion Hall as [? [Hord [Hterm Hnon]] HF]; subst.
  rewrite serializeNode_eq.
  assert (Hch : assignEach (DataManager.serializeNode clock) (children node) [] n
                = (Ok (Serialized.children (serialized_of node)), n)).
  { rewrite (assignEach_reads _ serialized_of).
    - pose proof (assign_all_in_order serialized_of (children node) [] Hord) as E.
      cbn [map app] in E. rewrite E, serialized_of_children. reflexivity.
    - rewrite Forall_forall in *. intros kc Hkc. apply IH; auto. }
  destruct node as [ch e s f l]. cbn [isEndOfWord children fullSentence
                                       frequency lastUsed] in *.
  destruct e.
  - destruct (Hterm eq_refl) as [Hf Hl].
    apply Z.eqb_neq in Hl. rewrite Hl.
    unfold bind at 1. unfold bind at 1. unfold ret at 1. unfold ret at 1.
    unfold bind at 1. rewrite Hch. unfold ret.
    unfold DataManager.orElse. apply Z.eqb_neq in Hf. rewrite Hf.
    reflexivity.
  - unfold bind at 1. unfold ret at 1. unfold bind at 1. rewrite Hch.
    reflexivity.
Qed.

Lemma deserializeNode_storable (node : TrieNode.t) :
  DataManager.bindsTrieNode scope = true ->
  all_nodes storable node ->
  forall n,
    DataManager.deserializeNode clock scope (serialized_of node) n = (Ok node, n).
Proof.
  intros Hscope.
  induction node as [node IH] using TrieNode_ind.
  intros Hall n. inversion Hall as [? [Hord [Hterm Hnon]] HF]; subst.
  rewrite deserializeNode_eq.
  assert (Hch : assignEach
                  (fun child =>
                     bind (DataManager.new_TrieNode scope)
                          (fun _ => DataManager.deserializeNode clock scope child))
                  (Serialized.children (serialized_of node)) [] n
                = (Ok (children node), n)).
  { rewrite serialized_of_children.
    rewrite (assignEach_results _
               (map (fun kc => (fst kc, serialized_of (snd kc))) (children node))
               (map snd (children node))).
    - rewrite map_map. cbn [fst]. rewrite combine_fst_snd.
      pose proof (assign_all_in_order (fun c : TrieNode.t => c) (children node) []
                    Hord) as E.
      cbn [map app] in E.
      rewrite (map_ext (fun kc : ascii * TrieNode.t => (fst kc, snd kc))
                 (fun kc => kc)) in E by (intros []; reflexivity).
      rewrite map_id in E. rewrite E. reflexivity.
    - rewrite Forall_forall in IH, HF. clear - IH HF Hscope.
      induction (children node) as [|kc r IHr]; simpl; constructor.
      + simpl. unfold bind, DataManager.new_TrieNode. rewrite Hscope.
        unfold ret at 1. apply IH; [now left|]. apply HF. now left.
      + apply IHr; intros; [apply IH|apply HF]; try now right. assumption. }
  destruct node as [ch e s f l]. cbn [isEndOfWord children fullSentence
                                       frequency lastUsed] in *.
  cbn [Serialized.isEndOfWord Serialized.lastUsed Serialized.fullSentence
         Serialized.frequency serialized_of isEndOfWord children fullSentence
         frequency lastUsed] in *.
  destruct e.
  - destruct (Hterm eq_refl) as [Hf Hl].
    apply Z.eqb_neq in Hl. rewrite Hl.
    unfold bind at 1. unfold bind at 1. unfold ret at 1. unfold ret at 1.
    unfold bind at 1. rewrite Hch. unfold ret.
    unfold DataManager.orElse. apply Z.eqb_neq in Hf. rewrite Hf.
    reflexivity.
  - destruct (Hnon eq_refl) as [Hs [Hf Hl]]. subst.
    unfold bind at 1. unfold ret at 1. unfold bind at 1. rewrite Hch.
    reflexivity.
Qed.
End SerializeLemmas.

Lemma all_nodes_insertPath_children (P : TrieNode.t -> Prop)
      (f : TrieNode.t -> TrieNode.t) :
  (forall n, P n -> P (f n)) ->
  (forall n, children (f n) = children n) ->
  (forall n c v, P n -> get_child c (children n) = None ->
                 P (with_children n (add_child c v (children n)))) ->
  (forall n c v, P n -> P (with_children n (set_child c v (children n)))) ->
  P TrieNode.new ->
  forall key node,
    all_nodes P node -> all_nodes P (EnhancedTrie.insertPath key f node).
Proof.
  intros Hf Hch Hadd Hset Hnew.
  induction key as [|c key IH]; intros node Hn; inversion Hn as [? HP HF]; subst.
  - simpl. constructor; [auto|]. now rewrite Hch.
  - cbn [EnhancedTrie.insertPath].
    destruct (get_child c (children node)) as [child|] eqn:E.
    + constructor; [auto|]. cbn [children with_children].
      apply Forall_set_child; [assumption|]. intros k. simpl. apply IH.
      apply get_child_in in E.
      rewrite Forall_forall in HF. apply (HF _ E).
    + constructor; [auto|]. cbn [children with_children].
      apply Forall_add_child; [assumption|]. simpl. apply IH.
      apply all_nodes_new. assumption.
Qed.

Lemma all_nodes_and (P Q : TrieNode.t -> Prop) (node : TrieNode.t) :
  all_nodes P node -> all_nodes Q node -> all_nodes (fun n => P n /\ Q n) node.
Proof.
  induction node as [node IH] using TrieNode_ind.
  intros HP HQ. inversion HP as [? Hp HFp]; inversion HQ as [? Hq HFq]; subst.
  constructor; [auto|].
  rewrite Forall_forall in *. intros kc Hkc. apply IH; auto.
Qed.

Lemma well_kept_new : well_kept TrieNode.new.
Proof.
  repeat split; simpl; try lia; try discriminate; constructor.
Qed.

Lemma well_kept_insertPath (f : TrieNode.t -> TrieNode.t) key node :
  (forall n, well_kept n -> well_kept (f n)) ->
  (forall n, children (f n) = children n) ->
  all_nodes well_kept node ->
  all_nodes well_kept (EnhancedTrie.insertPath key f node).
Proof.
  intros Hf Hch. apply all_nodes_insertPath_children; try assumption.
  - intros n c v [Hk Hrest] Hc. split; [|exact Hrest].
    cbn [children with_children]. now apply add_child_in_order.
  - intros n c v [Hk Hrest]. split; [|exact Hrest].
    cbn [children with_children]. now rewrite set_child_keys.
  - apply well_kept_new.
Qed.

Lemma update_at_ext (key : jsstring) (f g : TrieNode.t -> TrieNode.t)
      (node n : TrieNode.t) :
  EnhancedTrie.walk key node = Some n -> f n = g n ->
  EnhancedTrie.update_at key f node = EnhancedTrie.update_at key g node.
Proof.
  revert node; induction key as [|c key IH]; intros node; simpl.
  - intros H; injection H as ->. auto.
  - destruct (get_child c (children node)) as [child|]; [|discriminate].
    intros Hw Hfg. now rewrite (IH child Hw Hfg).
Qed.

Lemma reachable_well_kept (self : EnhancedTrie.t) :
  reachable self -> all_nodes well_kept (EnhancedTrie.root self).
Proof.
  induction 1 as [|sentence now self _ IH|sentence now self _ IH].
  - apply all_nodes_new, well_kept_new.
  - destruct sentence as [|c s]; [exact IH|].
    rewrite insert_root by discriminate.
    apply well_kept_insertPath; [|reflexivity|assumption].
    intros n [Hk [H0 [H1 H2]]].
    split; [exact Hk|]. split; [simpl; lia|]. split; [simpl; intros _; lia|].
    simpl. discriminate.
  - destruct (recordSelection_cases sentence now self) as [->|[_ [Hsel ->]]];
      [assumption|].
    cbn [EnhancedTrie.root].
    destruct Hsel as [node [Hw [He _]]].
    rewrite (insertPath_update_at _ _ _ _ Hw).
    rewrite (update_at_ext _ _
               (fun n => if isEndOfWord n then EnhancedTrie.bump now n else n)
               _ _ Hw) by (now rewrite He).
    rewrite <- (insertPath_update_at _ _ _ _ Hw).
    apply well_kept_insertPath; [| |assumption].
    + intros n Hn. destruct (isEndOfWord n) eqn:En; [|exact Hn].
      destruct Hn as [Hk [H0 [H1 H2]]].
      split; [exact Hk|]. split; [simpl; lia|].
      split; [simpl; intros _; lia|]. simpl. congruence.
    + intros n. destruct (isEndOfWord n); reflexivity.
Qed.

Lemma stamped_insert (sentence : jsstring) (now : Z) (self : EnhancedTrie.t) :
  now <> 0%Z ->
  all_nodes stamped (EnhancedTrie.root self) ->
  all_nodes stamped (EnhancedTrie.root (EnhancedTrie.insert sentence now self)).
Proof.
  intros Hnow H. destruct sentence as [|c s]; [exact H|].
  rewrite insert_root by discriminate.
  apply all_nodes_insertPath; try assumption.
  - intros n _ _. exact Hnow.
  - reflexivity.
  - intros n ch Hn. exact Hn.
  - discriminate.
Qed.

(** For a trie that [insert] and [recordSelection] made of the empty trie,
    with timestamps other than 0 on its terminal nodes, [serializeTrie]
    returns, without reading the clock, data that hold the whole trie: where
    the global scope binds [EnhancedTrie] and [TrieNode], [deserializeTrie]
    gives back from them the very trie, every node with its children in
    their order, its flag, text, frequency and timestamp, and the counter of
    insertions, without reading the clock either.  Where the scope does not
    bind [EnhancedTrie], as in the repository, [deserializeTrie] throws a
    ReferenceError whatever it is given. *)
Theorem serialize_deserialize_round_trip
        (clock : nat -> Z) (scope : DataManager.Scope)
        (self : EnhancedTrie.t) (n : nat) :
  reachable self ->
  all_nodes stamped (EnhancedTrie.root self) ->
  exists data,
    DataManager.serializeTrie clock (Some self) n = (Ok (Some data), n)
    /\ (DataManager.bindsEnhancedTrie scope = true ->
        DataManager.bindsTrieNode scope = true ->
        DataManager.deserializeTrie clock scope (Some data) n = (Ok self, n))
    /\ (DataManager.bindsEnhancedTrie scope = false ->
        forall data',
          DataManager.deserializeTrie clock scope data' n
          = (Throw ReferenceError, n)).
Proof.
  intros Hr Hs.
  assert (Hst : all_nodes storable (EnhancedTrie.root self)).
  { eapply all_nodes_impl;
      [|apply (all_nodes_and _ _ _ (reachable_well_kept self Hr) Hs)].
    intros node [[Hk [H0 [H1 H2]]] Hstamp]. repeat split; auto.
    - apply Hk.
    - apply Hk.
    - apply (H2 H).
    - apply (H2 H).
    - apply (H2 H). }
  exists {| Serialized.root := serialized_of (EnhancedTrie.root self);
            Serialized.totalInsertions := EnhancedTrie.totalInsertions self |}.
  assert (Hor : forall x, DataManager.orElse x 0 = x).
  { intros x. unfold DataManager.orElse. destruct (Z.eqb_spec x 0); congruence. }
  split; [|split].
  - unfold DataManager.serializeTrie, bind, ret.
    rewrite (serializeNode_storable clock _ Hst n), Hor. reflexivity.
  - intros He Hn.
    unfold DataManager.deserializeTrie, DataManager.new_EnhancedTrie, bind, ret.
    rewrite He. cbn [Serialized.root Serialized.totalInsertions].
    rewrite (deserializeNode_storable clock scope _ Hn Hst n), Hor.
    destruct self. reflexivity.
  - intros He data'.
    unfold DataManager.deserializeTrie, DataManager.new_EnhancedTrie, bind.
    rewrite He. destruct data'; reflexivity.
Qed.

Lemma serialize_deserialize_round_trip_witness :
  reachable (EnhancedTrie.insert (js "Hi 5") 1700 EnhancedTrie.new)
  /\ all_nodes stamped
       (EnhancedTrie.root (EnhancedTrie.insert (js "Hi 5") 1700 EnhancedTrie.new))
  /\ exists data,
      DataManager.serializeTrie (fun _ => 0%Z)
        (Some (EnhancedTrie.insert (js "Hi 5") 1700 EnhancedTrie.new)) 0
      = (Ok (Some data), 0)
      /\ forall data',
          DataManager.deserializeTrie (fun _ => 0%Z) DataManager.repository data' 0
          = (Throw ReferenceError, 0).
Proof.
  assert (Hr : reachable (EnhancedTrie.insert (js "Hi 5") 1700 EnhancedTrie.new))
    by (repeat constructor).
  assert (Hs : all_nodes stamped
                 (EnhancedTrie.root
                    (EnhancedTrie.insert (js "Hi 5") 1700 EnhancedTrie.new))).
  { apply stamped_insert; [discriminate|]. apply all_nodes_new. discriminate. }
  split; [exact Hr|]. split; [exact Hs|].
  destruct (serialize_deserialize_round_trip (fun _ => 0%Z) DataManager.repository
              _ 0 Hr Hs) as [data [Hser [_ Hthrow]]].
  exists data. split; [exact Hser|]. exact (Hthrow eq_refl).
Defined.

(** ** Every state of the trie is the state of some heap *)

Lemma distinct_NoDup (keys : list ascii) : NoDup keys -> distinct keys = true.
Proof.
  induction 1 as [|k rest Hk _ IH]; [reflexivity|].
  simpl. rewrite IH, andb_true_r, negb_true_iff.
  destruct (existsb (Ascii.eqb k) rest) eqn:E; [|reflexivity].
  apply existsb_exists in E. destruct E as [k' [Hin Ek]].
  apply Ascii.eqb_eq in Ek. subst k'. contradiction.
Qed.

Lemma store_eq (node : TrieNode.t) (h : Heap.t) :
  store node h
  = let stored :=
      fold_left
        (fun acc kc =>
           (fst acc ++ [(fst kc, fst (store (snd kc) (snd acc)))],
            snd (store (snd kc) (snd acc))))
        (children node) ([], h) in
    (length (snd stored),
     snd stored
     ++ [Heap.Node {| Heap.children := fst stored;
                      Heap.isEndOfWord := isEndOfWord node;
                      Heap.fullSentence := fullSentence node;
                      Heap.frequency := frequency node;
                      Heap.lastUsed := lastUsed node |}]).
Proof.
  destruct node as [cs e s f l]. cbn [store children isEndOfWord fullSentence
                                        frequency lastUsed].
  set (each := fix each (cs : list (ascii * TrieNode.t)) (h : Heap.t)
                 : list (ascii * Heap.ref) * Heap.t :=
                 match cs with
                 | [] => ([], h)
                 | (k, c) :: cs' =>
                     let first := store c h in
                     let rest := each cs' (snd first) in
                     ((k, fst first) :: fst rest, snd rest)
                 end).
  assert (E : forall cs pre h,
             fold_left
               (fun acc kc =>
                  (fst acc ++ [(fst kc, fst (store (snd kc) (snd acc)))],
                   snd (store (snd kc) (snd acc))))
               cs (pre, h)
             = (pre ++ fst (each cs h), snd (each cs h))).
  { clear. induction cs as [|[k c] cs IH]; intros pre h; simpl.
    - now rewrite app_nil_r.
    - rewrite IH. now rewrite <- app_assoc. }
  rewrite (E cs [] h). reflexivity.
Qed.

(** Storing a node keeps the heap it is given and makes a heap that
    represents the node. *)
Lemma store_represents (node : TrieNode.t) :
  all_nodes (fun n => NoDup (map fst (children n))) node ->
  forall h,
    unchanged h (snd (store node h))
    /\ represents (snd (store node h)) node (fst (store node h)) = true.
Proof.
  induction node as [node IH] using TrieNode_ind.
  intros Hall h. inversion Hall as [? Hkeys HF]; subst.
  rewrite store_eq. cbn [fst snd].
  assert (Hfold : forall cs pre h0,
             Forall (fun kc => In kc (children node)) cs ->
             let stored :=
               fold_left
                 (fun acc kc =>
                    (fst acc ++ [(fst kc, fst (store (snd kc) (snd acc)))],
                     snd (store (snd kc) (snd acc))))
                 cs (pre, h0) in
             unchanged h0 (snd stored)
             /\ exists rs,
                  fst stored = pre ++ rs
                  /\ Forall2 (fun kc kr =>
                                fst kc = fst kr
                                /\ represents (snd stored) (snd kc) (snd kr) = true)
                             cs rs).
  { induction cs as [|[k c] cs IHcs]; intros pre h0 Hin; cbn [fold_left fst snd].
    - split; [apply unchanged_refl|]. exists []. split; [now rewrite app_nil_r|].
      constructor.
    - inversion Hin as [|? ? Hkc Hrest]; subst.
      rewrite Forall_forall in IH, HF.
      destruct (IH _ Hkc (HF _ Hkc) h0) as [Hu Hr]. cbn [snd] in Hu, Hr.
      destruct (IHcs (pre ++ [(k, fst (store c h0))]) (snd (store c h0)) Hrest)
        as [Hu' [rs [Efst HF2]]].
      split; [now apply (unchanged_trans h0 (snd (store c h0)))|].
      exists ((k, fst (store c h0)) :: rs). split.
      + rewrite Efst, <- app_assoc. reflexivity.
      + constructor; [|assumption]. split; [reflexivity|].
        cbn [snd]. now apply (represents_unchanged (snd (store c h0))). }
  destruct (Hfold (children node) [] h) as [Hu [rs [Efst HF2]]].
  { apply Forall_forall. auto. }
  cbn [app] in Efst.
  set (stored := fold_left _ (children node) ([], h)) in *.
  split.
  - apply (unchanged_trans h (snd stored)); [assumption|apply unchanged_app].
  - apply represents_iff. eexists. split.
    + rewrite nth_error_app2 by lia. rewrite Nat.sub_diag. reflexivity.
    + cbn [Heap.isEndOfWord Heap.fullSentence Heap.frequency Heap.lastUsed
             Heap.children].
      repeat split.
      * apply distinct_NoDup. rewrite Efst.
        assert (Ek : map fst rs = map fst (children node)).
        { clear - HF2. induction HF2 as [|kc kr cs rs' [Hk _] _ IHf]; simpl;
            [reflexivity|]. now rewrite IHf, Hk. }
        now rewrite Ek.
      * rewrite Efst. eapply Forall2_impl; [|exact HF2].
        intros kc kr [Hk Hr]. split; [assumption|].
        apply (represents_unchanged (snd stored)); [apply unchanged_app|assumption].
Qed.

(** Every object that [insert] and [recordSelection] can make of a new trie
    is held by a heap. *)
Lemma heap_of_service (self : FuzzyTrieAutocomplete.t) :
  reachable (FuzzyTrieAutocomplete.trie self) ->
  service_at (heap_of self) self (this_of self) = true.
Proof.
  intros Hr.
  assert (Hkeys : all_nodes (fun n => NoDup (map fst (children n)))
                    (EnhancedTrie.root (FuzzyTrieAutocomplete.trie self))).
  { eapply all_nodes_impl; [|apply (reachable_well_kept _ Hr)].
    intros n [[Hnd _] _]. exact Hnd. }
  destruct (store_represents _ Hkeys []) as [_ Hrep].
  set (nodes := store (EnhancedTrie.root (FuzzyTrieAutocomplete.trie self)) []) in *.
  assert (H0 : nth_error (heap_of self) (length (snd nodes))
               = Some (Heap.Trie (fst nodes)
                         (EnhancedTrie.totalInsertions
                            (FuzzyTrieAutocomplete.trie self)))).
  { unfold heap_of. fold nodes. rewrite nth_error_app2 by lia.
    now rewrite Nat.sub_diag. }
  assert (H1 : nth_error (heap_of self) (S (length (snd nodes)))
               = Some (Heap.Matcher
                         (FuzzyMatcher.maxDistance
                            (FuzzyTrieAutocomplete.fuzzyMatcher self)))).
  { unfold heap_of. fold nodes. rewrite nth_error_app2 by lia.
    replace (S (length (snd nodes)) - length (snd nodes)) with 1 by lia.
    reflexivity. }
  assert (H2 : nth_error (heap_of self) (this_of self)
               = Some (Heap.Service (S (length (snd nodes))) (length (snd nodes)))).
  { unfold heap_of, this_of. fold nodes. rewrite nth_error_app2 by lia.
    replace (S (S (length (snd nodes))) - length (snd nodes)) with 2 by lia.
    reflexivity. }
  unfold service_at. rewrite H2, H1. unfold trie_at. rewrite H0.
  rewrite Nat.eqb_refl, Z.eqb_refl. cbn [andb].
  apply (represents_unchanged (snd nodes)); [|assumption].
  unfold heap_of. fold nodes. apply unchanged_app.
Qed.

(** ** Statistics *)

Section SumLemmas.
Variable mu : TrieNode.t -> nat.

Lemma list_sum_add_child (c : ascii) (n : TrieNode.t) l :
  list_sum (map (fun kc => mu (snd kc)) (add_child c n l))
  = mu n + list_sum (map (fun kc => mu (snd kc)) l).
Proof.
  induction l as [|[k m] r IH]; simpl; [reflexivity|].
  destruct (is_index_key c && _); simpl; [reflexivity|]. rewrite IH. lia.
Qed.

Lemma list_sum_set_child_add (c : ascii) (n m : TrieNode.t) l :
  get_child c l = Some m ->
  list_sum (map (fun kc => mu (snd kc)) (set_child c n l)) + mu m
  = list_sum (map (fun kc => mu (snd kc)) l) + mu n.
Proof.
  intros Hg. induction l as [|[k x] r IH]; simpl in *; [discriminate|].
  destruct (Ascii.eqb k c).
  - injection Hg as ->. simpl. lia.
  - simpl. specialize (IH Hg). lia.
Qed.
End SumLemmas.

Lemma missing_le (key : jsstring) (node : TrieNode.t) : missing key node <= length key.
Proof.
  revert node; induction key as [|c key IH]; intros node; simpl; [lia|].
  destruct (get_child c (children node)) as [child|]; [|lia].
  specialize (IH child). lia.
Qed.

Lemma countTotalNodesHelper_insertPath (f : TrieNode.t -> TrieNode.t) key node :
  (forall n, children (f n) = children n) ->
  EnhancedTrie.countTotalNodesHelper (EnhancedTrie.insertPath key f node)
  = EnhancedTrie.countTotalNodesHelper node + missing key node.
Proof.
  intros Hch. revert node; induction key as [|c key IH]; intros node.
  - simpl. rewrite !countTotalNodesHelper_eq, Hch. lia.
  - cbn [EnhancedTrie.insertPath missing].
    destruct (get_child c (children node)) as [child|] eqn:E.
    + rewrite (countTotalNodesHelper_eq (with_children _ _)),
              (countTotalNodesHelper_eq node).
      cbn [children with_children].
      pose proof (list_sum_set_child_add EnhancedTrie.countTotalNodesHelper c
                    (EnhancedTrie.insertPath key f child) child _ E) as H.
      rewrite IH in H. lia.
    + rewrite (countTotalNodesHelper_eq (with_children _ _)),
              (countTotalNodesHelper_eq node).
      cbn [children with_children].
      rewrite list_sum_add_child, IH.
      assert (Hm : missing key TrieNode.new = length key)
        by (destruct key; reflexivity).
      rewrite Hm. simpl. lia.
Qed.

Lemma countNodes_insertPath_markEnd (sentence : jsstring) (now : Z) key node :
  EnhancedTrie.countNodes
    (EnhancedTrie.insertPath key (EnhancedTrie.markEnd sentence now) node)
  = EnhancedTrie.countNodes node
    + match EnhancedTrie.walk key node with
      | Some n => if isEndOfWord n then 0 else 1
      | None => 1
      end.
Proof.
  revert node; induction key as [|c key IH]; intros node.
  - simpl EnhancedTrie.insertPath. simpl EnhancedTrie.walk.
    rewrite !countNodes_eq. simpl. destruct (isEndOfWord node); lia.
  - cbn [EnhancedTrie.insertPath EnhancedTrie.walk].
    destruct (get_child c (children node)) as [child|] eqn:E.
    + rewrite (countNodes_eq (with_children _ _)), (countNodes_eq node).
      cbn [children with_children isEndOfWord].
      pose proof (list_sum_set_child_add EnhancedTrie.countNodes c
                    (EnhancedTrie.insertPath key (EnhancedTrie.markEnd sentence now)
                       child) child _ E) as H.
      rewrite IH in H.
      destruct node; cbn [isEndOfWord children] in *. lia.
    + rewrite (countNodes_eq (with_children _ _)), (countNodes_eq node).
      cbn [children with_children isEndOfWord].
      rewrite list_sum_add_child, IH.
      assert (Hm : match EnhancedTrie.walk key TrieNode.new with
                   | Some n => if isEndOfWord n then 0 else 1
                   | None => 1
                   end = 1) by (destruct key; reflexivity).
      rewrite Hm.
      destruct node; cbn [isEndOfWord children] in *. simpl. lia.
Qed.

(** What [insert] of a sentence that is not empty does to the statistics:
    one more insertion; one more entry unless the key of the sentence was
    stored already; 200 bytes more of the estimate for each node the walk
    had to create, which are at most as many as the sentence has
    characters. *)
Theorem insert_stats (sentence : jsstring) (now : Z) (self : EnhancedTrie.t) :
  sentence <> [] ->
  let before := getStats self in
  let after := getStats (EnhancedTrie.insert sentence now self) in
  let created :=
    missing (EnhancedTrie.processSentence sentence) (EnhancedTrie.root self) in
  Stats.totalInsertions after = (Stats.totalInsertions before + 1)%Z
  /\ Stats.uniqueEntries after
     = Stats.uniqueEntries before + (if stored self sentence then 0 else 1)
  /\ Stats.memoryEstimate after = Stats.memoryEstimate before + 200 * created
  /\ created <= length sentence.
Proof.
  intros Hs. cbv zeta. unfold getStats, estimateMemoryUsage,
    EnhancedTrie.countTotalNodes, EnhancedTrie.countUniqueEntries, stored.
  cbn [Stats.totalInsertions Stats.uniqueEntries Stats.memoryEstimate].
  rewrite insert_root by assumption.
  rewrite countTotalNodesHelper_insertPath by reflexivity.
  rewrite countNodes_insertPath_markEnd.
  split; [destruct sentence; [congruence|reflexivity]|].
  split.
  - destruct (EnhancedTrie.walk _ _) as [n|]; [destruct (isEndOfWord n)|];
      reflexivity.
  - split; [lia|].
    pose proof (missing_le (EnhancedTrie.processSentence sentence)
                  (EnhancedTrie.root self)) as H.
    unfold EnhancedTrie.processSentence in H at 2.
    now rewrite toLowerCase_length in H.
Qed.

Lemma insert_stats_witness :
  js "ab" <> []
  /\ Stats.uniqueEntries
       (getStats (EnhancedTrie.insert (js "ab") 2
                    (EnhancedTrie.insert (js "a") 1 EnhancedTrie.new)))
     = Stats.uniqueEntries
         (getStats (EnhancedTrie.insert (js "a") 1 EnhancedTrie.new))
       + (if stored (EnhancedTrie.insert (js "a") 1 EnhancedTrie.new) (js "ab")
          then 0 else 1).
Proof.
  assert (H : js "ab" <> []) by discriminate.
  split; [exact H|].
  exact (proj1 (proj2 (insert_stats (js "ab") 2
                         (EnhancedTrie.insert (js "a") 1 EnhancedTrie.new) H))).
Defined.

(** [recordSelection] changes none of the statistics, whatever the trie
    and the sentence. *)
Theorem recordSelection_keeps_stats (sentence : jsstring) (now : Z)
        (self : EnhancedTrie.t) :
  getStats (EnhancedTrie.recordSelection sentence now self) = getStats self.
Proof.
  destruct (recordSelection_cases sentence now self) as [->|[_ [Hsel E]]];
    [reflexivity|].
  rewrite E. destruct Hsel as [node [Hw [He _]]].
  unfold getStats, estimateMemoryUsage, EnhancedTrie.countTotalNodes,
    EnhancedTrie.countUniqueEntries.
  cbn [EnhancedTrie.root EnhancedTrie.totalInsertions].
  rewrite (measure_insertPath_present EnhancedTrie.countTotalNodesHelper
             (fun _ => 1) countTotalNodesHelper_eq (fun _ _ => eq_refl)
             (EnhancedTrie.bump now) _ _ node (bump_children now) Hw eq_refl).
  rewrite (measure_insertPath_present EnhancedTrie.countNodes
             (fun n => if isEndOfWord n then 1 else 0) countNodes_eq
             (fun _ _ => eq_refl)
             (EnhancedTrie.bump now) _ _ node (bump_children now) Hw eq_refl).
  reflexivity.
Qed.

Lemma countNodes_le_total (node : TrieNode.t) :
  EnhancedTrie.countNodes node + (if isEndOfWord node then 0 else 1)
  <= EnhancedTrie.countTotalNodesHelper node.
Proof.
  induction node as [node IH] using TrieNode_ind.
  rewrite countNodes_eq, countTotalNodesHelper_eq.
  assert (H : list_sum (map (fun kc => EnhancedTrie.countNodes (snd kc))
                          (children node))
              <= list_sum (map (fun kc => EnhancedTrie.countTotalNodesHelper (snd kc))
                             (children node))).
  { induction IH as [|kc r Hkc _ IHr]; simpl; [lia|].
    destruct (isEndOfWord (snd kc)); lia. }
  destruct (isEndOfWord node); lia.
Qed.

(** In every state reachable from the empty trie the statistics agree with
    each other: there are no more entries than insertions, at least one
    node more than entries (the root stores nothing), and the estimate is
    200 bytes for each node. *)
Theorem reachable_stats (self : EnhancedTrie.t) :
  reachable self ->
  (Z.of_nat (Stats.uniqueEntries (getStats self))
   <= Stats.totalInsertions (getStats self))%Z
  /\ Stats.uniqueEntries (getStats self) + 1 <= EnhancedTrie.countTotalNodes self
  /\ Stats.memoryEstimate (getStats self)
     = 200 * EnhancedTrie.countTotalNodes self.
Proof.
  intros Hr. split; [|split].
  - induction Hr as [|sentence now self _ IH|sentence now self _ IH].
    + simpl. lia.
    + destruct sentence as [|c s]; [exact IH|].
      destruct (insert_stats (c :: s) now self ltac:(discriminate))
        as [Ht [Hu _]].
      rewrite Ht, Hu. destruct (stored self (c :: s)); lia.
    + now rewrite recordSelection_keeps_stats.
  - pose proof (countNodes_le_total (EnhancedTrie.root self)) as H.
    rewrite (reachable_root_not_terminal self Hr) in H.
    unfold getStats, EnhancedTrie.countUniqueEntries, EnhancedTrie.countTotalNodes.
    simpl. lia.
  - unfold getStats, estimateMemoryUsage. simpl. lia.
Qed.

Lemma reachable_stats_witness :
  reachable (EnhancedTrie.insert (js "ab") 2
               (EnhancedTrie.insert (js "ab") 1 EnhancedTrie.new))
  /\ getStats (EnhancedTrie.insert (js "ab") 2
                 (EnhancedTrie.insert (js "ab") 1 EnhancedTrie.new))
     = {| Stats.totalInsertions := 2;
          Stats.uniqueEntries := 1;
          Stats.memoryEstimate := 600 |}
  /\ (Z.of_nat
        (Stats.uniqueEntries
           (getStats (EnhancedTrie.insert (js "ab") 2
                        (EnhancedTrie.insert (js "ab") 1 EnhancedTrie.new))))
      <= Stats.totalInsertions
           (getStats (EnhancedTrie.insert (js "ab") 2
                        (EnhancedTrie.insert (js "ab") 1 EnhancedTrie.new))))%Z.
Proof.
  assert (H : reachable (EnhancedTrie.insert (js "ab") 2
                           (EnhancedTrie.insert (js "ab") 1 EnhancedTrie.new)))
    by (repeat constructor).
  split; [exact H|]. split; [reflexivity|].
  exact (proj1 (reachable_stats _ H)).
Defined.

(** ** Selecting what was inserted *)

(** [recordSelection(s)] right after [insert(s)], for a sentence that is not
    empty.  If the sentence has no blank at either end, the selection hits
    the node of the insertion: its frequency is 2 more than before the
    insertion and its timestamp is that of the selection.  If it has one,
    the stored text is the trimmed sentence, the comparison of line 142
    fails and the selection changes nothing. *)
Theorem insert_then_recordSelection
        (sentence : jsstring) (now now' : Z) (self : EnhancedTrie.t) :
  sentence <> [] ->
  let key := EnhancedTrie.processSentence sentence in
  let inserted := EnhancedTrie.insert sentence now self in
  let selected := EnhancedTrie.recordSelection sentence now' inserted in
  (trim sentence = sentence ->
   exists node,
     EnhancedTrie.walk key (EnhancedTrie.root selected) = Some node
     /\ isEndOfWord node = true
     /\ fullSentence node = sentence
     /\ lastUsed node = now'
     /\ frequency node
        = (frequency (match EnhancedTrie.walk key (EnhancedTrie.root self) with
                      | Some old => old
                      | None => TrieNode.new
                      end) + 2)%Z)
  /\ (trim sentence <> sentence -> selected = inserted).
Proof.
  intros Hs key inserted selected.
  assert (Hw : EnhancedTrie.walk key (EnhancedTrie.root inserted)
               = Some (EnhancedTrie.markEnd sentence now
                         (match EnhancedTrie.walk key (EnhancedTrie.root self) with
                          | Some old => old
                          | None => TrieNode.new
                          end))).
  { subst inserted key. rewrite insert_root by assumption.
    apply walk_insertPath_same. }
  assert (Hsel : selected
                 = if jsstring_eqb (trim sentence) sentence
                   then {| EnhancedTrie.root :=
                             EnhancedTrie.update_at key (EnhancedTrie.bump now')
                               (EnhancedTrie.root inserted);
                           EnhancedTrie.totalInsertions :=
                             EnhancedTrie.totalInsertions inserted |}
                   else inserted).
  { subst selected. unfold EnhancedTrie.recordSelection.
    destruct sentence as [|c s]; [congruence|]. cbn [is_empty].
    fold key. rewrite Hw. reflexivity. }
  split.
  - intros Ht. rewrite Hsel, Ht, jsstring_eqb_refl. cbn [EnhancedTrie.root].
    eexists. split; [apply walk_update_at_same; exact Hw|].
    simpl. repeat split; try assumption. lia.
  - intros Ht. rewrite Hsel.
    apply jsstring_eqb_neq in Ht. now rewrite Ht.
Qed.

Lemma insert_then_recordSelection_witness :
  js " Hi" <> []
  /\ trim (js " Hi") <> js " Hi"
  /\ EnhancedTrie.recordSelection (js " Hi") 2
       (EnhancedTrie.insert (js " Hi") 1 EnhancedTrie.new)
     = EnhancedTrie.insert (js " Hi") 1 EnhancedTrie.new.
Proof.
  assert (H : js " Hi" <> []) by discriminate.
  assert (Ht : trim (js " Hi") <> js " Hi") by discriminate.
  split; [exact H|]. split; [exact Ht|].
  exact (proj2 (insert_then_recordSelection (js " Hi") 1 2 EnhancedTrie.new H) Ht).
Defined.

(** ** When [autocomplete] throws *)

(** For a query that is not empty, the [autocomplete] of lines 423-466
    throws a TypeError exactly when the trie has a suggestion for one of
    the variations of the query (so that line 436 is reached); it throws
    nothing else; when it returns, it returns the empty list; and in both
    cases it leaves the object as it was. *)
Theorem autocomplete_throws_on_any_hit
        (self : FuzzyTrieAutocomplete.t) (query : jsstring) (limit : option nat) :
  query <> [] ->
  let n := match limit with Some l => l | None => 10 end in
  (fst (FuzzyTrieAutocomplete.autocomplete query limit self) = Throw TypeError
   <-> exists s,
         fuzzyHit (FuzzyTrieAutocomplete.fuzzyMatcher self)
                  (FuzzyTrieAutocomplete.trie self) (Some n) query s)
  /\ (fst (FuzzyTrieAutocomplete.autocomplete query limit self) = Throw TypeError
      \/ fst (FuzzyTrieAutocomplete.autocomplete query limit self) = Ok [])
  /\ snd (FuzzyTrieAutocomplete.autocomplete query limit self) = self.
Proof.
  intros Hq n. rewrite (autocomplete_run query limit self Hq). fold n.
  cbn [fst snd].
  assert (Hiff : existsb (has_hit self n)
                   (FuzzyMatcher.getVariations
                      (FuzzyTrieAutocomplete.fuzzyMatcher self) query) = true
                 <-> exists s,
                       fuzzyHit (FuzzyTrieAutocomplete.fuzzyMatcher self)
                                (FuzzyTrieAutocomplete.trie self) (Some n) query s).
  { rewrite existsb_exists. unfold fuzzyHit, has_hit. split.
    - intros [variation [Hv Hh]].
      destruct (EnhancedTrie.autocomplete variation (Some n)
                  (FuzzyTrieAutocomplete.trie self)) as [|s rest] eqn:E;
        [discriminate|].
      exists s, variation. split; [assumption|]. rewrite E. now left.
    - intros [s [variation [Hv Hs]]]. exists variation. split; [assumption|].
      destruct (EnhancedTrie.autocomplete variation (Some n)
                  (FuzzyTrieAutocomplete.trie self)); [contradiction|reflexivity]. }
  split; [|split; [|reflexivity]].
  - rewrite <- Hiff. destruct (existsb _ _); split; congruence.
  - destruct (existsb _ _); [left|right]; reflexivity.
Qed.

Lemma autocomplete_throws_on_any_hit_witness :
  js "teh" <> []
  /\ fst (FuzzyTrieAutocomplete.autocomplete (js "teh") None
            {| FuzzyTrieAutocomplete.fuzzyMatcher := FuzzyMatcher.new (Some 1);
               FuzzyTrieAutocomplete.trie :=
                 EnhancedTrie.insert (js "The cat.") 1 EnhancedTrie.new |})
     = Throw TypeError.
Proof.
  assert (H : js "teh" <> []) by discriminate.
  split; [exact H|].
  refine (proj2 (proj1 (autocomplete_throws_on_any_hit
                          {| FuzzyTrieAutocomplete.fuzzyMatcher :=
                               FuzzyMatcher.new (Some 1);
                             FuzzyTrieAutocomplete.trie :=
                               EnhancedTrie.insert (js "The cat.") 1
                                 EnhancedTrie.new |}
                          (js "teh") None H)) _).
  exists (js "The cat."), (js "the"). split.
  - apply in_check. vm_compute. reflexivity.
  - apply in_check. vm_compute. reflexivity.
Defined.

(** ** Splitting a text *)

Lemma splitFrom_spec (current text : jsstring) :
  forallb (fun c => negb (is_terminator c)) current = true ->
  (exists leftover,
      rev current ++ text = concat (splitFrom current text) ++ leftover
      /\ forallb (fun c => negb (is_terminator c)) leftover = true)
  /\ Forall sentence_shape (splitFrom current text)
  /\ length (splitFrom current text) = length (filter is_terminator text).
Proof.
  revert current; induction text as [|c rest IH]; intros current Hc.
  - simpl. split; [|split; [constructor|reflexivity]].
    exists (rev current). rewrite app_nil_r. split; [reflexivity|].
    rewrite forallb_forall in *. intros x Hx. apply Hc. now apply in_rev.
  - cbn [splitFrom filter]. destruct (is_terminator c) eqn:E.
    + destruct (IH [] eq_refl) as [[leftover [Hl Hn]] [Hf Hlen]].
      split; [|split].
      * exists leftover. cbn [concat]. split; [|assumption].
        simpl in Hl. rewrite <- app_assoc, <- Hl. simpl. now rewrite <- app_assoc.
      * constructor; [|assumption].
        exists (rev current), c. repeat split; [assumption|].
        rewrite forallb_forall in *. intros x Hx. apply Hc. now apply in_rev.
      * simpl. now rewrite Hlen.
    + destruct (IH (c :: current)) as [[leftover [Hl Hn]] [Hf Hlen]].
      { simpl. now rewrite E. }
      split; [|split; assumption].
      exists leftover. split; [|assumption].
      rewrite <- Hl. simpl. now rewrite <- app_assoc.
Qed.

(** [splitText] cuts a text after each [.], [!] and [?]: the sentences it
    returns, put together, are the text up to its last terminator; what is
    left after that one holds no terminator and is dropped; each sentence
    ends with its only terminator; and there are as many sentences as the
    text has terminators. *)
Theorem splitText_sentences (text : jsstring) :
  (exists leftover,
      text = concat (splitText text) ++ leftover
      /\ forallb (fun c => negb (is_terminator c)) leftover = true)
  /\ Forall sentence_shape (splitText text)
  /\ length (splitText text) = length (filter is_terminator text).
Proof. exact (splitFrom_spec [] text eq_refl). Qed.

(** * The search by similarity ([src/script.js], lines 22-40 and 1122-1140) *)

Lemma in_unique (l : list jsstring) (x : jsstring) :
  In x (FuzzyTrieAutocomplete.unique l) <-> In x l.
Proof.
  unfold FuzzyTrieAutocomplete.unique. rewrite in_fold_set_add. simpl. tauto.
Qed.

Lemma unique_nodup (l : list jsstring) : NoDup (FuzzyTrieAutocomplete.unique l).
Proof.
  unfold FuzzyTrieAutocomplete.unique.
  assert (H : forall seen, NoDup seen ->
                NoDup (fold_left (fun seen x => FuzzyMatcher.set_add x seen) l seen)).
  { induction l as [|x l IH]; intros seen Hs; simpl; [assumption|].
    apply IH. now apply set_add_nodup. }
  apply H. constructor.
Qed.

Lemma ranked_unique_hits (matcher : FuzzyMatcher.t) (trie : EnhancedTrie.t)
      (limit : option nat) (query : jsstring) :
  query <> [] ->
  let ranked :=
    FuzzyMatcher.rankMatches query
      (FuzzyTrieAutocomplete.unique
         (flat_map (fun variation => EnhancedTrie.autocomplete variation limit trie)
                   (FuzzyMatcher.getVariations matcher query))) in
  NoDup ranked
  /\ (forall s, In s ranked <-> fuzzyHit matcher trie limit query s)
  /\ StronglySorted (by_similarity query) ranked.
Proof.
  intros Hq ranked. subst ranked.
  pose proof (rankMatches_perm query
                (FuzzyTrieAutocomplete.unique
                   (flat_map (fun variation =>
                                EnhancedTrie.autocomplete variation limit trie)
                             (FuzzyMatcher.getVariations matcher query))) Hq) as Hp.
  split; [|split].
  - apply (Permutation_NoDup (Permutation_sym Hp)). apply unique_nodup.
  - intros s. split.
    + intros H. apply (Permutation_in _ Hp) in H.
      apply (proj1 (in_unique _ _)) in H.
      apply (proj1 (in_flat_map _ _ _)) in H. exact H.
    + intros H. apply (Permutation_in _ (Permutation_sym Hp)).
      apply (proj2 (in_unique _ _)). apply (proj2 (in_flat_map _ _ _)). exact H.
  - apply rankMatches_sorted.
Qed.

(** [getFuzzySuggestions(prefix)] of [AppManager]: nothing for the empty
    prefix; otherwise every sentence that the trie's [autocomplete] (with
    its limit of ten) gives for one of the variations of the prefix, each
    one once, in the order of their similarity to the prefix, the closest
    first. *)
Theorem getFuzzySuggestions_ranked_hits (prefix : jsstring) (self : AppManager.t) :
  AppManager.getFuzzySuggestions [] self = []
  /\ (prefix <> [] ->
      NoDup (AppManager.getFuzzySuggestions prefix self)
      /\ (forall s,
             In s (AppManager.getFuzzySuggestions prefix self)
             <-> fuzzyHit (AppManager.fuzzyMatcher self) (AppManager.trie self)
                          None prefix s)
      /\ StronglySorted (by_similarity prefix)
                        (AppManager.getFuzzySuggestions prefix self)).
Proof.
  split; [reflexivity|]. intros Hq.
  unfold AppManager.getFuzzySuggestions.
  destruct prefix as [|c p]; [congruence|]. cbn [is_empty].
  apply ranked_unique_hits. discriminate.
Qed.

Lemma getFuzzySuggestions_ranked_hits_witness :
  js "teh" <> []
  /\ In (js "The cat.")
        (AppManager.getFuzzySuggestions (js "teh")
           {| AppManager.trie :=
                EnhancedTrie.insert (js "The cat.") 1 EnhancedTrie.new;
              AppManager.fuzzyMatcher := FuzzyMatcher.new (Some 1) |}).
Proof.
  assert (H : js "teh" <> []) by discriminate.
  split; [exact H|].
  refine (proj2 (proj1 (proj2 (proj2 (getFuzzySuggestions_ranked_hits (js "teh")
            {| AppManager.trie :=
                 EnhancedTrie.insert (js "The cat.") 1 EnhancedTrie.new;
               AppManager.fuzzyMatcher := FuzzyMatcher.new (Some 1) |}) H))
                   (js "The cat.")) _).
  exists (js "the"). split.
  - apply in_check. vm_compute. reflexivity.
  - apply in_check. vm_compute. reflexivity.
Defined.

(** The first [FuzzyTrieAutocomplete.autocomplete] (lines 22-40), for a
    query that is not empty: it returns a list and leaves the object as it
    was; the list is the start, of at most [limit] sentences, of the ranking
    of all the sentences found under the variations of the query (each with
    the trie's limit [limit]), each one once, the closest to the query
    first; what the limit cuts off is no closer than what is returned. *)
Theorem autocompleteBySimilarity_closest_first
        (query : jsstring) (limit : option nat) (self : FuzzyTrieAutocomplete.t) :
  query <> [] ->
  let n := match limit with Some l => l | None => 10 end in
  exists result rest,
    FuzzyTrieAutocomplete.autocompleteBySimilarity query limit self
    = (Ok result, self)
    /\ length result <= n
    /\ (rest <> [] -> length result = n)
    /\ NoDup (result ++ rest)
    /\ (forall s,
           In s (result ++ rest)
           <-> fuzzyHit (FuzzyTrieAutocomplete.fuzzyMatcher self)
                        (FuzzyTrieAutocomplete.trie self) (Some n) query s)
    /\ StronglySorted (by_similarity query) (result ++ rest)
    /\ (forall x y, In x result -> In y rest -> by_similarity query x y).
Proof.
  intros Hq n.
  rewrite (autocompleteBySimilarity_run query limit self Hq). fold n.
  set (ranked := FuzzyMatcher.rankMatches query _).
  destruct (ranked_unique_hits (FuzzyTrieAutocomplete.fuzzyMatcher self)
              (FuzzyTrieAutocomplete.trie self) (Some n) query Hq)
    as [Hnd [Hin Hs]].
  fold ranked in Hnd, Hin, Hs.
  exists (firstn n ranked), (skipn n ranked).
  rewrite firstn_skipn.
  split; [reflexivity|]. split; [apply firstn_le_length|].
  split.
  { intros Hr. apply firstn_length_le.
    destruct (le_lt_dec n (length ranked)) as [Hle|Hlt]; [assumption|].
    exfalso. apply Hr. apply skipn_all2. lia. }
  split; [assumption|]. split; [assumption|]. split; [assumption|].
  intros x y Hx Hy.
  rewrite <- (firstn_skipn n ranked) in Hs.
  revert Hs Hx Hy. generalize (firstn n ranked) (skipn n ranked).
  intros l1 l2. induction l1 as [|a l1 IH]; intros Hs Hx Hy; [contradiction|].
  simpl in Hs. apply StronglySorted_inv in Hs. destruct Hs as [Hs Hall].
  destruct Hx as [->|Hx]; [|now apply IH].
  rewrite Forall_forall in Hall. apply Hall. apply in_or_app. now right.
Qed.

Lemma autocompleteBySimilarity_closest_first_witness :
  js "teh" <> []
  /\ exists result rest,
      FuzzyTrieAutocomplete.autocompleteBySimilarity (js "teh") (Some 1)
        {| FuzzyTrieAutocomplete.fuzzyMatcher := FuzzyMatcher.new (Some 1);
           FuzzyTrieAutocomplete.trie :=
             EnhancedTrie.insert (js "Ten.") 2
               (EnhancedTrie.insert (js "The cat.") 1 EnhancedTrie.new) |}
      = (Ok result,
         {| FuzzyTrieAutocomplete.fuzzyMatcher := FuzzyMatcher.new (Some 1);
            FuzzyTrieAutocomplete.trie :=
              EnhancedTrie.insert (js "Ten.") 2
                (EnhancedTrie.insert (js "The cat.") 1 EnhancedTrie.new) |})
      /\ length result <= 1
      /\ (forall x y, In x result -> In y rest -> by_similarity (js "teh") x y).
Proof.
  assert (H : js "teh" <> []) by discriminate.
  split; [exact H|].
  destruct (autocompleteBySimilarity_closest_first (js "teh") (Some 1)
              {| FuzzyTrieAutocomplete.fuzzyMatcher := FuzzyMatcher.new (Some 1);
                 FuzzyTrieAutocomplete.trie :=
                   EnhancedTrie.insert (js "Ten.") 2
                     (EnhancedTrie.insert (js "The cat.") 1 EnhancedTrie.new) |} H)
    as [result [rest [Hrun [Hlen [_ [_ [_ [_ Hbest]]]]]]]].
  exists result, rest. split; [exact Hrun|]. split; [exact Hlen|exact Hbest].
Defined.

(** * The first trie of [src/script.js] (lines 234-283) *)

Section ChildrenUpdates.
Context {N : Type}.
Implicit Types (l : list (ascii * N)) (c k : ascii) (n m : N).

Lemma set_child_add_child l c n m :
  get_child c l = None -> set_child c n (add_child c m l) = add_child c n l.
Proof.
  induction l as [|[k m'] r IH]; simpl.
  - now rewrite Ascii.eqb_refl.
  - destruct (Ascii.eqb k c) eqn:E; [discriminate|]. intros H.
    destruct (is_index_key c && _); simpl.
    + now rewrite Ascii.eqb_refl.
    + rewrite E, IH; auto.
Qed.

Lemma set_child_set_child l c n m :
  set_child c n (set_child c m l) = set_child c n l.
Proof.
  induction l as [|[k m'] r IH]; simpl; [reflexivity|].
  destruct (Ascii.eqb k c) eqn:E; simpl; rewrite E; [reflexivity|].
  now rewrite IH.
Qed.

Lemma in_add_child_inv l c n (e : ascii * N) :
  In e (add_child c n l) -> e = (c, n) \/ In e l.
Proof.
  induction l as [|[k m'] r IH]; simpl.
  - intros [H|[]]; auto.
  - destruct (is_index_key c && _); simpl.
    + intros [H|H]; auto.
    + intros [H|H]; auto. destruct (IH H); auto.
Qed.

Lemma in_set_child_inv l c n (e : ascii * N) :
  In e (set_child c n l) -> e = (c, n) \/ In e l.
Proof.
  induction l as [|[k m'] r IH]; simpl; [auto|].
  destruct (Ascii.eqb k c) eqn:E; simpl.
  - apply Ascii.eqb_eq in E. subst. intros [H|H]; auto.
  - intros [H|H]; auto. destruct (IH H); auto.
Qed.
End ChildrenUpdates.

Lemma Trie_findWords_eq (n : Trie.node) :
  Trie.findWords n
  = (if Trie.isEndOfWord n then [Trie.fullSentence n] else [])
    ++ flat_map (fun kc => Trie.findWords (snd kc)) (Trie.children n).
Proof.
  destruct n as [ch e s]. simpl. f_equal.
  induction ch as [|[k c] r IH]; simpl; [reflexivity|]. now rewrite IH.
Qed.

Lemma Trie_in_findWords_child (c : ascii) (child n : Trie.node) (x : jsstring) :
  In (c, child) (Trie.children n) -> In x (Trie.findWords child) ->
  In x (Trie.findWords n).
Proof.
  intros Hc Hx. rewrite Trie_findWords_eq. apply in_or_app. right.
  apply in_flat_map. exists (c, child). split; assumption.
Qed.

Lemma Trie_walk_compact (p : jsstring) (n : Trie.node) :
  Trie.walk p n = Trie.walk (compact p) n.
Proof.
  revert n; induction p as [|c p IH]; intros n; [reflexivity|].
  cbn [Trie.walk compact filter]. destruct (Trie.is_space c) eqn:E; cbn [negb].
  - apply IH.
  - cbn [Trie.walk]. rewrite E.
    destruct (get_child c (Trie.children n)); [apply IH|reflexivity].
Qed.

Lemma Trie_insertFrom_compact (chars sentence : jsstring) (n : Trie.node) :
  Trie.insertFrom chars sentence n = Trie.insertFrom (compact chars) sentence n.
Proof.
  revert n; induction chars as [|c p IH]; intros n; [reflexivity|].
  cbn [Trie.insertFrom compact filter].
  destruct (Trie.is_space c) eqn:E; cbn [negb].
  - apply IH.
  - cbn [Trie.insertFrom]. rewrite E.
    destruct (get_child c (Trie.children n)); now rewrite IH.
Qed.

Lemma Trie_insertFrom_twice (key s1 s2 : jsstring) (n : Trie.node) :
  Trie.insertFrom key s2 (Trie.insertFrom key s1 n) = Trie.insertFrom key s2 n.
Proof.
  revert n; induction key as [|c r IH]; intros n; [reflexivity|].
  cbn [Trie.insertFrom]. destruct (Trie.is_space c) eqn:E; [apply IH|].
  destruct (get_child c (Trie.children n)) as [child|] eqn:G;
    cbn [Trie.insertFrom Trie.children Trie.isEndOfWord Trie.fullSentence];
    rewrite ?E.
  - rewrite (get_set_child_same _ _ _ _ G), IH, set_child_set_child. reflexivity.
  - rewrite (get_add_child_same _ _ _ G), IH, (set_child_add_child _ _ _ _ G).
    reflexivity.
Qed.

Lemma Trie_walk_insertFrom (p q sentence : jsstring) (n : Trie.node) :
  exists n0,
    Trie.walk p (Trie.insertFrom (p ++ q) sentence n)
    = Some (Trie.insertFrom q sentence n0).
Proof.
  revert n; induction p as [|c p IH]; intros n; [now exists n|].
  cbn [app Trie.insertFrom Trie.walk].
  destruct (Trie.is_space c) eqn:E; [apply IH|].
  destruct (get_child c (Trie.children n)) as [child|] eqn:G;
    cbn [Trie.walk Trie.children]; rewrite ?E.
  - rewrite (get_set_child_same _ _ _ _ G). apply IH.
  - rewrite (get_add_child_same _ _ _ G). apply IH.
Qed.

Lemma Trie_in_findWords_insertFrom (q sentence : jsstring) (n : Trie.node) :
  In sentence (Trie.findWords (Trie.insertFrom q sentence n)).
Proof.
  revert n; induction q as [|c q IH]; intros n.
  - simpl. now left.
  - cbn [Trie.insertFrom]. destruct (Trie.is_space c); [apply IH|].
    destruct (get_child c (Trie.children n)) as [child|] eqn:G.
    + eapply Trie_in_findWords_child; [|apply (IH child)].
      cbn [Trie.children]. apply (in_set_child _ _ _ _ G).
    + eapply Trie_in_findWords_child; [|apply (IH Trie.newNode)].
      cbn [Trie.children]. apply in_add_child.
Qed.

Lemma Trie_findWords_insertFrom_inv (key sentence x : jsstring) (n : Trie.node) :
  In x (Trie.findWords (Trie.insertFrom key sentence n)) ->
  x = sentence \/ In x (Trie.findWords n).
Proof.
  revert n; induction key as [|c r IH]; intros n.
  - cbn [Trie.insertFrom]. rewrite (Trie_findWords_eq n), Trie_findWords_eq.
    cbn [Trie.isEndOfWord Trie.fullSentence Trie.children].
    intros H. apply in_app_or in H. destruct H as [[H|[]]|H]; [now left|].
    right. apply in_or_app. now right.
  - cbn [Trie.insertFrom]. destruct (Trie.is_space c); [apply IH|].
    destruct (get_child c (Trie.children n)) as [child|] eqn:G;
      rewrite (Trie_findWords_eq n), Trie_findWords_eq;
      cbn [Trie.isEndOfWord Trie.fullSentence Trie.children];
      intros H; apply in_app_or in H;
      (destruct H as [H|H]; [right; apply in_or_app; now left|]);
      apply in_flat_map in H; destruct H as [[k m] [Hin Hx]]; simpl in Hx.
    + apply in_set_child_inv in Hin. destruct Hin as [Heq|Hin].
      * injection Heq as -> ->. destruct (IH _ Hx) as [->|Hc]; [now left|].
        right. apply in_or_app. right. apply in_flat_map.
        exists (c, child). split; [now apply get_child_in|assumption].
      * right. apply in_or_app. right. apply in_flat_map.
        exists (k, m). split; assumption.
    + apply in_add_child_inv in Hin. destruct Hin as [Heq|Hin].
      * injection Heq as -> ->. destruct (IH _ Hx) as [->|Hc]; [now left|].
        destruct Hc.
      * right. apply in_or_app. right. apply in_flat_map.
        exists (k, m). split; assumption.
Qed.

Lemma Trie_walk_newNode (p : jsstring) (n0 : Trie.node) :
  Trie.walk p Trie.newNode = Some n0 -> n0 = Trie.newNode.
Proof.
  induction p as [|c p IH]; simpl; [congruence|].
  destruct (Trie.is_space c); [assumption|discriminate].
Qed.

Lemma Trie_walk_insertFrom_inv (p key sentence x : jsstring) (n n' : Trie.node) :
  Trie.walk p (Trie.insertFrom key sentence n) = Some n' ->
  In x (Trie.findWords n') ->
  x = sentence
  \/ exists n0, Trie.walk p n = Some n0 /\ In x (Trie.findWords n0).
Proof.
  revert key n; induction p as [|c p IH]; intros key n.
  - cbn [Trie.walk]. intros H Hx. injection H as <-.
    destruct (Trie_findWords_insertFrom_inv _ _ _ _ Hx); [now left|].
    right. now exists n.
  - cbn [Trie.walk]. destruct (Trie.is_space c) eqn:E; [apply IH|].
    induction key as [|d key IHk].
    + cbn [Trie.insertFrom Trie.children]. intros H Hx. right. now exists n'.
    + cbn [Trie.insertFrom]. destruct (Trie.is_space d) eqn:Ed; [exact IHk|].
      clear IHk.
      destruct (Ascii.eqb d c) eqn:Edc.
      * apply Ascii.eqb_eq in Edc. subst d.
        destruct (get_child c (Trie.children n)) as [child|] eqn:G;
          cbn [Trie.children].
        -- rewrite (get_set_child_same _ _ _ _ G). apply IH.
        -- rewrite (get_add_child_same _ _ _ G). intros H Hx.
           destruct (IH _ _ H Hx) as [->|[n0 [W Hn0]]]; [now left|].
           apply Trie_walk_newNode in W. subst n0. destruct Hn0.
      * apply Ascii.eqb_neq in Edc.
        destruct (get_child d (Trie.children n)) as [child|] eqn:G;
          cbn [Trie.children].
        -- rewrite (get_set_child_other _ _ _ _ Edc). intros H Hx.
           right. now exists n'.
        -- rewrite (get_add_child_other _ _ _ _ Edc). intros H Hx.
           right. now exists n'.
Qed.

(** The first trie keys a sentence by its characters other than the space,
    in the case they have: [autocomplete] reads its prefix in the same way,
    and of two sentences that differ in their spaces only, each replaces
    the other: inserting the second leaves the trie that the second alone
    would give. *)
Theorem Trie_spaces_ignored (s1 s2 prefix : jsstring) (self : Trie.t) :
  compact s1 = compact s2 ->
  Trie.insert s2 (Trie.insert s1 self) = Trie.insert s2 self
  /\ Trie.autocomplete prefix self = Trie.autocomplete (compact prefix) self.
Proof.
  intros Hk. split.
  - unfold Trie.insert. cbn [Trie.root]. f_equal.
    rewrite (Trie_insertFrom_compact s2 s2 (Trie.root self)),
      (Trie_insertFrom_compact s2 s2 (Trie.insertFrom _ _ _)),
      (Trie_insertFrom_compact s1), Hk.
    apply Trie_insertFrom_twice.
  - unfold Trie.autocomplete. now rewrite Trie_walk_compact.
Qed.

Lemma Trie_spaces_ignored_witness :
  compact (js "a b.") = compact (js "ab .")
  /\ Trie.autocomplete (js "a") (Trie.insert (js "ab .") (Trie.insert (js "a b.") Trie.new))
     = [js "ab ."].
Proof.
  assert (H : compact (js "a b.") = compact (js "ab .")) by reflexivity.
  split; [exact H|].
  rewrite (proj1 (Trie_spaces_ignored (js "a b.") (js "ab .") [] Trie.new H)).
  reflexivity.
Defined.

(** After [insert(sentence)], [autocomplete(prefix)] of the first trie lists
    the sentence for every prefix of its key, the empty prefix included (no
    limit, no guard, no change of case); and it lists nothing else that it
    did not list before. *)
Theorem Trie_insert_autocomplete
        (sentence prefix rest : jsstring) (self : Trie.t) :
  compact sentence = compact prefix ++ rest ->
  In sentence (Trie.autocomplete prefix (Trie.insert sentence self))
  /\ forall x,
       In x (Trie.autocomplete prefix (Trie.insert sentence self)) ->
       x = sentence \/ In x (Trie.autocomplete prefix self).
Proof.
  intros Hk. unfold Trie.autocomplete, Trie.insert. cbn [Trie.root]. split.
  - rewrite Trie_walk_compact, Trie_insertFrom_compact, Hk.
    destruct (Trie_walk_insertFrom (compact prefix) rest sentence (Trie.root self))
      as [n0 ->].
    apply Trie_in_findWords_insertFrom.
  - intros x.
    destruct (Trie.walk prefix (Trie.insertFrom sentence sentence (Trie.root self)))
      as [n'|] eqn:W; [|intros []].
    intros Hx.
    destruct (Trie_walk_insertFrom_inv _ _ _ _ _ _ W Hx) as [->|[n0 [W0 Hn0]]];
      [now left|].
    right. now rewrite W0.
Qed.

Lemma Trie_insert_autocomplete_witness :
  compact (js "Hi there.") = compact (js "H i") ++ js "there."
  /\ In (js "Hi there.")
        (Trie.autocomplete (js "H i") (Trie.insert (js "Hi there.") Trie.new)).
Proof.
  assert (H : compact (js "Hi there.") = compact (js "H i") ++ js "there.")
    by reflexivity.
  split; [exact H|].
  exact (proj1 (Trie_insert_autocomplete (js "Hi there.") (js "H i")
                  (js "there.") Trie.new H)).
Defined.

(** * Reading a file into the trie ([src/script.js], lines 1058-1094) *)

Lemma terminator_not_ws (t : ascii) : is_terminator t = true -> is_ws t = false.
Proof.
  unfold is_terminator. intros H.
  apply orb_true_iff in H. destruct H as [H|H];
    [apply orb_true_iff in H; destruct H as [H|H]|];
    apply Ascii.eqb_eq in H; subst t; reflexivity.
Qed.

Lemma sentence_shape_not_blank (s : jsstring) : sentence_shape s -> trim s <> [].
Proof.
  intros [body [t [-> [Ht _]]]] H. apply trim_nil_iff in H.
  rewrite forallb_app in H. apply andb_prop in H. destruct H as [_ H].
  simpl in H. rewrite (terminator_not_ws t Ht) in H. discriminate.
Qed.

Lemma stored_insert_same (sentence : jsstring) (now : Z) (self : EnhancedTrie.t) :
  sentence <> [] ->
  stored (EnhancedTrie.insert sentence now self) sentence = true.
Proof.
  intros H. unfold stored. rewrite insert_root by assumption.
  rewrite walk_insertPath_same. reflexivity.
Qed.

Lemma stored_insert_keeps (sentence s : jsstring) (now : Z) (self : EnhancedTrie.t) :
  stored self s = true ->
  stored (EnhancedTrie.insert sentence now self) s = true.
Proof.
  destruct sentence as [|c r] eqn:Es; [trivial|]. rewrite <- Es.
  assert (Hne : sentence <> []) by (rewrite Es; discriminate).
  unfold stored. rewrite insert_root by assumption.
  destruct (EnhancedTrie.walk (EnhancedTrie.processSentence s)
                              (EnhancedTrie.root self)) as [n|] eqn:W;
    [|discriminate].
  intros Hn.
  destruct (walk_insertPath_other (EnhancedTrie.markEnd sentence now)
              (markEnd_children sentence now)
              (EnhancedTrie.processSentence sentence)
              (EnhancedTrie.processSentence s) _ n W)
    as [n' [-> [[_ ->]|[_ [He _]]]]]; [reflexivity|].
  now rewrite He.
Qed.

Lemma insertSentences_ingests (sentences : list jsstring) :
  Forall (fun s => trim s <> []) sentences ->
  forall (nows : list Z) (trie : EnhancedTrie.t),
    EnhancedTrie.totalInsertions (AppManager.insertSentences sentences nows trie)
    = (EnhancedTrie.totalInsertions trie + Z.of_nat (length sentences))%Z
    /\ (forall s, In s sentences ->
                  stored (AppManager.insertSentences sentences nows trie) (trim s)
                  = true)
    /\ (forall s, stored trie s = true ->
                  stored (AppManager.insertSentences sentences nows trie) s = true).
Proof.
  induction 1 as [|sentence rest Hs Hrest IH]; intros nows trie.
  - simpl. split; [lia|]. split; [intros s []|trivial].
  - cbn [AppManager.insertSentences].
    destruct (trim sentence) as [|c r] eqn:Et; [congruence|].
    cbn [is_empty negb]. rewrite <- Et.
    destruct (IH (tl nows)
                 (EnhancedTrie.insert (trim sentence) (hd 0%Z nows) trie))
      as [Hcount [Hnew Hold]].
    split; [|split].
    + rewrite Hcount. unfold EnhancedTrie.insert at 1. rewrite Et.
      cbn [is_empty EnhancedTrie.totalInsertions length]. lia.
    + intros s [<-|Hin]; [|now apply Hnew].
      apply Hold. apply stored_insert_same. rewrite Et. discriminate.
    + intros s Hst. apply Hold. now apply stored_insert_keeps.
Qed.

(** What reading a file does to the trie (the callback of [processFiles]):
    every sentence that [splitTextIntoSentences] cuts from the text is
    inserted, none is blank; the counter of insertions grows by the number
    of [.], [!] and [?] in the text; afterwards the key of every one of the
    sentences, trimmed, leads to a terminal node, and so does every key
    that did before; the matcher is left as it was. *)
Theorem processFile_ingests (text : jsstring) (nows : list Z) (self : AppManager.t) :
  EnhancedTrie.totalInsertions (AppManager.trie (AppManager.processFile text nows self))
  = (EnhancedTrie.totalInsertions (AppManager.trie self)
     + Z.of_nat (length (filter is_terminator text)))%Z
  /\ (forall s, In s (splitText text) ->
                trim s <> []
                /\ stored (AppManager.trie (AppManager.processFile text nows self))
                          (trim s) = true)
  /\ (forall s, stored (AppManager.trie self) s = true ->
                stored (AppManager.trie (AppManager.processFile text nows self)) s
                = true)
  /\ AppManager.fuzzyMatcher (AppManager.processFile text nows self)
     = AppManager.fuzzyMatcher self.
Proof.
  unfold AppManager.processFile. cbn [AppManager.trie AppManager.fuzzyMatcher].
  destruct (splitFrom_spec [] text eq_refl) as [_ [Hshape Hlen]].
  fold (splitText text) in Hshape, Hlen.
  assert (Hall : Forall (fun s => trim s <> []) (splitText text)).
  { revert Hshape. apply Forall_impl. apply sentence_shape_not_blank. }
  destruct (insertSentences_ingests (splitText text) Hall nows (AppManager.trie self))
    as [Hcount [Hnew Hold]].
  split; [now rewrite Hcount, Hlen|]. split; [|split; [exact Hold|reflexivity]].
  intros s Hin. split; [|now apply Hnew].
  rewrite Forall_forall in Hall. now apply Hall.
Qed.
